(** * when_present: conditional-compilation requirements of a source line

    A shallow embedding of [src/main.cpp].  The program reads a source file,
    builds the forest of preprocessor conditionals ([#if] / [#elif] / [#else] /
    [#endif]) in one pass, and for every requested line prints which
    conditions have to be true or false for that line to be compiled.

    Conventions of the embedding:
    - [int] line numbers are [Z]; signed overflow is undefined in C++, so the
      model describes files of fewer than 2^31 lines;
    - a [std::string] is a [string], a [std::vector] a [list] whose
      [push_back] is [++ [x]] and whose [back()] is [last];
    - a [conditional*] kept on [stateStack] is the location of a conditional
      inside the forest (type [cond_ptr]); the forest is read and written
      through it, so aliasing is explicit;
    - [printf] / [std::wcout] output and the opening of the file are recorded
      as a list of [event]s. *)

From Stdlib Require Import ZArith String Ascii Lia DecimalString Sorted.
From Stdlib Require DecimalPos.
From stdpp Require Import base list.

Local Open Scope Z_scope.

(** ** Characters and strings *)

(** [static constexpr const char whitespace[] = " \t\v";] *)
Definition whitespace : string :=
  String " " (String "009" (String "011" EmptyString)).

Definition backslash : ascii := "092"%char.
Definition newline : ascii := "010"%char.
Definition hash : ascii := "#"%char.
Definition dash : ascii := "-"%char.

Fixpoint string_mem (c : ascii) (set : string) : bool :=
  match set with
  | EmptyString => false
  | String d set' => Ascii.eqb c d || string_mem c set'
  end.

Fixpoint string_drop (n : nat) (s : string) : string :=
  match n, s with
  | O, _ => s
  | S _, EmptyString => EmptyString
  | S n', String _ s' => string_drop n' s'
  end.

(** Index of the first character of [s] that is not in [set]. *)
Fixpoint first_not_of (set s : string) : option nat :=
  match s with
  | EmptyString => None
  | String c s' =>
      if string_mem c set then
        match first_not_of set s' with
        | Some i => Some (S i)
        | None => None
        end
      else Some O
  end.

(** [str.find_first_not_of(set, pos)]; [None] is [npos]. *)
Definition find_first_not_of (str set : string) (pos : nat) : option nat :=
  match first_not_of set (string_drop pos str) with
  | Some i => Some (pos + i)%nat
  | None => None
  end.

(** [std::isalpha] in the "C" locale. *)
Definition isalpha (c : ascii) : bool :=
  let n := nat_of_ascii c in
  ((65 <=? n)%nat && (n <=? 90)%nat) || ((97 <=? n)%nat && (n <=? 122)%nat).

(** [std::isspace] and [std::isdigit] in the "C" locale, for [atoi]. *)
Definition isspace (c : ascii) : bool :=
  let n := nat_of_ascii c in
  (n =? 32)%nat || ((9 <=? n)%nat && (n <=? 13)%nat).

Definition isdigit (c : ascii) : bool :=
  let n := nat_of_ascii c in (48 <=? n)%nat && (n <=? 57)%nat.

(** Number of leading alphabetic characters: the [endPos] loop of [main]. *)
Fixpoint alpha_run (s : string) : nat :=
  match s with
  | EmptyString => O
  | String c s' => if isalpha c then S (alpha_run s') else O
  end.

(** [!s.empty() && s.back() == '\\'] *)
Fixpoint ends_with_backslash (s : string) : bool :=
  match s with
  | EmptyString => false
  | String c EmptyString => Ascii.eqb c backslash
  | String _ s' => ends_with_backslash s'
  end.

Fixpoint skip_spaces (s : string) : string :=
  match s with
  | String c s' => if isspace c then skip_spaces s' else s
  | EmptyString => s
  end.

Fixpoint read_digits (acc : Z) (s : string) : Z :=
  match s with
  | String c s' =>
      if isdigit c then read_digits (10 * acc + (Z.of_nat (nat_of_ascii c) - 48)) s'
      else acc
  | EmptyString => acc
  end.

(** The numeral at the head of [s]: leading white space, an optional sign,
    decimal digits; what follows the digits is ignored, and no digit at all
    gives 0. *)
Definition numeral (s : string) : Z :=
  match skip_spaces s with
  | String c s' =>
      if Ascii.eqb c dash then - read_digits 0 s'
      else if Ascii.eqb c "+"%char then read_digits 0 s'
      else read_digits 0 (String c s')
  | EmptyString => 0
  end.

Definition INT_MAX : Z := 2147483647.
Definition LONG_MAX : Z := 9223372036854775807.
Definition LONG_MIN : Z := -9223372036854775808.

(** [std::strtol(s, nullptr, 10)] with a 64-bit [long]: a value out of range
    is replaced by [LONG_MIN] or [LONG_MAX]. *)
Definition strtol (s : string) : Z := Z.max LONG_MIN (Z.min LONG_MAX (numeral s)).

(** The conversion of a [long] to [int]: the low 32 bits, two's complement. *)
Definition int_of_long (z : Z) : Z := (z + 2 ^ 31) mod 2 ^ 32 - 2 ^ 31.

(** [std::atoi], whose result [main] keeps in an [int].  C leaves the result
    undefined for a numeral that does not fit; the model follows the usual
    implementation, [(int) strtol(s, nullptr, 10)], so that [2147483648] reads
    as a negative number and [4294967297] as 1. *)
Definition atoi (s : string) : Z := int_of_long (strtol s).

(** Lines joined by ['\n']. *)
Fixpoint join_lines (ls : list string) : string :=
  match ls with
  | [] => EmptyString
  | [l] => l
  | l :: ls' => String.append (String.append l (String newline EmptyString)) (join_lines ls')
  end.

(** ** The data model: [struct conditional] and [struct conditional_block] *)

Inductive conditional : Type :=
  mk_conditional (begin_line end_line : Z) (blocks : list conditional_block)
with conditional_block : Type :=
  mk_block (begin_line end_line : Z) (condition : string)
           (nested_conditionals : list conditional).

Definition begin_line (c : conditional) : Z :=
  match c with mk_conditional b _ _ => b end.
Definition end_line (c : conditional) : Z :=
  match c with mk_conditional _ e _ => e end.
Definition blocks (c : conditional) : list conditional_block :=
  match c with mk_conditional _ _ bs => bs end.

Definition block_begin_line (b : conditional_block) : Z :=
  match b with mk_block l _ _ _ => l end.
Definition block_end_line (b : conditional_block) : Z :=
  match b with mk_block _ e _ _ => e end.
Definition condition (b : conditional_block) : string :=
  match b with mk_block _ _ t _ => t end.
Definition nested_conditionals (b : conditional_block) : list conditional :=
  match b with mk_block _ _ _ ns => ns end.

(** Every conditional of a forest, at any depth, parents before children. *)
Fixpoint conds_of (c : conditional) : list conditional :=
  c :: flat_map (fun b => flat_map conds_of (nested_conditionals b)) (blocks c).

Definition all_conditionals (v : list conditional) : list conditional :=
  flat_map conds_of v.

(** ** Events: what the program prints, and the file it opens *)

Inductive event : Type :=
| Usage                                          (* print_usage() *)
| Error (msg : string)                           (* an "ERROR: ..." line *)
| OpenFile (path : string)                       (* std::ifstream stream(filePath) *)
| Header (line : Z)                              (* "Requirements for line %d ..." *)
| Requires (req : bool) (line : Z) (text : string) (* "REQUIRES TRUE/FALSE (%4d): %s" *)
| Blank.                                         (* printf("\n") *)

(** ** The reachability query: [process_line] *)

(** [cond.begin_line <= line && cond.end_line >= line] *)
Definition in_conditional (line : Z) (cond : conditional) : bool :=
  (begin_line cond <=? line) && (end_line cond >=? line).

(** [block->begin_line <= line && block->end_line > line] *)
Definition in_block (line : Z) (block : conditional_block) : bool :=
  (block_begin_line block <=? line) && (block_end_line block >? line).

(** The body of the outer [for] of [process_line] once [cond] contains
    [line]: the scan of [cond.blocks], recursing into the nested
    conditionals of the block that contains the line. *)
Fixpoint process_blocks (line : Z) (cond : conditional) {struct cond} : list event :=
  (fix scan (bs : list conditional_block) : list event :=
     match bs with
     | [] => []
     | block :: bs' =>
         if in_block line block then
           Requires true (block_begin_line block) (condition block)
           :: (fix process_line (conditionals : list conditional) : list event :=
                 match conditionals with
                 | [] => []
                 | c :: rest =>
                     if in_conditional line c then process_blocks line c
                     else process_line rest
                 end) (nested_conditionals block)
         else
           Requires false (block_begin_line block) (condition block) :: scan bs'
     end) (blocks cond).

(** [static void process_line(int line, const std::vector<conditional>&)] *)
Fixpoint process_line (line : Z) (conditionals : list conditional) : list event :=
  match conditionals with
  | [] => []
  | cond :: rest =>
      if in_conditional line cond then process_blocks line cond
      else process_line line rest
  end.

(** The inner [for] of [process_line], over the blocks of one conditional. *)
Fixpoint scan_blocks (line : Z) (bs : list conditional_block) : list event :=
  match bs with
  | [] => []
  | block :: bs' =>
      if in_block line block then
        Requires true (block_begin_line block) (condition block)
        :: process_line line (nested_conditionals block)
      else
        Requires false (block_begin_line block) (condition block)
        :: scan_blocks line bs'
  end.

(** ** Pointers into the forest

    [stateStack] holds [conditional*] values that point at elements of
    [conditionals] or of some block's [nested_conditionals].  Such a pointer is
    the path from the top-level vector to its element: for each step
    [(i, j)] enter [v[i].blocks[j]->nested_conditionals], and finally take
    element [ptr_index]. *)

Record cond_ptr : Type := mk_ptr { ptr_path : list (nat * nat); ptr_index : nat }.

Definition with_blocks (c : conditional) (bs : list conditional_block) : conditional :=
  mk_conditional (begin_line c) (end_line c) bs.

Definition with_nested (b : conditional_block) (ns : list conditional) : conditional_block :=
  mk_block (block_begin_line b) (block_end_line b) (condition b) ns.

Fixpoint deref_path (v : list conditional) (path : list (nat * nat)) (i : nat)
  : option conditional :=
  match path with
  | [] => v !! i
  | (k, j) :: path' =>
      match v !! k with
      | Some c =>
          match blocks c !! j with
          | Some b => deref_path (nested_conditionals b) path' i
          | None => None
          end
      | None => None
      end
  end.

(** [*p]; [None] when [p] does not point into the forest. *)
Definition deref (v : list conditional) (p : cond_ptr) : option conditional :=
  deref_path v (ptr_path p) (ptr_index p).

Fixpoint store_path (v : list conditional) (path : list (nat * nat)) (i : nat)
  (c' : conditional) : list conditional :=
  match path with
  | [] => <[i := c']> v
  | (k, j) :: path' =>
      alter (fun c =>
               with_blocks c
                 (alter (fun b =>
                           with_nested b
                             (store_path (nested_conditionals b) path' i c'))
                        j (blocks c)))
            k v
  end.

(** [*p = c']: the forest after the write. *)
Definition store (v : list conditional) (p : cond_ptr) (c' : conditional)
  : list conditional :=
  store_path v (ptr_path p) (ptr_index p) c'.

(** ** The directive of a logical line (lines 200-231 of [main]) *)

(** [None] is one of the three [continue] statements: the line is blank, does
    not start with ['#'], or has nothing after the ['#'].  [Some d] is the
    [std::string_view directive]. *)
Definition directive_of (currentLine : string) : option string :=
  match find_first_not_of currentLine whitespace 0 with
  | None => None
  | Some pos =>
      match String.get pos currentLine with
      | Some c =>
          if Ascii.eqb c hash then
            match find_first_not_of currentLine whitespace (pos + 1) with
            | None => None
            | Some pos' =>
                let endPos := (pos' + alpha_run (string_drop pos' currentLine))%nat in
                Some (substring pos' (endPos - pos') currentLine)
            end
          else None
      | None => None
      end
  end.

(** ** The tree builder (lines 181-294 of [main]) *)

Record builder : Type := mk_builder {
  conditionals : list conditional;
  stateStack : list cond_ptr
}.

Definition initial_builder : builder := mk_builder [] [].

(** The outcome of one directive, or of the whole build. *)
Inductive build_result : Type :=
| Continue (st : builder)
| Fatal (msg : string)     (* [std::wcout << L"ERROR: ..."; return -1;] *)
| Abort.                   (* a failed [assert], [back()] of an empty vector, a wild pointer *)

(** [emplace_back()] value-initialises the new conditional: its [int]
    members are zero.  So does [std::make_unique<conditional_block>()]: once
    [begin_line] and [condition] are assigned, a new block is
    [mk_block line 0 text []]. *)
Definition new_conditional : conditional := mk_conditional 0 0 [].

(** [v.back() = f(v.back())] *)
Definition alter_back {A : Type} (f : A -> A) (v : list A) : list A :=
  alter f (pred (length v)) v.

(** Lines 235-247: make room for the new conditional and push its address. *)
Definition push_conditional (st : builder) : option builder :=
  match last (stateStack st) with
  | None =>
      Some (mk_builder
              (conditionals st ++ [new_conditional])
              (stateStack st ++ [mk_ptr [] (length (conditionals st))]))
  | Some p =>
      match deref (conditionals st) p with
      | Some parent =>
          match last (blocks parent) with
          | Some currentBlock =>
              let j := pred (length (blocks parent)) in
              let k := length (nested_conditionals currentBlock) in
              let parent' :=
                with_blocks parent
                  (alter_back
                     (fun b => with_nested b (nested_conditionals b ++ [new_conditional]))
                     (blocks parent)) in
              Some (mk_builder
                      (store (conditionals st) p parent')
                      (stateStack st ++ [mk_ptr (ptr_path p ++ [(ptr_index p, j)]) k]))
          | None => None
          end
      | None => None
      end
  end.

(** Lines 249-254: [auto& cond = *stateStack.back();] and the first block. *)
Definition start_conditional (currentLineNumber : Z) (currentLine : string)
  (st : builder) : option builder :=
  match last (stateStack st) with
  | Some p =>
      match deref (conditionals st) p with
      | Some cond =>
          match blocks cond with
          | [] =>
              let cond' :=
                mk_conditional currentLineNumber (end_line cond)
                  [mk_block currentLineNumber 0 currentLine []] in
              Some (mk_builder (store (conditionals st) p cond') (stateStack st))
          | _ :: _ => None         (* assert(cond.blocks.empty()) *)
          end
      | None => None
      end
  | None => None
  end.

Definition set_block_end_line (line : Z) (b : conditional_block) : conditional_block :=
  mk_block (block_begin_line b) line (condition b) (nested_conditionals b).

(** Lines 264-270: close the last block, append the next one. *)
Definition next_block (currentLineNumber : Z) (currentLine : string)
  (cond : conditional) : option conditional :=
  match blocks cond with
  | [] => None                     (* assert(!cond.blocks.empty()) *)
  | _ :: _ =>
      Some (with_blocks cond
              (alter_back (set_block_end_line currentLineNumber) (blocks cond)
               ++ [mk_block currentLineNumber 0 currentLine []]))
  end.

(** Lines 281-284: set both end lines. *)
Definition close_conditional (currentLineNumber : Z) (cond : conditional)
  : option conditional :=
  match blocks cond with
  | [] => None                     (* assert(!cond.blocks.empty()) *)
  | _ :: _ =>
      Some (mk_conditional (begin_line cond) currentLineNumber
              (alter_back (set_block_end_line currentLineNumber) (blocks cond)))
  end.

(** [pop_back()] *)
Definition pop_back {A : Type} (v : list A) : list A := take (pred (length v)) v.

Definition is_if (d : string) : bool :=
  String.eqb d "if" || String.eqb d "ifdef" || String.eqb d "ifndef".
Definition is_else (d : string) : bool :=
  String.eqb d "else" || String.eqb d "elif".
Definition is_endif (d : string) : bool := String.eqb d "endif".

Definition msg_unmatched_else : string :=
  "ERROR: Encountered else outside of a conditional".
Definition msg_unmatched_endif : string :=
  "ERROR: Encountered '#endif' with no matching conditional".
Definition msg_unterminated : string :=
  "ERROR: Reached end of file with an active conditional block".

(** Lines 232-287: the dispatch on the directive. *)
Definition dispatch (st : builder) (currentLineNumber : Z) (currentLine directive : string)
  : build_result :=
  if is_if directive then
    match push_conditional st with
    | Some st1 =>
        match start_conditional currentLineNumber currentLine st1 with
        | Some st2 => Continue st2
        | None => Abort
        end
    | None => Abort
    end
  else if is_else directive then
    match last (stateStack st) with
    | None => Fatal msg_unmatched_else
    | Some p =>
        match deref (conditionals st) p with
        | Some cond =>
            match next_block currentLineNumber currentLine cond with
            | Some cond' =>
                Continue (mk_builder (store (conditionals st) p cond') (stateStack st))
            | None => Abort
            end
        | None => Abort
        end
    end
  else if is_endif directive then
    match last (stateStack st) with
    | None => Fatal msg_unmatched_endif
    | Some p =>
        match deref (conditionals st) p with
        | Some cond =>
            match close_conditional currentLineNumber cond with
            | Some cond' =>
                Continue (mk_builder (store (conditionals st) p cond')
                            (pop_back (stateStack st)))
            | None => Abort
            end
        | None => Abort
        end
    end
  else Continue st.

(** The body of the [for] loop after the logical line has been read. *)
Definition process_directive (st : builder) (currentLineNumber : Z) (currentLine : string)
  : build_result :=
  match directive_of currentLine with
  | None => Continue st
  | Some directive => dispatch st currentLineNumber currentLine directive
  end.

(** ** The line source: [std::ifstream] and [std::getline]

    The stream delivers the file cut at every ['\n']; the last piece is what
    follows the last ['\n'] (empty when the file ends with one, or is empty).
    A stream is the list of pieces not read yet: [std::getline] returns the
    head, and the stream stays [good()] exactly as long as a piece is left
    (reading the last piece meets the end of the file and sets [eofbit]). *)

Definition istream : Type := list string.

Fixpoint physical_lines (content : string) : list string :=
  match content with
  | EmptyString => [EmptyString]
  | String c rest =>
      if Ascii.eqb c newline then EmptyString :: physical_lines rest
      else
        match physical_lines rest with
        | l :: ls => String c l :: ls
        | [] => [String c EmptyString]
        end
  end.

(** Lines 191-198: the [while] that merges continuation lines.  Returns the
    logical line, [linesRead] and the stream that is left. *)
Fixpoint merge_continuations (currentLine : string) (linesRead : Z) (stream : istream)
  : string * Z * istream :=
  match stream with
  | next :: stream' =>
      if ends_with_backslash currentLine then
        merge_continuations
          (String.append (String.append currentLine (String newline EmptyString)) next)
          (linesRead + 1) stream'
      else (currentLine, linesRead, stream)
  | [] => (currentLine, linesRead, stream)
  end.

(** Lines 185-288: the [for] loop.  The inner [fix] is
    [merge_continuations], written in place so that the recursion on the
    stream is structural; [build_loop_cons] states the loop in terms of
    [merge_continuations]. *)
Fixpoint build_loop (st : builder) (currentLineNumber : Z) (stream : istream)
  {struct stream} : build_result :=
  match stream with
  | [] => Continue st                                   (* !stream.good() *)
  | first :: stream0 =>
      (fix merge (currentLine : string) (linesRead : Z) (stream : istream)
         {struct stream} : build_result :=
         let body (rest : istream) :=
           match process_directive st currentLineNumber currentLine with
           | Continue st' => build_loop st' (currentLineNumber + linesRead) rest
           | Fatal msg => Fatal msg
           | Abort => Abort
           end in
         match stream with
         | next :: stream' =>
             if ends_with_backslash currentLine then
               merge
                 (String.append (String.append currentLine (String newline EmptyString)) next)
                 (linesRead + 1) stream'
             else body stream
         | [] => body stream
         end) first 1 stream0
  end.

(** The build pass and the check after the loop (lines 290-294). *)
Definition build (stream : istream) : build_result :=
  match build_loop initial_builder 1 stream with
  | Continue st =>
      match stateStack st with
      | [] => Continue st
      | _ :: _ => Fatal msg_unterminated
      end
  | r => r
  end.

(** ** Argument parsing and [main] *)

Definition quote : string := String "034"%char EmptyString.
Definition apostrophe : string := String "039"%char EmptyString.

Definition msg_duplicate_path : string := "ERROR: Path specified more than once".
Definition msg_missing_path : string := "ERROR: Missing path".
Definition msg_no_path : string := "ERROR: Must specify file path".
Definition msg_no_lines : string := "ERROR: Must specify line number(s)".
Definition msg_invalid_line (arg : string) : string :=
  String.append "ERROR: Invalid line number " (String.append apostrophe (String.append arg apostrophe)).
Definition msg_unrecognized (arg : string) : string :=
  String.append "ERROR: Unrecognized argument " (String.append quote (String.append arg quote)).
Definition msg_open_failed (path : string) : string :=
  String.append "ERROR: Failed to open file " (String.append quote (String.append path quote)).

(** How a run ends: [return code] from [main] after the events, or a crash
    (a failed [assert]). *)
Inductive outcome : Type :=
| Exit (events : list event) (code : Z)
| Crash (events : list event).

Inductive parse_result : Type :=
| Parsed (filePath : string) (lines : list Z)
| Stop (events : list event) (code : Z).

Definition string_empty (s : string) : bool :=
  match s with EmptyString => true | String _ _ => false end.

(** [**begin == '-'] *)
Definition starts_with_dash (arg : string) : bool :=
  match arg with
  | String c _ => Ascii.eqb c dash
  | EmptyString => false
  end.

(** Lines 110-160: the loop over [argv + 1 .. argv + argc].  The inner [fix]
    is the [for] of the [--lines] branch; when it meets an argument that
    starts with ['-'] the outer loop looks at that argument again. *)
Fixpoint parse_args (filePath : string) (lines : list Z) (args : list string)
  {struct args} : parse_result :=
  match args with
  | [] => Parsed filePath lines
  | arg :: rest =>
      if String.eqb arg "--file" then
        if negb (string_empty filePath) then Stop [Error msg_duplicate_path; Usage] 1
        else
          match rest with
          | [] => Stop [Error msg_missing_path; Usage] 1
          | path :: rest' => parse_args path lines rest'
          end
      else if String.eqb arg "--lines" then
        (fix read_lines (lines : list Z) (rest : list string) {struct rest}
           : parse_result :=
           match rest with
           | [] => Parsed filePath lines                       (* begin == end *)
           | a :: rest' =>
               if starts_with_dash a then parse_args filePath lines rest
               else
                 let line := atoi a in
                 if line <=? 0 then Stop [Error (msg_invalid_line a); Usage] 1
                 else read_lines (lines ++ [line]) rest'
           end) lines rest
      else if String.eqb arg "--help" then Stop [Usage] 0
      else Stop [Error (msg_unrecognized arg); Usage] 1
  end.

(** The [for] of the [--lines] branch on its own. *)
Fixpoint read_lines (filePath : string) (lines : list Z) (rest : list string)
  : parse_result :=
  match rest with
  | [] => Parsed filePath lines
  | a :: rest' =>
      if starts_with_dash a then parse_args filePath lines rest
      else
        let line := atoi a in
        if line <=? 0 then Stop [Error (msg_invalid_line a); Usage] 1
        else read_lines filePath (lines ++ [line]) rest'
  end.

(** The files the program can open: [None] when [stream.fail()]. *)
Definition filesystem : Type := string -> option string.

(** Lines 296-301: one query per requested line. *)
Definition report (conditionals : list conditional) (lines : list Z) : list event :=
  flat_map (fun line => Header line :: process_line line conditionals ++ [Blank]) lines.

(** [int main(int argc, char** argv)]; [args] is [argv[1 .. argc-1]]. *)
Definition main (fs : filesystem) (args : list string) : outcome :=
  match parse_args EmptyString [] args with
  | Stop events code => Exit events code
  | Parsed filePath lines =>
      if string_empty filePath then Exit [Error msg_no_path; Usage] 1
      else
        match lines with
        | [] => Exit [Error msg_no_lines; Usage] 1
        | _ :: _ =>
            match fs filePath with
            | None => Exit [OpenFile filePath; Error (msg_open_failed filePath)] 1
            | Some content =>
                match build (physical_lines content) with
                | Fatal msg => Exit [OpenFile filePath; Error msg] (-1)
                | Abort => Crash [OpenFile filePath]
                | Continue st =>
                    Exit (OpenFile filePath :: report (conditionals st) lines) 0
                end
            end
        end
  end.

(** ** The text of the events *)

(** [%d] *)
Definition decimal (z : Z) : string := NilZero.string_of_int (Z.to_int z).

Fixpoint spaces (n : nat) : string :=
  match n with
  | O => EmptyString
  | S n' => String " " (spaces n')
  end.

(** [%4d]: right-aligned in a field of at least four characters. *)
Definition decimal4 (z : Z) : string :=
  let s := decimal z in
  String.append (spaces (4 - String.length s)) s.

Definition end_of_line : string := String newline EmptyString.

(** The text of [print_usage]. *)
Definition usage_text : string :=
  join_lines
    [""; "DESCRIPTION"; "";
     "    Calculates and displays the circumstances under which particular line";
     "    number(s) are present when compiling the specified source file with respect";
     "    to preprocessor definitions.";
     ""; "USAGE"; "";
     "    when_present.exe --lines <value>... --file <path>";
     ""; "ARGUMENTS"; "";
     "    lines";
     "        The line number(s) to calculate";
     "";
     "    file";
     "        Path to the file to read from";
     ""; ""]%string.

(** [%s] of [condition.c_str()]: the text up to its first NUL character. *)
Fixpoint c_str (s : string) : string :=
  match s with
  | EmptyString => EmptyString
  | String c s' => if Ascii.eqb c Ascii.zero then EmptyString else String c (c_str s')
  end.

(** What each event writes to the standard output. *)
Definition render (e : event) : string :=
  match e with
  | Usage => usage_text
  | Error msg => String.append msg end_of_line
  | OpenFile _ => EmptyString
  | Header line =>
      String.append "Requirements for line "
        (String.append (decimal line)
           (String.append " being included in the translation unit:" end_of_line))
  | Requires true line text =>
      String.append "REQUIRES TRUE ("
        (String.append (decimal4 line)
           (String.append "):  " (String.append (c_str text) end_of_line)))
  | Requires false line text =>
      String.append "REQUIRES FALSE ("
        (String.append (decimal4 line)
           (String.append "): " (String.append (c_str text) end_of_line)))
  | Blank => end_of_line
  end.

Definition output (events : list event) : string :=
  fold_right (fun e out => String.append (render e) out) EmptyString events.

(** Does the run open a file, or print a query result? *)
Definition is_open (e : event) : bool :=
  match e with OpenFile _ => true | _ => false end.
Definition is_query (e : event) : bool :=
  match e with Header _ | Requires _ _ _ | Blank => true | _ => false end.

(** The status a POSIX parent sees for [return code]. *)
Definition wait_status (code : Z) : Z := code mod 256.

(** The status a Windows parent sees for [return code]. *)
Definition windows_exit_code (code : Z) : Z := code mod 2 ^ 32.

(** * Specification vocabulary *)

(** ** Well-formed forests and traces *)

(** [wf_forest lo hi v]: the sibling conditionals [v] are finished, lie
    strictly between the lines [lo] and [hi], in source order and disjoint;
    [wf_blocks b e bs]: the blocks [bs] are the consecutive branches from
    line [b] to line [e], each holding a well-formed forest of its own. *)
Inductive wf_forest : Z -> Z -> list conditional -> Prop :=
| wf_forest_nil lo hi : wf_forest lo hi []
| wf_forest_cons lo hi b e bs v :
    lo < b -> bs <> [] -> wf_blocks b e bs -> e < hi -> wf_forest e hi v ->
    wf_forest lo hi (mk_conditional b e bs :: v)
with wf_blocks : Z -> Z -> list conditional_block -> Prop :=
| wf_blocks_nil b : wf_blocks b b []
| wf_blocks_cons b m e txt ns bs :
    b < m -> wf_forest b m ns -> wf_blocks m e bs ->
    wf_blocks b e (mk_block b m txt ns :: bs).

Scheme wf_forest_ind2 := Minimality for wf_forest Sort Prop
  with wf_blocks_ind2 := Minimality for wf_blocks Sort Prop.
Combined Scheme wf_mutind from wf_forest_ind2, wf_blocks_ind2.

(** The partition of a conditional by its blocks. *)
Definition partitioned (c : conditional) : Prop :=
  blocks c <> []
  /\ block_begin_line <$> head (blocks c) = Some (begin_line c)
  /\ block_end_line <$> last (blocks c) = Some (end_line c)
  /\ forall (i : nat) b1 b2,
       blocks c !! i = Some b1 -> blocks c !! S i = Some b2 ->
       block_end_line b1 = block_begin_line b2.

(** The events of a scan in which no block contains the line. *)
Definition all_false (bs : list conditional_block) : list event :=
  (fun b => Requires false (block_begin_line b) (condition b)) <$> bs.

Definition is_true_event (e : event) : bool :=
  match e with Requires true _ _ => true | _ => false end.

Definition event_line (e : event) : Z :=
  match e with Requires _ l _ | Header l => l | _ => 0 end.

(** The entries of a trace that name a block of [c] (by its first line). *)
Definition block_events (c : conditional) (trace : list event) : list event :=
  List.filter
    (fun ev => existsb (fun x => event_line ev =? block_begin_line x) (blocks c))
    trace.

(** ** The builder's invariant *)

(** The pointer [p], seen from one level further out: inside block [j] of
    conditional [i]. *)
Definition under (i j : nat) (p : cond_ptr) : cond_ptr :=
  mk_ptr ((i, j) :: ptr_path p) (ptr_index p).

(** The builder's invariant when line [n] is about to be processed: the
    forest [v] lies after line [lo], every recorded line is before [n], and
    [stack] points at the chain of open conditionals: the last conditional
    of [v], then the last conditional of its last block, and so on. *)
Inductive open_forest (n : Z) : Z -> list conditional -> list cond_ptr -> Prop :=
| open_none lo v : wf_forest lo n v -> lo < n -> open_forest n lo v []
| open_some lo v b e bs bb be txt ns stack :
    wf_forest lo b v -> lo < b ->
    wf_blocks b bb bs -> bb < n ->
    open_forest n bb ns stack ->
    open_forest n lo
      (v ++ [mk_conditional b e (bs ++ [mk_block bb be txt ns])])
      (mk_ptr [] (length v) :: (under (length v) (length bs) <$> stack)).

(** A builder working inside the last block of the last conditional. *)
Definition lift_builder (v : list conditional) (b e : Z) (bs : list conditional_block)
  (bb be : Z) (txt : string) (inner : builder) : builder :=
  mk_builder
    (v ++ [mk_conditional b e (bs ++ [mk_block bb be txt (conditionals inner)])])
    (mk_ptr [] (length v) :: (under (length v) (length bs) <$> stateStack inner)).

Definition lift_result (v : list conditional) (b e : Z) (bs : list conditional_block)
  (bb be : Z) (txt : string) (r : build_result) : build_result :=
  match r with
  | Continue st => Continue (lift_builder v b e bs bb be txt st)
  | Fatal msg => Fatal msg
  | Abort => Abort
  end.

(** What one directive must leave behind: the invariant for every later
    line, no [Fatal] while a conditional is open, and never an [Abort]. *)
Definition preserved (n lo : Z) (stack : list cond_ptr) (r : build_result) : Prop :=
  match r with
  | Continue st' =>
      forall n', n < n' -> open_forest n' lo (conditionals st') (stateStack st')
  | Fatal _ => stack = []
  | Abort => False
  end.

(** The block that the innermost open conditional ends with. *)
Definition top_block (st : builder) (blk : conditional_block) : Prop :=
  exists p c,
    last (stateStack st) = Some p
    /\ deref (conditionals st) p = Some c
    /\ last (blocks c) = Some blk.

(** ** The loop over the logical lines *)

(** How the [for] loop of the build goes on after one logical line. *)
Definition loop_body (k : builder -> build_result) (r : build_result) : build_result :=
  match r with
  | Continue st' => k st'
  | Fatal msg => Fatal msg
  | Abort => Abort
  end.

(** The states at the head of the [for] loop of the build of [stream]. *)
Inductive loop_reaches (stream : istream) : builder -> Z -> istream -> Prop :=
| reach_start : loop_reaches stream initial_builder 1 stream
| reach_next st n first stream0 line linesRead rest st' :
    loop_reaches stream st n (first :: stream0) ->
    merge_continuations first 1 stream0 = (line, linesRead, rest) ->
    process_directive st n line = Continue st' ->
    loop_reaches stream st' (n + linesRead) rest.

(** All lines of [group] but the last end with a backslash. *)
Fixpoint continued (group : list string) : bool :=
  match group with
  | l :: (_ :: _) as group' => ends_with_backslash l && continued group'
  | _ => true
  end.

(** The logical line [group] stops before [rest]: its last line does not end
    with a backslash, or the file ends with it. *)
Definition complete (group rest : list string) : bool :=
  match rest with
  | [] => true
  | _ :: _ =>
      match last group with
      | Some l => negb (ends_with_backslash l)
      | None => false
      end
  end.

(** A line without a newline character. *)
Fixpoint no_newline (s : string) : bool :=
  match s with
  | EmptyString => true
  | String c s' => negb (Ascii.eqb c newline) && no_newline s'
  end.

(** The number of the last line of the file: the piece after the last
    ['\n'] counts only when it is not empty. *)
Definition last_line (stream : istream) : Z :=
  match last stream with
  | Some EmptyString => Z.of_nat (length stream) - 1
  | _ => Z.of_nat (length stream)
  end.

(** What the [for] loop must leave behind. *)
Definition loop_ok (n lo : Z) (stream : istream) (r : build_result) : Prop :=
  match r with
  | Continue st' =>
      open_forest (n + last_line stream) lo (conditionals st') (stateStack st')
  | Fatal _ => True
  | Abort => False
  end.

(** ** The directive classifier, as the specification words it *)

(** The six keywords that shape the forest. *)
Inductive keyword : Type := KwIf | KwIfdef | KwIfndef | KwElif | KwElse | KwEndif.

Definition keyword_text (k : keyword) : string :=
  match k with
  | KwIf => "if" | KwIfdef => "ifdef" | KwIfndef => "ifndef"
  | KwElif => "elif" | KwElse => "else" | KwEndif => "endif"
  end.

Definition all_keywords : list keyword :=
  [KwIf; KwIfdef; KwIfndef; KwElif; KwElse; KwEndif].

Definition keyword_of (word : string) : option keyword :=
  find (fun k => String.eqb word (keyword_text k)) all_keywords.

Fixpoint skip_whitespace (s : string) : string :=
  match s with
  | String c s' => if string_mem c whitespace then skip_whitespace s' else s
  | EmptyString => EmptyString
  end.

Fixpoint alpha_prefix (s : string) : string :=
  match s with
  | String c s' => if isalpha c then String c (alpha_prefix s') else EmptyString
  | EmptyString => EmptyString
  end.

(** [None] is [NotDirective]. *)
Definition classify_spec (line : string) : option keyword :=
  match skip_whitespace line with
  | String c rest =>
      if Ascii.eqb c hash then keyword_of (alpha_prefix (skip_whitespace rest))
      else None
  | EmptyString => None
  end.

(** What the builder does for each keyword, by the specification. *)
Definition spec_step (st : builder) (line : Z) (text : string) (k : option keyword)
  : build_result :=
  match k with
  | None => Continue st
  | Some kw => dispatch st line text (keyword_text kw)
  end.

(** ** Logical lines, kinds of lines and the blocks of a forest *)

(** The logical lines the [for] loop of the build reads (lines 185-198):
    each with the value of [currentLineNumber] it is processed under.  As in
    [build_loop], the inner [fix] is the [while] of the continuation lines. *)
Fixpoint logical_lines (currentLineNumber : Z) (stream : istream) {struct stream}
  : list (Z * string) :=
  match stream with
  | [] => []
  | first :: stream0 =>
      (fix merge (currentLine : string) (linesRead : Z) (stream : istream)
         {struct stream} : list (Z * string) :=
         match stream with
         | next :: stream' =>
             if ends_with_backslash currentLine then
               merge
                 (String.append (String.append currentLine (String newline EmptyString)) next)
                 (linesRead + 1) stream'
             else
               (currentLineNumber, currentLine)
               :: logical_lines (currentLineNumber + linesRead) stream
         | [] =>
             (currentLineNumber, currentLine)
             :: logical_lines (currentLineNumber + linesRead) stream
         end) first 1 stream0
  end.

(** Lines 200-288 run over logical lines that were read beforehand. *)
Fixpoint run_lines (st : builder) (ls : list (Z * string)) : build_result :=
  match ls with
  | [] => Continue st
  | (n, text) :: ls' =>
      loop_body (fun st' => run_lines st' ls') (process_directive st n text)
  end.

(** Groups of physical lines, numbered by the physical line each begins at,
    each merged into one text. *)
Fixpoint numbered (n : Z) (groups : list (list string)) : list (Z * string) :=
  match groups with
  | [] => []
  | g :: gs => (n, join_lines g) :: numbered (n + Z.of_nat (length g)) gs
  end.

(** Every group is a maximal run of continued lines: not empty, all its
    lines but the last end with a backslash, and the last one does not
    unless the file ends there. *)
Fixpoint well_grouped (groups : list (list string)) : bool :=
  match groups with
  | [] => true
  | g :: gs =>
      match g with [] => false | _ :: _ => true end
      && continued g && complete g (concat gs) && well_grouped gs
  end.

(** The physical lines behind each logical line. *)
Definition line_groups (ls : list (Z * string)) : list (list string) :=
  (fun nl => physical_lines (snd nl)) <$> ls.

(** What a logical line does to the nesting, by the tests of lines 232,
    256 and 272. *)
Inductive line_kind : Type := Opens | Branches | Closes | Neutral.

Definition kind_of (text : string) : line_kind :=
  match directive_of text with
  | None => Neutral
  | Some d =>
      if is_if d then Opens
      else if is_else d then Branches
      else if is_endif d then Closes
      else Neutral
  end.

(** Bracket matching on the kinds of the lines, from nesting depth [depth]:
    the error of the first directive that has nothing to match, or the depth
    at the end. *)
Fixpoint check_nesting (depth : nat) (ls : list (Z * string)) : string + nat :=
  match ls with
  | [] => inr depth
  | (_, text) :: ls' =>
      match kind_of text, depth with
      | Opens, _ => check_nesting (S depth) ls'
      | Branches, O => inl msg_unmatched_else
      | Branches, S _ => check_nesting depth ls'
      | Closes, O => inl msg_unmatched_endif
      | Closes, S depth' => check_nesting depth' ls'
      | Neutral, _ => check_nesting depth ls'
      end
  end.

(** The error of a file, if any. *)
Definition nesting_error (ls : list (Z * string)) : option string :=
  match check_nesting 0 ls with
  | inl msg => Some msg
  | inr O => None
  | inr (S _) => Some msg_unterminated
  end.

(** What [check_nesting] says about the result of the loop. *)
Definition agrees (depth : nat) (ls : list (Z * string)) (r : build_result) : Prop :=
  match r with
  | Continue st' => check_nesting depth ls = inr (length (stateStack st'))
  | Fatal msg => check_nesting depth ls = inl msg
  | Abort => False
  end.

(** Every block of a forest, at any depth, in the order of the source: a
    block, the blocks nested in it, then its next sibling. *)
Fixpoint blocks_of (c : conditional) : list conditional_block :=
  flat_map (fun b => b :: flat_map blocks_of (nested_conditionals b)) (blocks c).

Definition all_blocks (v : list conditional) : list conditional_block :=
  flat_map blocks_of v.

(** The line and the text a block was opened with. *)
Definition branch_of (b : conditional_block) : Z * string :=
  (block_begin_line b, condition b).

Definition branches (v : list conditional) : list (Z * string) :=
  map branch_of (all_blocks v).

(** The lines that open a block: [#if], [#ifdef], [#ifndef], [#elif], [#else]. *)
Definition opens_block (text : string) : bool :=
  match kind_of text with
  | Opens | Branches => true
  | Closes | Neutral => false
  end.

(** Sibling conditionals in source order, each ending before the next begins. *)
Definition ordered (v : list conditional) : Prop :=
  forall (i j : nat) ci cj,
    v !! i = Some ci -> v !! j = Some cj -> (i < j)%nat ->
    end_line ci < begin_line cj.

(** The blocks of [bs] and of everything nested in them. *)
Definition blocks_under (bs : list conditional_block) : list conditional_block :=
  flat_map (fun b => b :: all_blocks (nested_conditionals b)) bs.

(** The entry the query prints for a block. *)
Definition entry_of (line : Z) (blk : conditional_block) : event :=
  Requires (in_block line blk) (block_begin_line blk) (condition blk).

(** A string of blanks, tabs and vertical tabs only. *)
Fixpoint all_whitespace (s : string) : bool :=
  match s with
  | EmptyString => true
  | String c s' => string_mem c whitespace && all_whitespace s'
  end.

Fixpoint all_alpha (s : string) : bool :=
  match s with
  | EmptyString => true
  | String c s' => isalpha c && all_alpha s'
  end.

(** A line that carries one of the six keywords. *)
Definition structural (text : string) : bool :=
  match kind_of text with
  | Neutral => false
  | Opens | Branches | Closes => true
  end.

(** Does [s] begin with a character that satisfies [p]? *)
Definition starts_with (p : ascii -> bool) (s : string) : bool :=
  match s with
  | String c _ => p c
  | EmptyString => false
  end.

Definition is_blank (c : ascii) : bool := string_mem c whitespace.

(** The first lines of the conditionals of a forest, parents before children. *)
Definition opening_lines (v : list conditional) : list Z :=
  map begin_line (all_conditionals v).

(** The conditionals nested in a list of blocks, at any depth. *)
Definition nested_of (bs : list conditional_block) : list conditional :=
  flat_map (fun b => all_conditionals (nested_conditionals b)) bs.

(** The last lines of the conditionals of a forest, in the same order as
    [opening_lines]. *)
Definition closing_lines (v : list conditional) : list Z :=
  map end_line (all_conditionals v).

Definition is_opening (text : string) : bool :=
  match kind_of text with Opens => true | _ => false end.

Definition is_closing (text : string) : bool :=
  match kind_of text with Closes => true | _ => false end.

(** The numbers of the logical lines selected by [p]. *)
Definition lines_where (p : string -> bool) (ls : list (Z * string)) : list Z :=
  map fst (List.filter (fun nl => p (snd nl)) ls).

(** The innermost open conditional. *)
Definition top_conditional (st : builder) (c : conditional) : Prop :=
  exists p,
    last (stateStack st) = Some p /\ deref (conditionals st) p = Some c.

(** What lines 283-284 make of the conditional an [#endif] closes. *)
Definition closed_at (line : Z) (cond : conditional) : conditional :=
  mk_conditional (begin_line cond) line
    (alter_back (set_block_end_line line) (blocks cond)).

(** The two orders of the command line: options first, or as the usage text
    writes it. *)
Definition command_line (path : string) (lines : list Z) (args : list string) : Prop :=
  args = "--file"%string :: path :: "--lines"%string :: map decimal lines
  \/ args = "--lines"%string :: map decimal lines ++ ["--file"%string; path].

(** ** Example inputs *)

(** The example of the specification: [#if A] / [x;] / [#else] / [y;] /
    [#endif], as the stream delivers it, and the forest it builds. *)
Definition example1 : istream := ["#if A"; "x;"; "#else"; "y;"; "#endif"]%string.

Definition example1_cond : conditional :=
  mk_conditional 1 5 [mk_block 1 3 "#if A" []; mk_block 3 5 "#else" []].

Definition example1_forest : list conditional := [example1_cond].

Definition example1_files : filesystem :=
  fun path => if String.eqb path "a.c" then Some (join_lines (example1 ++ [EmptyString])) else None.

Definition example4 : string := join_lines ["int x;"; "#endif"; "#if A"]%string.

Definition example4_files : filesystem :=
  fun path => if String.eqb path "b.c" then Some example4 else None.

Definition example7_first : string :=
  String.append "#if A " (String backslash EmptyString).

Definition example7_conts : list string := ["  && B"%string].

Definition example7_rest : istream := ["x;"%string; "#endif"%string].

Definition example7 : istream := (example7_first :: example7_conts) ++ example7_rest.

Definition example10 : istream :=
  ["#if A"; "#else"; "#elif B"; "#else"; "#endif"]%string.

(** [example10] after its first two lines: the open conditional ends with
    an [#else] block. *)
Definition example10_state : builder :=
  mk_builder
    [mk_conditional 1 0 [mk_block 1 2 "#if A" []; mk_block 2 0 "#else" []]]
    [mk_ptr [] 0].

Definition help_files : filesystem :=
  fun path => if String.eqb path "--help" then Some "int x;"%string else None.

Definition example2 : istream := ["#if A"; "#if B"; "#endif"; "#endif"]%string.

Definition example2_forest : list conditional :=
  [mk_conditional 1 4
     [mk_block 1 4 "#if A" [mk_conditional 2 3 [mk_block 2 3 "#if B" []]]]].

Definition example12 : istream :=
  ["#if A"; "#define X 1"; "#else"; ""; "#endif"; "int z;"]%string.

(** ** Proof steps *)

(** A vector with a last element is not empty: take the [_ :: _] branch of
    the [match] on it. *)
Ltac snoc_branch :=
  match goal with
  | |- context [match ?l ++ [?x] with [] => _ | _ :: _ => _ end] =>
      let E := fresh "E" in
      destruct (l ++ [x]) eqn:E; [now apply app_nil in E as [_ [=]] |];
      rewrite <- E; clear E
  end.

(** Settle the containment test of the query from the bounds at hand. *)
Ltac range_test b :=
  match goal with
  | |- context [in_conditional ?line ?c] =>
      replace (in_conditional line c) with b
        by (symmetry; unfold in_conditional;
            rewrite ?andb_true_iff, ?andb_false_iff; simpl; lia)
  | |- context [in_block ?line ?blk] =>
      replace (in_block line blk) with b
        by (symmetry; unfold in_block;
            rewrite ?andb_true_iff, ?andb_false_iff; simpl; lia)
  end.

Create Rewrite HintDb blocks_norm.

(** Bring the list of the branches of a forest that ends in an open
    conditional to the form [... ++ ...]. *)
Ltac branches_norm :=
  unfold branches, with_nested, with_blocks, set_block_end_line;
  cbn [block_begin_line block_end_line condition nested_conditionals
       begin_line end_line blocks];
  repeat (progress (autorewrite with blocks_norm;
          cbn [map nested_conditionals all_blocks flat_map blocks_of blocks app]));
  unfold branch_of; cbn [block_begin_line condition];
  rewrite <- ?app_assoc, ?app_nil_r; cbn [app].

Create Rewrite HintDb conds_norm.

(** Bring the list of the conditionals of a forest that ends in an open
    conditional to the form [... ++ ...]. *)
Ltac conds_norm :=
  unfold opening_lines, closing_lines, with_nested, with_blocks, set_block_end_line;
  cbn [block_begin_line block_end_line condition nested_conditionals
       begin_line end_line blocks];
  repeat (progress (autorewrite with conds_norm;
          cbn [map nested_conditionals begin_line end_line blocks app]));
  repeat (rewrite <- app_assoc; cbn [app]);
  rewrite ?app_nil_r.

(** One decimal digit of [read_digits]. *)
Ltac digit_step :=
  match goal with
  | |- context [isdigit ?c] => change (isdigit c) with true
  end;
  match goal with
  | |- context [Z.of_nat (nat_of_ascii ?c) - 48] =>
      let v := eval vm_compute in (Z.of_nat (nat_of_ascii c) - 48) in
      change (Z.of_nat (nat_of_ascii c) - 48) with v
  end;
  cbv iota.

(** * Properties *)

(** ** The loops, as the source writes them *)

(** The recursion of [process_line] is written on one conditional
    ([process_blocks]); these equations give the two loops of the source. *)
Lemma process_line_nested line (v : list conditional) :
  (fix process_line (conditionals : list conditional) : list event :=
     match conditionals with
     | [] => []
     | c :: rest =>
         if in_conditional line c then process_blocks line c
         else process_line rest
     end) v = process_line line v.
Proof. induction v as [|c v IH]; simpl; [reflexivity|]. now rewrite IH. Qed.

Lemma process_blocks_scan line cond :
  process_blocks line cond = scan_blocks line (blocks cond).
Proof.
  destruct cond as [b e bs]; simpl.
  induction bs as [|blk bs IH]; simpl; [reflexivity|].
  rewrite IH, process_line_nested. reflexivity.
Qed.

Lemma process_line_cons line cond rest :
  process_line line (cond :: rest) =
  if in_conditional line cond then scan_blocks line (blocks cond)
  else process_line line rest.
Proof. simpl. now rewrite process_blocks_scan. Qed.

(** The [for] loop of the build: read a logical line, process it, go on
    with the rest of the stream. *)
Lemma build_loop_merge st n (stream : istream) : forall currentLine linesRead,
  (fix merge (currentLine : string) (linesRead : Z) (stream : istream)
     {struct stream} : build_result :=
     let body (rest : istream) :=
       match process_directive st n currentLine with
       | Continue st' => build_loop st' (n + linesRead) rest
       | Fatal msg => Fatal msg
       | Abort => Abort
       end in
     match stream with
     | next :: stream' =>
         if ends_with_backslash currentLine then
           merge
             (String.append (String.append currentLine (String newline EmptyString)) next)
             (linesRead + 1) stream'
         else body stream
     | [] => body stream
     end) currentLine linesRead stream =
  let '(line, k, rest) := merge_continuations currentLine linesRead stream in
  loop_body (fun st' => build_loop st' (n + k) rest) (process_directive st n line).
Proof.
  induction stream as [|next stream IH]; intros cur k; simpl.
  - reflexivity.
  - destruct (ends_with_backslash cur); [apply IH | reflexivity].
Qed.

Lemma build_loop_cons st n first stream0 :
  build_loop st n (first :: stream0) =
  let '(line, k, rest) := merge_continuations first 1 stream0 in
  loop_body (fun st' => build_loop st' (n + k) rest) (process_directive st n line).
Proof. simpl. apply build_loop_merge. Qed.

(** The loop over the arguments, with the [--lines] loop as [read_lines]. *)
Lemma parse_args_read_lines filePath (rest : list string) : forall lines,
  (fix read_lines (lines : list Z) (rest : list string) {struct rest}
     : parse_result :=
     match rest with
     | [] => Parsed filePath lines
     | a :: rest' =>
         if starts_with_dash a then parse_args filePath lines rest
         else
           let line := atoi a in
           if line <=? 0 then Stop [Error (msg_invalid_line a); Usage] 1
           else read_lines (lines ++ [line]) rest'
     end) lines rest = read_lines filePath lines rest.
Proof.
  induction rest as [|a rest IH]; intros lines; [reflexivity|].
  cbn [read_lines]. destruct (starts_with_dash a); [reflexivity|].
  cbv zeta. destruct (atoi a <=? 0); [reflexivity | apply IH].
Qed.

Lemma parse_args_cons filePath lines arg rest :
  parse_args filePath lines (arg :: rest) =
  if String.eqb arg "--file" then
    if negb (string_empty filePath) then Stop [Error msg_duplicate_path; Usage] 1
    else
      match rest with
      | [] => Stop [Error msg_missing_path; Usage] 1
      | path :: rest' => parse_args path lines rest'
      end
  else if String.eqb arg "--lines" then read_lines filePath lines rest
  else if String.eqb arg "--help" then Stop [Usage] 0
  else Stop [Error (msg_unrecognized arg); Usage] 1.
Proof.
  cbn [parse_args]. rewrite parse_args_read_lines. reflexivity.
Qed.

(** ** The line source *)

Lemma string_append_assoc (a b c : string) :
  String.append (String.append a b) c = String.append a (String.append b c).
Proof. induction a as [|x a IH]; simpl; [reflexivity|]. now rewrite IH. Qed.

Lemma join_lines_cons a b l :
  join_lines (a :: b :: l) =
  String.append (String.append a (String newline EmptyString)) (join_lines (b :: l)).
Proof. reflexivity. Qed.

Lemma physical_lines_nonempty content : physical_lines content <> [].
Proof.
  destruct content as [|c rest]; simpl; [discriminate|].
  destruct (Ascii.eqb c newline); [discriminate|].
  now destruct (physical_lines rest).
Qed.

Lemma physical_lines_line l :
  no_newline l = true ->
  forall rest, physical_lines (String.append l rest)
               = match physical_lines rest with
                 | first :: ls => String.append l first :: ls
                 | [] => [l]
                 end.
Proof.
  induction l as [|c l IH]; intros Hl rest; simpl in *.
  - pose proof (physical_lines_nonempty rest).
    now destruct (physical_lines rest).
  - apply andb_true_iff in Hl as [Hc Hl]. apply negb_true_iff in Hc. rewrite Hc.
    rewrite (IH Hl). now destruct (physical_lines rest).
Qed.

Lemma string_append_empty s : String.append s EmptyString = s.
Proof. induction s as [|c s IH]; simpl; [reflexivity | now rewrite IH]. Qed.

(** The stream of a file is the list of its lines: cutting the text at the
    newlines gives back the lines that were joined by them. *)
Lemma physical_lines_join (ls : list string) :
  ls <> [] -> Forall (fun l => no_newline l = true) ls ->
  physical_lines (join_lines ls) = ls.
Proof.
  induction ls as [|l ls IH]; intros Hne Hall; [congruence|].
  apply Forall_cons in Hall as [Hl Hall].
  destruct ls as [|l' ls].
  - simpl. rewrite <- (string_append_empty l) at 1.
    rewrite (physical_lines_line l Hl). simpl. now rewrite string_append_empty.
  - rewrite join_lines_cons, string_append_assoc.
    rewrite (physical_lines_line l Hl). simpl String.append.
    cbn [physical_lines]. rewrite Ascii.eqb_refl.
    specialize (IH ltac:(discriminate) Hall). cbn [join_lines] in IH.
    now rewrite IH, string_append_empty.
Qed.

(** ** Well-formed forests *)

(** Chains of blocks run forward. *)
Lemma wf_blocks_le b e bs : wf_blocks b e bs -> b <= e.
Proof. induction 1; lia. Qed.

Lemma wf_blocks_lt b e bs : wf_blocks b e bs -> bs <> [] -> b < e.
Proof.
  destruct 1 as [|b m e txt ns bs Hlt _ Hbs]; [congruence|].
  intros _. apply wf_blocks_le in Hbs. lia.
Qed.

(** The bounds of a forest can be widened, and a finished conditional or
    block can be added at the end: this is how the builder grows them. *)
Lemma wf_forest_weaken lo hi v :
  wf_forest lo hi v -> forall lo' hi', lo' <= lo -> hi <= hi' -> wf_forest lo' hi' v.
Proof.
  induction 1 as [|lo hi b e bs v Hlo Hne Hbs Hhi Hv IH]; intros lo' hi' Hl Hh.
  - constructor.
  - constructor; try lia; try assumption. apply IH; lia.
Qed.

Lemma wf_forest_snoc lo mid v b e bs hi :
  wf_forest lo mid v -> mid <= b -> lo < b -> bs <> [] -> wf_blocks b e bs -> e < hi ->
  wf_forest lo hi (v ++ [mk_conditional b e bs]).
Proof.
  intros Hv. revert b.
  induction Hv as [|lo mid b0 e0 bs0 v Hlo Hne Hbs Hhi Hv IH]; intros b Hmid Hb Hbsne Hbs' He; simpl.
  - constructor; try assumption. constructor.
  - assert (b0 < e0) by (eapply wf_blocks_lt; eauto).
    constructor; try assumption.
    + apply wf_blocks_le in Hbs'. lia.
    + apply IH; try assumption; lia.
Qed.

Lemma wf_blocks_snoc b bb bs e txt ns :
  wf_blocks b bb bs -> bb < e -> wf_forest bb e ns ->
  wf_blocks b e (bs ++ [mk_block bb e txt ns]).
Proof.
  induction 1 as [|b m bb txt0 ns0 bs Hlt Hns Hbs IH]; intros He Hf; simpl.
  - constructor; [assumption..|constructor].
  - constructor; auto.
Qed.

Lemma open_forest_mono n lo v stack :
  open_forest n lo v stack -> forall n', n <= n' -> open_forest n' lo v stack.
Proof.
  induction 1 as [lo v Hv | lo v b e bs bb be txt ns stack Hv Hlo Hbs Hbb Hin IH]; intros n' Hn.
  - constructor; [|lia]. eapply wf_forest_weaken; eauto; lia.
  - constructor; auto; lia.
Qed.

(** ** Vectors and pointers *)

(** [back()], [pop_back()] and writes to the last element of a vector. *)
Lemma lookup_snoc_last {A} (l : list A) x : (l ++ [x]) !! length l = Some x.
Proof. rewrite lookup_app_r by lia. now rewrite Nat.sub_diag. Qed.

Lemma alter_snoc_last {A} (f : A -> A) (l : list A) x :
  alter f (length l) (l ++ [x]) = l ++ [f x].
Proof.
  replace (length l) with (length l + 0)%nat at 1 by lia.
  now rewrite alter_app_r.
Qed.

Lemma insert_snoc_last {A} (l : list A) x y :
  <[length l := y]> (l ++ [x]) = l ++ [y].
Proof.
  replace (length l) with (length l + 0)%nat at 1 by lia.
  now rewrite insert_app_r.
Qed.

Lemma alter_back_snoc {A} (f : A -> A) (l : list A) x :
  alter_back f (l ++ [x]) = l ++ [f x].
Proof.
  unfold alter_back. rewrite length_app. simpl.
  replace (pred (length l + 1)) with (length l) by lia.
  apply alter_snoc_last.
Qed.

Lemma pop_back_cons {A} (x : A) l : l <> [] -> pop_back (x :: l) = x :: pop_back l.
Proof.
  intros Hl. unfold pop_back. destruct l as [|y l]; [congruence|]. reflexivity.
Qed.

Lemma pop_back_fmap {A B} (f : A -> B) l : pop_back (f <$> l) = f <$> pop_back l.
Proof. unfold pop_back. now rewrite length_fmap, fmap_take. Qed.

(** Reading and writing through a pointer that enters the last block of
    the last conditional, or that points at the last conditional itself. *)
Lemma deref_under v b e bs blk p :
  deref (v ++ [mk_conditional b e (bs ++ [blk])]) (under (length v) (length bs) p)
  = deref (nested_conditionals blk) p.
Proof.
  unfold deref, under; simpl.
  rewrite lookup_snoc_last; simpl. now rewrite lookup_snoc_last.
Qed.

Lemma store_under v b e bs blk p c' :
  store (v ++ [mk_conditional b e (bs ++ [blk])]) (under (length v) (length bs) p) c'
  = v ++ [mk_conditional b e
            (bs ++ [with_nested blk (store (nested_conditionals blk) p c')])].
Proof.
  unfold store, under; simpl.
  rewrite alter_snoc_last. unfold with_blocks; simpl. now rewrite alter_snoc_last.
Qed.

Lemma deref_top v c : deref (v ++ [c]) (mk_ptr [] (length v)) = Some c.
Proof. unfold deref; simpl. apply lookup_snoc_last. Qed.

Lemma store_top v c c' : store (v ++ [c]) (mk_ptr [] (length v)) c' = v ++ [c'].
Proof. unfold store; simpl. apply insert_snoc_last. Qed.

Lemma last_lift_stack (p0 : cond_ptr) f (stack : list cond_ptr) :
  last (p0 :: (f <$> stack)) =
  match last stack with Some p => Some (f p) | None => Some p0 end.
Proof.
  rewrite last_cons, fmap_last. now destruct (last stack).
Qed.

Lemma last_is_Some {A} (l : list A) : l <> [] -> exists x, last l = Some x.
Proof.
  intros Hl. destruct (last l) eqn:E; [eauto|]. apply last_None in E. congruence.
Qed.

(** ** One directive *)

(** A directive met while an inner conditional is open acts inside the
    last block of the enclosing conditional, and leaves the rest alone. *)
Section Lifting.
Variables (v : list conditional) (b e : Z) (bs : list conditional_block).
Variables (bb be : Z) (txt : string).

Local Abbreviation lift := (lift_builder v b e bs bb be txt).
Local Abbreviation liftr := (lift_result v b e bs bb be txt).

Lemma push_conditional_lift inner :
  stateStack inner <> [] ->
  push_conditional (lift inner) = lift <$> push_conditional inner.
Proof.
  intros Hne. apply last_is_Some in Hne as [p Hp].
  unfold push_conditional, lift_builder; simpl.
  rewrite last_lift_stack, Hp, deref_under; simpl.
  destruct (deref (conditionals inner) p) as [parent|]; [|reflexivity].
  destruct (last (blocks parent)) as [cur|]; [|reflexivity].
  simpl. rewrite store_under; simpl.
  rewrite fmap_app. reflexivity.
Qed.

Lemma start_conditional_lift n text inner :
  stateStack inner <> [] ->
  start_conditional n text (lift inner) = lift <$> start_conditional n text inner.
Proof.
  intros Hne. apply last_is_Some in Hne as [p Hp].
  unfold start_conditional, lift_builder; simpl.
  rewrite last_lift_stack, Hp, deref_under; simpl.
  destruct (deref (conditionals inner) p) as [cond|]; [|reflexivity].
  destruct (blocks cond); [|reflexivity].
  simpl. rewrite store_under. reflexivity.
Qed.

Lemma push_conditional_stack st st' :
  push_conditional st = Some st' -> stateStack st' <> [].
Proof.
  unfold push_conditional.
  destruct (last (stateStack st)) as [p|].
  - destruct (deref (conditionals st) p) as [parent|]; [|discriminate].
    destruct (last (blocks parent)); [|discriminate].
    intros [= <-]; simpl. now destruct (stateStack st).
  - intros [= <-]; simpl. now destruct (stateStack st).
Qed.

Lemma dispatch_lift inner n text d :
  stateStack inner <> [] ->
  dispatch (lift inner) n text d = liftr (dispatch inner n text d).
Proof.
  intros Hne. unfold dispatch.
  destruct (is_if d).
  { rewrite push_conditional_lift by assumption.
    destruct (push_conditional inner) as [st1|] eqn:E1; simpl; [|reflexivity].
    rewrite start_conditional_lift by (eapply push_conditional_stack; eauto).
    destruct (start_conditional n text st1); reflexivity. }
  pose proof Hne as Hne'.
  apply last_is_Some in Hne as [p Hp].
  unfold lift_result, lift_builder; simpl.
  rewrite last_lift_stack, Hp, deref_under; simpl.
  destruct (is_else d).
  { destruct (deref (conditionals inner) p) as [cond|]; [|reflexivity].
    destruct (next_block n text cond); [|reflexivity].
    simpl. rewrite store_under. reflexivity. }
  destruct (is_endif d); [|reflexivity].
  destruct (deref (conditionals inner) p) as [cond|]; [|reflexivity].
  destruct (close_conditional n cond); [|reflexivity].
  simpl. rewrite store_under.
  rewrite pop_back_cons, pop_back_fmap; [reflexivity|].
  intros H. apply fmap_nil_inv in H. congruence.
Qed.
End Lifting.

(** Every directive keeps the invariant, fails only when no conditional is
    open, and never aborts: the [assert]s of the source hold and every
    pointer that is followed points into the forest. *)
Lemma dispatch_preserves n lo v stack :
  open_forest n lo v stack ->
  forall text d, preserved n lo stack (dispatch (mk_builder v stack) n text d).
Proof.
  induction 1 as [lo v Hv Hlo | lo v b e bs bb be txt ns stack Hv Hlo Hbs Hbb Hin IH];
    intros text d.
  - (* no conditional is open *)
    unfold dispatch, push_conditional, start_conditional; simpl.
    destruct (is_if d).
    { rewrite deref_top; simpl. rewrite store_top. intros n' Hn'.
      apply (open_some n' lo v n 0 [] n 0 text [] []); try lia; try assumption.
      - constructor.
      - constructor; [constructor | lia]. }
    destruct (is_else d); [reflexivity|].
    destruct (is_endif d); [reflexivity|].
    intros n' Hn'; simpl. constructor; [|lia].
    eapply wf_forest_weaken; eauto; lia.
  - destruct stack as [|p stack].
    + (* this conditional is the innermost open one *)
      inversion Hin as [? ? Hns Hlt|]; subst.
      unfold dispatch, push_conditional, start_conditional; simpl.
      rewrite deref_top; simpl.
      destruct (is_if d).
      { rewrite last_snoc; simpl. rewrite alter_back_snoc, store_top; simpl.
        rewrite length_app; simpl. replace (pred (length bs + 1)) with (length bs) by lia.
        change (mk_ptr [(length v, length bs)] (length ns))
          with (under (length v) (length bs) (mk_ptr [] (length ns))).
        unfold with_blocks, with_nested; simpl.
        rewrite deref_under; simpl. rewrite deref_top; simpl.
        rewrite store_under; simpl. rewrite store_top.
        intros n' Hn'.
        apply (open_some n' lo v b e bs bb be txt _ [mk_ptr [] (length ns)]);
          try assumption; try lia.
        apply (open_some n' bb ns n 0 [] n 0 text [] []); try assumption; try lia.
        - constructor.
        - constructor; [constructor | lia]. }
      destruct (is_else d).
      { unfold next_block; simpl.
        snoc_branch.
        rewrite alter_back_snoc, store_top; simpl. intros n' Hn'.
        apply (open_some n' lo v b e (bs ++ [mk_block bb n txt ns]) n 0 text [] []);
          try assumption; try lia.
        - now apply wf_blocks_snoc.
        - constructor; [constructor | lia]. }
      destruct (is_endif d).
      { unfold close_conditional; simpl.
        snoc_branch.
        rewrite alter_back_snoc, store_top; simpl. intros n' Hn'.
        constructor; [|apply wf_blocks_le in Hbs; lia].
        eapply wf_forest_snoc; eauto; try lia.
        - intros E. now apply app_nil in E as [_ [=]].
        - now apply wf_blocks_snoc. }
      intros n' Hn'; simpl.
      apply (open_some n' lo v b e bs bb be txt ns []); try assumption; try lia.
      constructor; [|lia]. eapply wf_forest_weaken; eauto; lia.
    + (* an inner conditional is open: the directive acts inside the last block *)
      change (mk_builder _ _)
        with (lift_builder v b e bs bb be txt (mk_builder ns (p :: stack))).
      rewrite dispatch_lift by (simpl; congruence).
      specialize (IH text d).
      destruct (dispatch (mk_builder ns (p :: stack)) n text d) as [st'| |]; simpl in *.
      * intros n' Hn'. constructor; auto; lia.
      * congruence.
      * assumption.
Qed.

(** [emplace_back] may move the elements of the vector it grows.  The
    pointers of the stack are not affected: the pointer at depth [i] has a
    path of [i] steps, while the vector that an [#if] grows is the forest
    itself when the stack is empty, and otherwise lies one step below the
    top of the stack. *)
Lemma stack_depths n lo v stack :
  open_forest n lo v stack ->
  forall (i : nat) p, stack !! i = Some p -> length (ptr_path p) = i.
Proof.
  induction 1 as [lo v Hv Hlo | lo v b e bs bb be txt ns stack Hv Hlo Hbs Hbb Hin IH];
    intros i p; [discriminate|].
  destruct i as [|i]; simpl.
  - now intros [= <-].
  - rewrite list_lookup_fmap. destruct (stack !! i) as [q|] eqn:E; [|discriminate].
    intros [= <-]. simpl. f_equal. now apply IH.
Qed.

Lemma process_directive_preserves n lo st line :
  open_forest n lo (conditionals st) (stateStack st) ->
  preserved n lo (stateStack st) (process_directive st n line)
  /\ (directive_of line = None -> process_directive st n line = Continue st).
Proof.
  intros Hinv. unfold process_directive.
  destruct (directive_of line) as [d|]; split; try discriminate; try reflexivity.
  - destruct st as [v stack]. now apply dispatch_preserves.
  - intros n' Hn'. eapply open_forest_mono; eauto; lia.
Qed.

(** ** The loop over the file *)

(** What the [while] of the line continuation reads. *)
Lemma join_lines_merge a b l :
  join_lines (String.append (String.append a (String newline EmptyString)) b :: l)
  = join_lines (a :: b :: l).
Proof.
  destruct l as [|c l]; [reflexivity|].
  rewrite (join_lines_cons a b), (join_lines_cons b c), (join_lines_cons _ c).
  now rewrite !string_append_assoc.
Qed.

Lemma merge_continuations_inv (stream : istream) :
  forall cur k line k' rest,
    merge_continuations cur k stream = (line, k', rest) ->
    exists taken,
      stream = taken ++ rest
      /\ k' = k + Z.of_nat (length taken)
      /\ line = join_lines (cur :: taken).
Proof.
  induction stream as [|next stream IH]; intros cur k line k' rest; simpl.
  - intros [= <- <- <-]. exists []. repeat split; simpl; lia.
  - destruct (ends_with_backslash cur).
    + intros H. apply IH in H as (taken & -> & -> & ->).
      exists (next :: taken). repeat split.
      * simpl length. lia.
      * apply join_lines_merge.
    + intros [= <- <- <-]. exists []. repeat split; simpl; lia.
Qed.

Lemma last_line_app (pre rest : istream) :
  rest <> [] -> last_line (pre ++ rest) = Z.of_nat (length pre) + last_line rest.
Proof.
  intros Hne. unfold last_line. rewrite last_app, length_app.
  destruct (last rest) as [l|] eqn:E.
  - destruct l; lia.
  - apply last_None in E. congruence.
Qed.

(** The loop keeps the invariant; at the end every recorded line is at most
    the last line of the file. *)
Lemma build_loop_invariant (m : nat) : forall stream st n lo,
  (length stream <= m)%nat ->
  open_forest n lo (conditionals st) (stateStack st) ->
  loop_ok n lo stream (build_loop st n stream).
Proof.
  induction m as [|m IH]; intros stream st n lo Hlen Hinv.
  - destruct stream; [|simpl in Hlen; lia]. simpl.
    rewrite Z.add_0_r. assumption.
  - destruct stream as [|first stream0].
    { simpl. rewrite Z.add_0_r. assumption. }
    rewrite build_loop_cons.
    destruct (merge_continuations first 1 stream0) as [[line k] rest] eqn:Em.
    apply merge_continuations_inv in Em as (taken & -> & -> & ->).
    destruct (process_directive_preserves n lo st (join_lines (first :: taken)) Hinv)
      as [Hp Hnone].
    destruct (process_directive st n (join_lines (first :: taken))) as [st1| |] eqn:Ep;
      simpl loop_body; simpl in Hp; [|exact I|assumption].
    destruct rest as [|r rest].
    + (* the last logical line of the file *)
      simpl. rewrite app_nil_r.
      destruct (directive_of (join_lines (first :: taken))) eqn:Ed.
      * apply Hp. unfold last_line.
        destruct taken as [|t taken].
        -- simpl in *. destruct first; [discriminate|]. lia.
        -- destruct (last (first :: t :: taken)) as [[|]|]; simpl length; lia.
      * specialize (Hnone eq_refl). injection Hnone as <-.
        eapply open_forest_mono; eauto.
        unfold last_line. destruct (last (first :: taken)) as [[|]|]; simpl length; lia.
    + assert (Hr : loop_ok (n + (1 + Z.of_nat (length taken))) lo (r :: rest)
                     (build_loop st1 (n + (1 + Z.of_nat (length taken))) (r :: rest))).
      { apply IH; [|apply Hp; lia].
        simpl in Hlen. rewrite length_app in Hlen. simpl in *. lia. }
      change (first :: taken ++ r :: rest) with ((first :: taken) ++ r :: rest).
      destruct (build_loop st1 _ (r :: rest)); unfold loop_ok in *; try assumption.
      rewrite last_line_app by discriminate.
      replace (n + (Z.of_nat (length (first :: taken)) + last_line (r :: rest)))
        with (n + (1 + Z.of_nat (length taken)) + last_line (r :: rest))
        by (simpl length; lia).
      assumption.
Qed.

(** The build ends with a forest or a structural error. *)
Lemma build_never_aborts stream : build stream <> Abort.
Proof.
  unfold build.
  pose proof (build_loop_invariant (length stream) stream initial_builder 1 0
                (le_n _)) as H.
  destruct (build_loop initial_builder 1 stream) as [st| |]; simpl in H.
  - destruct (stateStack st); discriminate.
  - discriminate.
  - exfalso. apply H. constructor; [constructor | lia].
Qed.

(** A forest that was built is well formed and ends by the last line. *)
Lemma build_wf stream st :
  build stream = Continue st ->
  stateStack st = [] /\ wf_forest 0 (1 + last_line stream) (conditionals st).
Proof.
  unfold build.
  pose proof (build_loop_invariant (length stream) stream initial_builder 1 0
                (le_n _)) as H.
  destruct (build_loop initial_builder 1 stream) as [st'| |]; simpl in H;
    try discriminate.
  destruct (stateStack st') eqn:Es; [|discriminate].
  intros [= <-]. split; [assumption|].
  assert (Hi : open_forest 1 0 [] []) by (constructor; [constructor | lia]).
  specialize (H Hi). now inversion H.
Qed.

(** ** The query on a well-formed forest *)

Lemma in_conditional_spec line c :
  in_conditional line c = true <-> begin_line c <= line <= end_line c.
Proof. unfold in_conditional. rewrite andb_true_iff. lia. Qed.

Lemma in_block_spec line blk :
  in_block line blk = true <-> block_begin_line blk <= line < block_end_line blk.
Proof. unfold in_block. rewrite andb_true_iff. lia. Qed.

Lemma in_conditional_false line c :
  in_conditional line c = false <-> line < begin_line c \/ end_line c < line.
Proof. unfold in_conditional. rewrite andb_false_iff. lia. Qed.

Lemma in_block_false line blk :
  in_block line blk = false <-> line < block_begin_line blk \/ block_end_line blk <= line.
Proof. unfold in_block. rewrite andb_false_iff. lia. Qed.

Lemma process_line_outside line v :
  (forall c, In c v -> in_conditional line c = false) -> process_line line v = [].
Proof.
  induction v as [|c v IH]; intros H; [reflexivity|].
  rewrite process_line_cons, (H c) by now left.
  apply IH. intros c' Hc'. apply H. now right.
Qed.

Lemma scan_blocks_outside line bs :
  (forall blk, In blk bs -> in_block line blk = false) ->
  scan_blocks line bs = all_false bs.
Proof.
  induction bs as [|blk bs IH]; intros H; [reflexivity|].
  simpl. rewrite (H blk) by now left.
  change (all_false (blk :: bs))
    with (Requires false (block_begin_line blk) (condition blk) :: all_false bs).
  f_equal. apply IH. intros b' Hb'. apply H. now right.
Qed.

Lemma scan_blocks_app line pre bs :
  (forall blk, In blk pre -> in_block line blk = false) ->
  scan_blocks line (pre ++ bs) = all_false pre ++ scan_blocks line bs.
Proof.
  induction pre as [|blk pre IH]; intros H; [reflexivity|].
  simpl. rewrite (H blk) by now left.
  change (all_false (blk :: pre))
    with (Requires false (block_begin_line blk) (condition blk) :: all_false pre).
  simpl. f_equal. apply IH. intros b' Hb'. apply H. now right.
Qed.

(** Where the blocks of a chain lie. *)
(** Where the blocks of a chain lie, and which of them holds a line. *)
Lemma wf_blocks_range b e bs :
  wf_blocks b e bs ->
  forall blk, In blk bs ->
    b <= block_begin_line blk /\ block_begin_line blk < block_end_line blk
    /\ block_end_line blk <= e
    /\ wf_forest (block_begin_line blk) (block_end_line blk) (nested_conditionals blk).
Proof.
  induction 1 as [|b m e txt ns bs Hlt Hns Hbs IH]; intros blk; [now intros []|].
  pose proof (wf_blocks_le _ _ _ Hbs).
  intros [<- | Hin]; simpl; [repeat split; try lia; assumption|].
  destruct (IH blk Hin) as (? & ? & ? & ?). repeat split; try lia; assumption.
Qed.

Lemma wf_blocks_split b e bs line :
  wf_blocks b e bs -> b <= line < e ->
  exists pre blk post,
    bs = pre ++ blk :: post
    /\ in_block line blk = true
    /\ (forall x, In x pre -> block_end_line x <= block_begin_line blk)
    /\ (forall x, In x post -> block_end_line blk <= block_begin_line x).
Proof.
  induction 1 as [|b m e txt ns bs Hlt Hns Hbs IH]; intros Hline; [lia|].
  destruct (Z_lt_le_dec line m) as [Hm | Hm].
  - exists [], (mk_block b m txt ns), bs. repeat split.
    + apply in_block_spec; simpl; lia.
    + now intros x [].
    + intros x Hx. apply (wf_blocks_range _ _ _ Hbs) in Hx. simpl. lia.
  - destruct IH as (pre & blk & post & -> & Hin & Hpre & Hpost); [lia|].
    exists (mk_block b m txt ns :: pre), blk, post. repeat split; try assumption.
    intros x [<- | Hx]; [|now apply Hpre].
    simpl. pose proof (wf_blocks_range _ _ _ Hbs blk) as Hr.
    destruct Hr as (? & _); [apply in_or_app; right; now left | lia].
Qed.

(** A chain is a partition. *)
Lemma wf_blocks_chain b e bs :
  wf_blocks b e bs ->
  (forall x, last bs = Some x -> block_end_line x = e)
  /\ (forall (i : nat) b1 b2,
        bs !! i = Some b1 -> bs !! S i = Some b2 ->
        block_end_line b1 = block_begin_line b2).
Proof.
  induction 1 as [|b m e txt ns bs Hlt Hns Hbs [Hlast Hchain]].
  - split; [discriminate | intros i b1 b2; discriminate].
  - split.
    + intros x. rewrite last_cons. destruct (last bs) as [y|] eqn:E.
      * intros [= <-]. now apply Hlast.
      * apply last_None in E; subst bs. intros [= <-]. now inversion Hbs.
    + intros [|i] b1 b2; simpl; [|apply Hchain].
      intros [= <-] H2. destruct Hbs; [discriminate|]. now injection H2 as <-.
Qed.

Lemma wf_blocks_partitioned b e bs :
  wf_blocks b e bs -> bs <> [] -> partitioned (mk_conditional b e bs).
Proof.
  intros Hbs Hne. destruct (wf_blocks_chain _ _ _ Hbs) as [Hlast Hchain].
  unfold partitioned; simpl. repeat split; try assumption.
  - now destruct Hbs.
  - destruct (last bs) as [x|] eqn:E; [simpl; f_equal; now apply Hlast|].
    apply last_None in E. congruence.
Qed.

Lemma all_conditionals_cons b e bs v c :
  In c (all_conditionals (mk_conditional b e bs :: v)) <->
  c = mk_conditional b e bs
  \/ (exists blk, In blk bs /\ In c (all_conditionals (nested_conditionals blk)))
  \/ In c (all_conditionals v).
Proof.
  unfold all_conditionals; simpl. rewrite in_app_iff, in_flat_map.
  split.
  - intros [<- | [(blk & ? & ?) | ?]]; eauto.
  - intros [-> | [(blk & ? & ?) | ?]]; eauto.
Qed.

(** Every conditional of a well-formed forest lies strictly inside the
    bounds of its forest, and its blocks form a chain. *)
Lemma wf_conditionals_range :
  (forall lo hi v, wf_forest lo hi v ->
     forall c, In c (all_conditionals v) ->
       lo < begin_line c /\ end_line c < hi /\ blocks c <> []
       /\ wf_blocks (begin_line c) (end_line c) (blocks c))
  /\ (forall b e bs, wf_blocks b e bs ->
        forall blk c, In blk bs -> In c (all_conditionals (nested_conditionals blk)) ->
          block_begin_line blk < begin_line c /\ end_line c < block_end_line blk
          /\ blocks c <> []
          /\ wf_blocks (begin_line c) (end_line c) (blocks c)).
Proof.
  apply wf_mutind.
  - intros lo hi c [].
  - intros lo hi b e bs v Hlo Hne Hbs IHbs Hhi Hv IHv c Hc.
    pose proof (wf_blocks_le _ _ _ Hbs).
    apply all_conditionals_cons in Hc as [-> | [(blk & Hblk & Hc) | Hc]].
    + simpl. repeat split; try assumption; lia.
    + destruct (IHbs blk c Hblk Hc) as (? & ? & ? & ?).
      destruct (wf_blocks_range _ _ _ Hbs blk Hblk) as (? & ? & ? & _).
      repeat split; try assumption; lia.
    + destruct (IHv c Hc) as (? & ? & ? & ?). repeat split; try assumption; lia.
  - intros b blk c [].
  - intros b m e txt ns bs Hlt Hns IHns Hbs IHbs blk c [<- | Hblk] Hc; simpl in *.
    + apply IHns in Hc. assumption.
    + now apply IHbs.
Qed.

(** Every event of a query names a line strictly inside the bounds of the
    forest it was run on. *)
Lemma query_event_lines :
  (forall lo hi v, wf_forest lo hi v ->
     forall line ev, In ev (process_line line v) -> lo < event_line ev < hi)
  /\ (forall b e bs, wf_blocks b e bs ->
        forall line ev, In ev (scan_blocks line bs) -> b <= event_line ev < e).
Proof.
  apply wf_mutind.
  - intros lo hi line ev [].
  - intros lo hi b e bs v Hlo Hne Hbs IHbs Hhi Hv IHv line ev.
    pose proof (wf_blocks_le _ _ _ Hbs).
    rewrite process_line_cons; simpl.
    destruct (in_conditional line _); intros Hev.
    + apply IHbs in Hev. lia.
    + apply IHv in Hev. lia.
  - intros b line ev [].
  - intros b m e txt ns bs Hlt Hns IHns Hbs IHbs line ev; simpl.
    pose proof (wf_blocks_le _ _ _ Hbs).
    destruct (in_block line _); intros [<- | Hev]; simpl; try lia.
    + apply IHns in Hev. lia.
    + apply IHbs in Hev. lia.
Qed.

(** The query reaches every conditional whose range contains the line: its
    trace ends with the scan of that conditional's blocks, after events of
    earlier lines only. *)
Lemma query_reaches :
  (forall lo hi v, wf_forest lo hi v ->
     forall c line, In c (all_conditionals v) ->
       begin_line c <= line <= end_line c ->
       exists prefix,
         process_line line v = prefix ++ scan_blocks line (blocks c)
         /\ forall ev, In ev prefix -> event_line ev < begin_line c)
  /\ (forall b e bs, wf_blocks b e bs ->
        forall blk c line, In blk bs ->
          In c (all_conditionals (nested_conditionals blk)) ->
          begin_line c <= line <= end_line c ->
          exists prefix,
            scan_blocks line bs = prefix ++ scan_blocks line (blocks c)
            /\ forall ev, In ev prefix -> event_line ev < begin_line c).
Proof.
  apply wf_mutind.
  - intros lo hi c line [].
  - intros lo hi b e bs v Hlo Hne Hbs IHbs Hhi Hv IHv c line Hc Hline.
    rewrite process_line_cons.
    apply all_conditionals_cons in Hc as [-> | [(blk & Hblk & Hc) | Hc]].
    + simpl in *. range_test true.
      exists []. split; [reflexivity | now intros ev []].
    + destruct (proj2 wf_conditionals_range _ _ _ Hbs blk c Hblk Hc) as (? & ? & _).
      destruct (wf_blocks_range _ _ _ Hbs blk Hblk) as (? & ? & ? & _).
      range_test true.
      simpl. eapply IHbs; eauto.
    + destruct (proj1 wf_conditionals_range _ _ _ Hv c Hc) as (? & ? & _).
      range_test false.
      now apply IHv.
  - intros b blk c line [].
  - intros b m e txt ns bs Hlt Hns IHns Hbs IHbs blk c line [<- | Hblk] Hc Hline.
    + simpl in Hc.
      destruct (proj1 wf_conditionals_range _ _ _ Hns c Hc) as (? & ? & _).
      simpl. range_test true.
      destruct (IHns c line Hc Hline) as (prefix & -> & Hp).
      exists (Requires true b txt :: prefix). split; [reflexivity|].
      intros ev [<- | Hev]; [simpl; lia | now apply Hp].
    + destruct (proj2 wf_conditionals_range _ _ _ Hbs blk c Hblk Hc) as (? & ? & _).
      destruct (wf_blocks_range _ _ _ Hbs blk Hblk) as (? & ? & ? & _).
      simpl. range_test false.
      destruct (IHbs blk c line Hblk Hc Hline) as (prefix & -> & Hp).
      exists (Requires false b txt :: prefix). split; [reflexivity|].
      intros ev [<- | Hev]; [simpl; lia | now apply Hp].
Qed.

Lemma built_wf stream st c :
  build stream = Continue st -> In c (all_conditionals (conditionals st)) ->
  wf_forest 0 (1 + last_line stream) (conditionals st)
  /\ blocks c <> []
  /\ wf_blocks (begin_line c) (end_line c) (blocks c).
Proof.
  intros Hb Hc. apply build_wf in Hb as [_ Hwf]. split; [assumption|].
  now destruct (proj1 wf_conditionals_range _ _ _ Hwf c Hc) as (_ & _ & ? & ?).
Qed.

(** C3: in a forest that was built to the end of the input with no
    conditional left open, the blocks of every conditional, at any depth, are
    not empty, start at the conditional's first line, end at its last line,
    and each block ends where the next begins; every block is a non-empty
    range of lines. *)
Theorem partition_invariant (stream : istream) (st : builder) :
  build stream = Continue st ->
  stateStack st = []
  /\ forall c, In c (all_conditionals (conditionals st)) ->
       partitioned c
       /\ forall blk, In blk (blocks c) -> block_begin_line blk < block_end_line blk.
Proof.
  intros Hb. split; [now apply build_wf in Hb|].
  intros c Hc. destruct (built_wf _ _ _ Hb Hc) as (_ & Hne & Hbs). split.
  - destruct c as [b e bs]. now apply wf_blocks_partitioned.
  - intros blk Hblk. now destruct (wf_blocks_range _ _ _ Hbs blk Hblk) as (_ & ? & _).
Qed.

Lemma partition_invariant_witness :
  build example1 = Continue (mk_builder example1_forest [])
  /\ forall c, In c (all_conditionals example1_forest) ->
       partitioned c
       /\ forall blk, In blk (blocks c) -> block_begin_line blk < block_end_line blk.
Proof.
  split; [reflexivity|].
  apply (partition_invariant example1 (mk_builder example1_forest [])). reflexivity.
Defined.

Lemma all_false_no_true bs :
  Forall (fun ev => is_true_event ev = false) (all_false bs).
Proof. induction bs; constructor; [reflexivity | assumption]. Qed.

(** C2: when the target line is the [#endif] line of a conditional of a
    built forest, the conditional contains the line, none of its blocks does,
    and the query's trace ends with one FALSE entry per block of that
    conditional: no TRUE entry, nothing from nested conditionals. *)
Theorem endif_line_all_false (stream : istream) (st : builder) (c : conditional) :
  build stream = Continue st ->
  In c (all_conditionals (conditionals st)) ->
  in_conditional (end_line c) c = true
  /\ (forall blk, In blk (blocks c) -> in_block (end_line c) blk = false)
  /\ scan_blocks (end_line c) (blocks c) = all_false (blocks c)
  /\ Forall (fun ev => is_true_event ev = false) (all_false (blocks c))
  /\ exists prefix,
       process_line (end_line c) (conditionals st) = prefix ++ all_false (blocks c)
       /\ forall ev, In ev prefix -> event_line ev < begin_line c.
Proof.
  intros Hb Hc. destruct (built_wf _ _ _ Hb Hc) as (Hwf & Hne & Hbs).
  pose proof (wf_blocks_le _ _ _ Hbs) as Hle.
  assert (Hout : forall blk, In blk (blocks c) -> in_block (end_line c) blk = false).
  { intros blk Hblk. apply in_block_false.
    destruct (wf_blocks_range _ _ _ Hbs blk Hblk) as (_ & _ & ? & _). lia. }
  split; [apply in_conditional_spec; lia|].
  split; [assumption|].
  split; [now apply scan_blocks_outside|].
  split; [apply all_false_no_true|].
  destruct (proj1 query_reaches _ _ _ Hwf c (end_line c) Hc) as (prefix & Hq & Hp);
    [lia|].
  exists prefix. split; [|assumption].
  now rewrite Hq, scan_blocks_outside.
Qed.

Lemma endif_line_all_false_witness :
  build example1 = Continue (mk_builder example1_forest [])
  /\ In example1_cond (all_conditionals example1_forest)
  /\ exists prefix,
       process_line 5 example1_forest = prefix ++ all_false (blocks example1_cond)
       /\ forall ev, In ev prefix -> event_line ev < 1.
Proof.
  split; [reflexivity|]. split; [now left|].
  refine (proj2 (proj2 (proj2 (proj2
    (endif_line_all_false example1 (mk_builder example1_forest []) example1_cond _ _))))).
  - reflexivity.
  - now left.
Defined.

(** The entries of a trace that name a given block. *)
Lemma filter_none {A} (f : A -> bool) (l : list A) :
  (forall x, In x l -> f x = false) -> List.filter f l = [].
Proof.
  induction l as [|x l IH]; intros H; [reflexivity|].
  simpl. rewrite (H x) by now left. apply IH. intros y Hy. apply H. now right.
Qed.

Lemma filter_all {A} (f : A -> bool) (l : list A) :
  (forall x, In x l -> f x = true) -> List.filter f l = l.
Proof.
  induction l as [|x l IH]; intros H; [reflexivity|].
  simpl. rewrite (H x) by now left. f_equal. apply IH. intros y Hy. apply H. now right.
Qed.

Lemma in_all_false ev bs :
  In ev (all_false bs) ->
  exists blk, In blk bs /\ ev = Requires false (block_begin_line blk) (condition blk).
Proof.
  induction bs as [|blk bs IH]; [intros []|].
  intros [<- | Hev]; [exists blk; split; [now left | reflexivity]|].
  destruct (IH Hev) as (x & ? & ?). exists x. split; [now right | assumption].
Qed.

Lemma names_block_true (c : conditional) ev blk :
  In blk (blocks c) -> event_line ev = block_begin_line blk ->
  existsb (fun x => event_line ev =? block_begin_line x) (blocks c) = true.
Proof.
  intros Hblk Heq. apply existsb_exists. exists blk. split; [assumption|].
  now apply Z.eqb_eq.
Qed.

Lemma names_block_false (c : conditional) ev :
  (forall blk, In blk (blocks c) -> event_line ev <> block_begin_line blk) ->
  existsb (fun x => event_line ev =? block_begin_line x) (blocks c) = false.
Proof.
  intros H. destruct (existsb _ _) eqn:E; [|reflexivity].
  apply existsb_exists in E as (blk & Hblk & Heq). apply Z.eqb_eq in Heq.
  now destruct (H blk Hblk).
Qed.

(** C4: for a line inside the inclusive range of a conditional of a built
    forest, the query's trace ends with the scan of that conditional's
    blocks.  On the [#endif] line the scan is one FALSE entry per block.
    Otherwise the blocks split into those before the containing block, that
    block, and those after it; the scan is one FALSE entry for each block
    before, one TRUE entry for the containing block, then the trace of the
    conditionals nested in it; and the entries of the whole trace that name a
    block of this conditional are exactly those FALSE entries and that single
    TRUE entry, so no later block is emitted. *)
Theorem mutual_exclusivity (stream : istream) (st : builder) (c : conditional) (line : Z) :
  build stream = Continue st ->
  In c (all_conditionals (conditionals st)) ->
  begin_line c <= line <= end_line c ->
  exists prefix,
    process_line line (conditionals st) = prefix ++ scan_blocks line (blocks c)
    /\ ((line = end_line c
         /\ scan_blocks line (blocks c) = all_false (blocks c)
         /\ block_events c (process_line line (conditionals st)) = all_false (blocks c))
        \/ (line < end_line c
            /\ exists pre blk post,
                 blocks c = pre ++ blk :: post
                 /\ in_block line blk = true
                 /\ scan_blocks line (blocks c)
                    = all_false pre
                      ++ Requires true (block_begin_line blk) (condition blk)
                         :: process_line line (nested_conditionals blk)
                 /\ block_events c (process_line line (conditionals st))
                    = all_false pre
                      ++ [Requires true (block_begin_line blk) (condition blk)])).
Proof.
  intros Hb Hc Hline. destruct (built_wf _ _ _ Hb Hc) as (Hwf & Hne & Hbs).
  destruct (proj1 query_reaches _ _ _ Hwf c line Hc Hline) as (prefix & Hq & Hp).
  exists prefix. split; [assumption|].
  assert (Hprefix : block_events c prefix = []).
  { apply filter_none. intros ev Hev. apply names_block_false.
    intros blk Hblk. specialize (Hp ev Hev).
    destruct (wf_blocks_range _ _ _ Hbs blk Hblk) as (? & _). lia. }
  assert (Hfalse : forall bs, (forall x, In x bs -> In x (blocks c)) ->
                     block_events c (all_false bs) = all_false bs).
  { intros bs Hsub. apply filter_all. intros ev Hev.
    apply in_all_false in Hev as (blk & Hblk & ->).
    apply (names_block_true c _ blk); [now apply Hsub | reflexivity]. }
  rewrite Hq. unfold block_events in *. rewrite List.filter_app, Hprefix. simpl.
  destruct (Z.eq_dec line (end_line c)) as [-> | Hneq].
  - left. split; [reflexivity|].
    assert (Hs : scan_blocks (end_line c) (blocks c) = all_false (blocks c)).
    { apply scan_blocks_outside. intros blk Hblk. apply in_block_false.
      destruct (wf_blocks_range _ _ _ Hbs blk Hblk) as (_ & _ & ? & _). lia. }
    split; [assumption|]. rewrite Hs. now apply Hfalse.
  - right. split; [lia|].
    destruct (wf_blocks_split _ _ _ line Hbs) as (pre & blk & post & E & Hin & Hpre & Hpost);
      [lia|].
    exists pre, blk, post. split; [assumption|]. split; [assumption|].
    assert (Hs : scan_blocks line (blocks c)
                 = all_false pre
                   ++ Requires true (block_begin_line blk) (condition blk)
                      :: process_line line (nested_conditionals blk)).
    { rewrite E, scan_blocks_app; [simpl; now rewrite Hin|].
      intros x Hx. apply in_block_false. right.
      apply in_block_spec in Hin. specialize (Hpre x Hx). lia. }
    split; [assumption|]. rewrite Hs, List.filter_app.
    assert (Hblk : In blk (blocks c)) by (rewrite E; apply in_or_app; right; now left).
    destruct (wf_blocks_range _ _ _ Hbs blk Hblk) as (_ & Hlt & _ & Hnested).
    f_equal.
    + apply Hfalse. intros x Hx. rewrite E. apply in_or_app. now left.
    + cbn [List.filter].
      rewrite (names_block_true c (Requires true (block_begin_line blk) (condition blk))
                 blk Hblk eq_refl).
      f_equal.
      apply filter_none. intros ev Hev. apply names_block_false.
      intros x Hx. apply (proj1 query_event_lines _ _ _ Hnested) in Hev.
      rewrite E in Hx. apply in_app_or in Hx as [Hx | [<- | Hx]].
      * specialize (Hpre x Hx).
        assert (In x (blocks c)) as Hxc by (rewrite E; apply in_or_app; now left).
        destruct (wf_blocks_range _ _ _ Hbs x Hxc) as (_ & ? & _). lia.
      * lia.
      * specialize (Hpost x Hx). lia.
Qed.

Lemma mutual_exclusivity_witness :
  build example1 = Continue (mk_builder example1_forest [])
  /\ In example1_cond (all_conditionals example1_forest)
  /\ begin_line example1_cond <= 4 <= end_line example1_cond
  /\ exists prefix,
       process_line 4 example1_forest = prefix ++ scan_blocks 4 (blocks example1_cond)
       /\ ((4 = end_line example1_cond
            /\ scan_blocks 4 (blocks example1_cond) = all_false (blocks example1_cond)
            /\ block_events example1_cond (process_line 4 example1_forest)
               = all_false (blocks example1_cond))
           \/ (4 < end_line example1_cond
               /\ exists pre blk post,
                    blocks example1_cond = pre ++ blk :: post
                    /\ in_block 4 blk = true
                    /\ scan_blocks 4 (blocks example1_cond)
                       = all_false pre
                         ++ Requires true (block_begin_line blk) (condition blk)
                            :: process_line 4 (nested_conditionals blk)
                    /\ block_events example1_cond (process_line 4 example1_forest)
                       = all_false pre
                         ++ [Requires true (block_begin_line blk) (condition blk)])).
Proof.
  split; [reflexivity|]. split; [now left|]. split; [simpl; lia|].
  apply (mutual_exclusivity example1 (mk_builder example1_forest []) example1_cond 4).
  - reflexivity.
  - now left.
  - simpl; lia.
Defined.

(** ** The run of the program *)

(** C1: for the five lines [#if A], [x;], [#else], [y;], [#endif] the build
    yields one conditional with the blocks 1-3 and 3-5, and the query for
    line 4 yields exactly FALSE for line 1 with text [#if A], then TRUE for
    line 3 with text [#else]; the whole program prints just that. *)
Theorem example1_line4 :
  physical_lines (join_lines example1) = example1
  /\ build example1 = Continue (mk_builder example1_forest [])
  /\ build (example1 ++ [EmptyString]) = Continue (mk_builder example1_forest [])
  /\ process_line 4 example1_forest
     = [Requires false 1 "#if A"; Requires true 3 "#else"]
  /\ main example1_files ["--file"; "a.c"; "--lines"; "4"]%string
     = Exit [OpenFile "a.c"; Header 4;
             Requires false 1 "#if A"; Requires true 3 "#else"; Blank] 0.
Proof. repeat split; vm_compute; reflexivity. Qed.

(** A condition text is printed up to its first NUL character. *)
Example render_stops_at_nul :
  render (Requires true 1 (String "a" (String Ascii.zero (String "b" EmptyString))))
  = String.append "REQUIRES TRUE (   1):  a" end_of_line.
Proof. reflexivity. Qed.

(** What the program writes for line 4 of the example. *)
Example example1_output :
  output (report example1_forest [4])
  = join_lines
      ["Requirements for line 4 being included in the translation unit:";
       "REQUIRES FALSE (   1): #if A";
       "REQUIRES TRUE (   3):  #else";
       ""; ""]%string.
Proof. vm_compute. reflexivity. Qed.

(** [main] after the arguments are accepted and the file is open. *)
Lemma main_built fs args filePath lines content st :
  parse_args EmptyString [] args = Parsed filePath lines ->
  string_empty filePath = false -> lines <> [] ->
  fs filePath = Some content ->
  build (physical_lines content) = Continue st ->
  main fs args = Exit (OpenFile filePath :: report (conditionals st) lines) 0.
Proof.
  intros Hp Hf Hl Hfs Hb. unfold main. rewrite Hp, Hf, Hfs, Hb.
  destruct lines; [congruence | reflexivity].
Qed.

Lemma main_build_failed fs args filePath lines content msg :
  parse_args EmptyString [] args = Parsed filePath lines ->
  string_empty filePath = false -> lines <> [] ->
  fs filePath = Some content ->
  build (physical_lines content) = Fatal msg ->
  main fs args = Exit [OpenFile filePath; Error msg] (-1).
Proof.
  intros Hp Hf Hl Hfs Hb. unfold main. rewrite Hp, Hf, Hfs, Hb.
  destruct lines; [congruence | reflexivity].
Qed.

(** No [assert] of the source fails, so a run always ends with a return. *)
Lemma main_never_crashes fs args events : main fs args <> Crash events.
Proof.
  unfold main.
  destruct (parse_args EmptyString [] args) as [path lines|]; [|discriminate].
  destruct (string_empty path); [discriminate|].
  destruct lines; [discriminate|].
  destruct (fs path) as [content|]; [|discriminate].
  pose proof (build_never_aborts (physical_lines content)) as H.
  destruct (build (physical_lines content)); congruence.
Qed.

Lemma in_all_conditionals c v : In c v -> In c (all_conditionals v).
Proof.
  intros Hc. unfold all_conditionals. apply in_flat_map. exists c.
  split; [assumption|]. destruct c; now left.
Qed.

Lemma wf_forest_after lo hi v line :
  wf_forest lo hi v -> hi <= line ->
  forall c, In c v -> in_conditional line c = false.
Proof.
  intros Hwf Hline c Hc. apply in_conditional_false.
  destruct (proj1 wf_conditionals_range _ _ _ Hwf c (in_all_conditionals _ _ Hc))
    as (_ & ? & _).
  lia.
Qed.

(** ** Line numbers on the command line *)

(** [atoi] gives an [int]. *)
Lemma atoi_range s : - INT_MAX - 1 <= atoi s <= INT_MAX.
Proof.
  unfold atoi, int_of_long, INT_MAX.
  change (2 ^ 31) with 2147483648. change (2 ^ 32) with 4294967296.
  pose proof (Z.mod_pos_bound (strtol s + 2147483648) 4294967296 eq_refl). lia.
Qed.

Lemma read_digits_acc d : forall acc : positive,
  read_digits (Z.pos acc) (NilEmpty.string_of_uint d) = Z.pos (Pos.of_uint_acc d acc).
Proof.
  induction d as [|d IH|d IH|d IH|d IH|d IH|d IH|d IH|d IH|d IH|d IH]; intros acc;
    [reflexivity|..];
    cbn [NilEmpty.string_of_uint read_digits Pos.of_uint_acc]; digit_step;
    rewrite <- IH; f_equal; lia.
Qed.

Lemma read_digits_uint d :
  read_digits 0 (NilEmpty.string_of_uint d) = Z.of_N (Pos.of_uint d).
Proof.
  induction d as [|d IH|d IH|d IH|d IH|d IH|d IH|d IH|d IH|d IH|d IH];
    [reflexivity|..];
    cbn [NilEmpty.string_of_uint read_digits Pos.of_uint]; digit_step;
    [exact IH|..]; apply read_digits_acc.
Qed.

Lemma numeral_uint d :
  d <> Decimal.Nil -> numeral (NilEmpty.string_of_uint d) = read_digits 0 (NilEmpty.string_of_uint d).
Proof. destruct d; [congruence|..]; reflexivity. Qed.

Lemma decimal_pos p : decimal (Z.pos p) = NilEmpty.string_of_uint (Pos.to_uint p).
Proof.
  unfold decimal. cbn [Z.to_int NilZero.string_of_int].
  pose proof (DecimalPos.Unsigned.to_uint_nonnil p) as H.
  unfold NilZero.string_of_uint. destruct (Pos.to_uint p); [congruence|..]; reflexivity.
Qed.

(** A line number that fits an [int], written in decimal, is read back by
    [atoi], and is not taken for an option. *)
Lemma atoi_decimal n : 0 < n <= INT_MAX -> atoi (decimal n) = n.
Proof.
  unfold INT_MAX. intros Hn. destruct n as [|p|p]; try lia.
  rewrite decimal_pos. unfold atoi, strtol.
  rewrite numeral_uint by apply DecimalPos.Unsigned.to_uint_nonnil.
  rewrite read_digits_uint, DecimalPos.Unsigned.of_to. cbn [Z.of_N].
  unfold LONG_MIN, LONG_MAX, int_of_long.
  change (2 ^ 31) with 2147483648. change (2 ^ 32) with 4294967296.
  rewrite Z.min_r, Z.max_r by lia. rewrite Z.mod_small by lia. lia.
Qed.

Lemma decimal_no_dash n : 0 < n -> starts_with_dash (decimal n) = false.
Proof.
  intros Hn. destruct n as [|p|p]; try lia. rewrite decimal_pos.
  pose proof (DecimalPos.Unsigned.to_uint_nonnil p) as H.
  destruct (Pos.to_uint p); [congruence|..]; reflexivity.
Qed.

(** The [--lines] loop takes every line number that fits an [int], up to the
    end of the arguments or to the next option. *)
Lemma read_lines_decimal filePath (rest : list string) (ns : list Z) : forall lines,
  Forall (fun l => 0 < l <= INT_MAX) ns ->
  rest = [] \/ (exists r rest', rest = r :: rest' /\ starts_with_dash r = true) ->
  read_lines filePath lines (map decimal ns ++ rest)
  = parse_args filePath (lines ++ ns) rest.
Proof.
  intros lines Hall Hrest. revert lines.
  induction Hall as [|l ns Hl _ IH]; intros lines.
  - rewrite app_nil_r. cbn [map app].
    destruct Hrest as [-> | (r & rest' & -> & Hr)]; [reflexivity|].
    cbn [read_lines]. now rewrite Hr.
  - cbn [map app read_lines]. rewrite decimal_no_dash by lia.
    cbv zeta. rewrite (atoi_decimal l Hl).
    replace (l <=? 0) with false by (symmetry; apply Z.leb_gt; lia).
    rewrite IH. now rewrite <- app_assoc.
Qed.

Lemma parse_args_command_line path lines args :
  command_line path lines args ->
  Forall (fun l => 0 < l <= INT_MAX) lines ->
  parse_args EmptyString [] args = Parsed path lines.
Proof.
  intros [-> | ->] Hall.
  - rewrite parse_args_cons. cbn [String.eqb Ascii.eqb Bool.eqb string_empty negb].
    rewrite parse_args_cons.
    change (String.eqb "--lines" "--file") with false.
    change (String.eqb "--lines" "--lines") with true. cbv iota.
    rewrite <- (app_nil_r (map decimal lines)).
    rewrite (read_lines_decimal path [] lines [] Hall (or_introl eq_refl)).
    reflexivity.
  - rewrite parse_args_cons.
    change (String.eqb "--lines" "--file") with false.
    change (String.eqb "--lines" "--lines") with true. cbv iota.
    rewrite (read_lines_decimal EmptyString ["--file"%string; path] lines [] Hall).
    + rewrite parse_args_cons. reflexivity.
    + right. exists "--file"%string, [path]. split; reflexivity.
Qed.

Lemma report_section v line (lines : list Z) :
  In line lines ->
  exists before after,
    report v lines = before ++ report v [line] ++ after.
Proof.
  intros Hin. apply in_split in Hin as (l1 & l2 & ->).
  exists (report v l1), (report v l2). unfold report.
  rewrite flat_map_app. cbn [flat_map]. now rewrite app_nil_r.
Qed.

(** C9: a line number is accepted whatever the file is.  For every line
    number that fits an [int], written in decimal after [--lines] in either
    order of the command line, the arguments are accepted; and when the file
    builds and no top-level conditional contains the line, which is the case
    of every line after the last line of the file, the query finds nothing:
    the program prints the header of the line and the blank line alone for
    it, among the answers to the other lines, and returns 0. *)
Theorem line_outside_every_conditional
  (fs : filesystem) (path : string) (lines : list Z) (args : list string) (line : Z)
  (content : string) (st : builder) :
  command_line path lines args ->
  string_empty path = false ->
  Forall (fun l => 0 < l <= INT_MAX) lines ->
  In line lines ->
  fs path = Some content ->
  build (physical_lines content) = Continue st ->
  (forall c, In c (conditionals st) -> in_conditional line c = false)
  \/ last_line (physical_lines content) < line ->
  parse_args EmptyString [] args = Parsed path lines
  /\ main fs args = Exit (OpenFile path :: report (conditionals st) lines) 0
  /\ (forall c, In c (conditionals st) -> in_conditional line c = false)
  /\ process_line line (conditionals st) = []
  /\ exists before after,
       report (conditionals st) lines = before ++ [Header line; Blank] ++ after.
Proof.
  intros Hargs Hpath Hall Hin Hfs Hb Hout.
  pose proof (parse_args_command_line path lines args Hargs Hall) as Hp.
  assert (Hout' : forall c, In c (conditionals st) -> in_conditional line c = false).
  { destruct Hout as [Hout | Hlast]; [exact Hout|].
    intros c Hc. pose proof (build_wf _ _ Hb) as [_ Hwf].
    eapply wf_forest_after; eauto. lia. }
  pose proof (process_line_outside _ _ Hout') as E.
  split; [exact Hp|].
  split; [eapply main_built; eauto; intros ->; inversion Hin|].
  split; [exact Hout'|]. split; [exact E|].
  destruct (report_section (conditionals st) line lines Hin) as (before & after & Hr).
  exists before, after. rewrite Hr. unfold report. cbn [flat_map].
  rewrite E. reflexivity.
Qed.

Lemma line_outside_every_conditional_witness :
  command_line "a.c" [6; 2147483647]
    ["--lines"; "6"; "2147483647"; "--file"; "a.c"]%string
  /\ Forall (fun l => 0 < l <= INT_MAX) [6; 2147483647]
  /\ last_line (physical_lines (join_lines (example1 ++ [EmptyString]))) < 2147483647
  /\ main example1_files ["--lines"; "6"; "2147483647"; "--file"; "a.c"]%string
     = Exit (OpenFile "a.c" :: report example1_forest [6; 2147483647]) 0
  /\ process_line 2147483647 example1_forest = []
  /\ exists before after,
       report example1_forest [6; 2147483647]
       = before ++ [Header 2147483647; Blank] ++ after.
Proof.
  assert (Hargs : command_line "a.c" [6; 2147483647]
                    ["--lines"; "6"; "2147483647"; "--file"; "a.c"]%string)
    by (right; reflexivity).
  assert (Hall : Forall (fun l => 0 < l <= INT_MAX) [6; 2147483647])
    by (repeat constructor; unfold INT_MAX; lia).
  assert (Hlast : last_line (physical_lines (join_lines (example1 ++ [EmptyString])))
                  < 2147483647) by (vm_compute; reflexivity).
  split; [exact Hargs|]. split; [exact Hall|]. split; [exact Hlast|].
  destruct (line_outside_every_conditional example1_files "a.c" [6; 2147483647]
              ["--lines"; "6"; "2147483647"; "--file"; "a.c"]%string 2147483647
              (join_lines (example1 ++ [EmptyString]))
              (mk_builder example1_forest [])
              Hargs eq_refl Hall (or_intror (or_introl eq_refl)) eq_refl eq_refl
              (or_intror Hlast))
    as (_ & Hmain & _ & Hq & Hr).
  split; [exact Hmain|]. split; [exact Hq | exact Hr].
Defined.

(** Past [INT_MAX] an argument is not the line number it spells: [main]
    rejects [2147483648], which [atoi] reads as a negative [int], and answers
    [4294967297] as line 1.  A numeral followed by other characters is read
    up to them. *)
Example atoi_beyond_int :
  atoi "2147483647" = INT_MAX
  /\ atoi "2147483648" = - INT_MAX - 1
  /\ atoi "4294967297" = 1
  /\ atoi "99999999999999999999" = -1
  /\ atoi "12abc" = 12
  /\ main example1_files ["--file"; "a.c"; "--lines"; "2147483648"]%string
     = Exit [Error (msg_invalid_line "2147483648"); Usage] 1
  /\ main example1_files ["--file"; "a.c"; "--lines"; "4294967297"]%string
     = Exit (OpenFile "a.c" :: report example1_forest [1]) 0.
Proof. repeat split; vm_compute; reflexivity. Qed.

(** ** Arguments *)

(** [--help] in option position, after arguments that parse. *)
Lemma parse_args_help_reached (m : nat) :
  forall pre post filePath lines filePath' lines',
    (length pre <= m)%nat ->
    (parse_args filePath lines pre = Parsed filePath' lines' ->
     parse_args filePath lines (pre ++ "--help"%string :: post) = Stop [Usage] 0)
    /\ (read_lines filePath lines pre = Parsed filePath' lines' ->
        read_lines filePath lines (pre ++ "--help"%string :: post) = Stop [Usage] 0).
Proof.
  induction m as [|m IH]; intros pre post f l f' l' Hlen.
  { destruct pre; [|simpl in Hlen; lia]. split; intros _; reflexivity. }
  destruct pre as [|arg rest]; [split; intros _; reflexivity|].
  simpl in Hlen.
  assert (Hparse : parse_args f l (arg :: rest) = Parsed f' l' ->
                   parse_args f l ((arg :: rest) ++ "--help"%string :: post)
                   = Stop [Usage] 0).
  { simpl app. rewrite !parse_args_cons.
    destruct (String.eqb arg "--file").
    { destruct (negb (string_empty f)); [discriminate|].
      destruct rest as [|path rest']; [discriminate|].
      simpl app. apply (IH rest' post path l f' l'). simpl in Hlen. lia. }
    destruct (String.eqb arg "--lines").
    { apply (IH rest post f l f' l'). lia. }
    destruct (String.eqb arg "--help"); discriminate. }
  split; [assumption|].
  simpl app. cbn [read_lines].
  destruct (starts_with_dash arg); [assumption|].
  cbv zeta. destruct (atoi arg <=? 0); [discriminate|].
  apply (IH rest post f (l ++ [atoi arg]) f' l'). lia.
Qed.

(** C8 as the code has it: when the scan of the arguments reaches [--help]
    in option position, that is, when the arguments before it are complete
    [--file <path>] and [--lines <n>...] options that parse without error,
    the program prints the usage and returns 0 without opening a file. *)
Theorem help_reached_exits_0
  (fs : filesystem) (pre post : list string) (filePath : string) (lines : list Z) :
  parse_args EmptyString [] pre = Parsed filePath lines ->
  main fs (pre ++ "--help"%string :: post) = Exit [Usage] 0
  /\ Forall (fun ev => is_open ev = false) [Usage].
Proof.
  intros Hpre. split; [|repeat constructor].
  unfold main.
  now rewrite (proj1 (parse_args_help_reached (length pre) pre post
                        EmptyString [] filePath lines (le_n _)) Hpre).
Qed.

Lemma help_reached_exits_0_witness :
  parse_args EmptyString [] ["--lines"; "3"; "7"; "--file"; "a.c"]%string
  = Parsed "a.c" [3; 7]
  /\ main example1_files
       (["--lines"; "3"; "7"; "--file"; "a.c"]%string
        ++ "--help"%string :: ["--file"%string])
     = Exit [Usage] 0
  /\ Forall (fun ev => is_open ev = false) [Usage].
Proof.
  split; [reflexivity|].
  apply (help_reached_exits_0 example1_files
           ["--lines"; "3"; "7"; "--file"; "a.c"]%string ["--file"%string]
           "a.c" [3; 7]).
  reflexivity.
Defined.

(** C8 as stated fails: [--help] after [--file] is taken as the path.  With
    no lines given the program reports the missing lines and returns 1; with
    lines given it opens the file called [--help] and answers the queries;
    and [--help] after a bad argument returns 1 as well. *)
Lemma help_not_always_honoured :
  In "--help"%string ["--file"; "--help"]%string
  /\ main help_files ["--file"; "--help"]%string = Exit [Error msg_no_lines; Usage] 1
  /\ In "--help"%string ["--lines"; "1"; "--file"; "--help"]%string
  /\ main help_files ["--lines"; "1"; "--file"; "--help"]%string
     = Exit [OpenFile "--help"; Header 1; Blank] 0
  /\ In "--help"%string ["--verbose"; "--help"]%string
  /\ main help_files ["--verbose"; "--help"]%string
     = Exit [Error (msg_unrecognized "--verbose"); Usage] 1
  /\ ~ (forall fs args, In "--help"%string args -> main fs args = Exit [Usage] 0).
Proof.
  repeat split; try reflexivity; try (simpl; tauto).
  intros H. specialize (H help_files ["--file"; "--help"]%string).
  discriminate H. simpl; tauto.
Qed.

Lemma parse_args_codes (m : nat) :
  forall args filePath lines events code,
    (length args <= m)%nat ->
    (parse_args filePath lines args = Stop events code -> code = 0 \/ code = 1)
    /\ (read_lines filePath lines args = Stop events code -> code = 0 \/ code = 1).
Proof.
  induction m as [|m IH]; intros args f l ev code Hlen.
  { destruct args; [|simpl in Hlen; lia]. split; discriminate. }
  destruct args as [|arg rest]; [split; discriminate|].
  simpl in Hlen.
  assert (Hparse : parse_args f l (arg :: rest) = Stop ev code -> code = 0 \/ code = 1).
  { rewrite parse_args_cons.
    destruct (String.eqb arg "--file").
    { destruct (negb (string_empty f)); [intros [= _ <-]; now right|].
      destruct rest as [|path rest']; [intros [= _ <-]; now right|].
      apply (IH rest' path l ev code). simpl in Hlen. lia. }
    destruct (String.eqb arg "--lines").
    { apply (IH rest f l ev code). lia. }
    destruct (String.eqb arg "--help"); intros [= _ <-]; auto. }
  split; [assumption|].
  cbn [read_lines].
  destruct (starts_with_dash arg); [assumption|].
  cbv zeta. destruct (atoi arg <=? 0); [intros [= _ <-]; now right|].
  apply (IH rest f (l ++ [atoi arg]) ev code). lia.
Qed.

(** The code -1 is kept for structural errors: every other way out of
    [main] returns 0 or 1. *)
Lemma exit_code_cases fs args events code :
  main fs args = Exit events code ->
  code = 0 \/ code = 1
  \/ (code = -1
      /\ exists path content msg,
           fs path = Some content
           /\ build (physical_lines content) = Fatal msg
           /\ events = [OpenFile path; Error msg]).
Proof.
  unfold main.
  destruct (parse_args EmptyString [] args) as [path lines | ev c] eqn:Hp.
  - destruct (string_empty path); [intros [= _ <-]; auto|].
    destruct lines; [intros [= _ <-]; auto|].
    destruct (fs path) as [content|] eqn:Hfs; [|intros [= _ <-]; auto].
    destruct (build (physical_lines content)) as [st|msg|] eqn:Hb;
      [intros [= _ <-]; auto | | discriminate].
    intros [= <- <-]. right; right. split; [reflexivity|].
    exists path, content, msg. auto.
  - intros [= _ <-].
    destruct (proj1 (parse_args_codes (length args) args EmptyString [] ev c (le_n _)) Hp);
      auto.
Qed.

(** ** Structural errors *)

(** The result of the build is the result of the loop from any state it
    reaches. *)
Lemma loop_reaches_build stream st n s :
  loop_reaches stream st n s ->
  build_loop initial_builder 1 stream = build_loop st n s.
Proof.
  induction 1 as [|st n first stream0 line k rest st' _ IH Hm Hp]; [reflexivity|].
  rewrite IH, build_loop_cons, Hm, Hp. reflexivity.
Qed.

Lemma is_else_not_if d : is_else d = true -> is_if d = false.
Proof.
  unfold is_else, is_if. rewrite orb_true_iff, !String.eqb_eq.
  now intros [-> | ->].
Qed.

Lemma is_endif_not_if d : is_endif d = true -> is_if d = false.
Proof. unfold is_endif, is_if. rewrite String.eqb_eq. now intros ->. Qed.

Lemma is_endif_not_else d : is_endif d = true -> is_else d = false.
Proof. unfold is_endif, is_else. rewrite String.eqb_eq. now intros ->. Qed.

Lemma unmatched_is_fatal st n line d :
  directive_of line = Some d -> stateStack st = [] ->
  (is_else d = true -> process_directive st n line = Fatal msg_unmatched_else)
  /\ (is_endif d = true -> process_directive st n line = Fatal msg_unmatched_endif).
Proof.
  intros Hd Hs. unfold process_directive, dispatch. rewrite Hd, Hs. split; intros H.
  - now rewrite (is_else_not_if _ H), H.
  - now rewrite (is_endif_not_if _ H), (is_endif_not_else _ H), H.
Qed.

(** C5: when the build meets an [#else] or [#elif] with no conditional open,
    an [#endif] with no conditional open, or the end of the input with a
    conditional still open, the build fails and [main] prints the error and
    returns -1: a code that is neither 0 nor the 1 of the argument and file
    errors (nor do the statuses a POSIX or a Windows parent sees coincide),
    that [main] returns for a failed build only, and the run contains no
    query output. *)
Theorem structural_errors_abort
  (fs : filesystem) (args : list string) (filePath : string) (lines : list Z)
  (content : string) (st : builder) (n : Z) (s : istream) :
  parse_args EmptyString [] args = Parsed filePath lines ->
  string_empty filePath = false -> lines <> [] ->
  fs filePath = Some content ->
  loop_reaches (physical_lines content) st n s ->
  (exists first s0 d,
     s = first :: s0
     /\ directive_of (fst (fst (merge_continuations first 1 s0))) = Some d
     /\ (is_else d = true \/ is_endif d = true)
     /\ stateStack st = [])
  \/ (s = [] /\ stateStack st <> []) ->
  exists msg events code,
    build (physical_lines content) = Fatal msg
    /\ main fs args = Exit events code
    /\ events = [OpenFile filePath; Error msg]
    /\ code = -1
    /\ code <> 0 /\ code <> 1
    /\ wait_status code <> wait_status 0 /\ wait_status code <> wait_status 1
    /\ windows_exit_code code <> windows_exit_code 0
    /\ windows_exit_code code <> windows_exit_code 1
    /\ Forall (fun ev => is_query ev = false) events
    /\ (forall fs' args' events',
          main fs' args' = Exit events' code ->
          exists path content' msg',
            fs' path = Some content'
            /\ build (physical_lines content') = Fatal msg').
Proof.
  intros Hp Hf Hl Hfs Hreach Hcase.
  assert (Hb : exists msg, build (physical_lines content) = Fatal msg).
  { unfold build. rewrite (loop_reaches_build _ _ _ _ Hreach).
    destruct Hcase as [(first & s0 & d & -> & Hd & Hkind & Hs) | [-> Hs]].
    - rewrite build_loop_cons.
      destruct (merge_continuations first 1 s0) as [[line k] rest]; simpl in Hd.
      destruct (unmatched_is_fatal st n line d Hd Hs) as [Helse Hendif].
      destruct Hkind as [H | H]; [rewrite (Helse H) | rewrite (Hendif H)];
        simpl; eauto.
    - simpl. destruct (stateStack st); [congruence | eauto]. }
  destruct Hb as [msg Hb].
  exists msg, [OpenFile filePath; Error msg], (-1).
  split; [assumption|].
  split; [eapply main_build_failed; eauto|].
  repeat split; try discriminate; [repeat constructor|].
  intros fs' args' events' Hmain.
  destruct (exit_code_cases _ _ _ _ Hmain)
    as [H | [H | (_ & path & content' & msg' & ? & ? & _)]];
    [discriminate | discriminate | eauto].
Qed.

Lemma structural_errors_abort_witness :
  exists msg events code,
    build (physical_lines example4) = Fatal msg
    /\ main example4_files ["--lines"; "1"; "--file"; "b.c"]%string = Exit events code
    /\ events = [OpenFile "b.c"; Error msg]
    /\ code = -1
    /\ code <> 0 /\ code <> 1
    /\ wait_status code <> wait_status 0 /\ wait_status code <> wait_status 1
    /\ windows_exit_code code <> windows_exit_code 0
    /\ windows_exit_code code <> windows_exit_code 1
    /\ Forall (fun ev => is_query ev = false) events
    /\ (forall fs' args' events',
          main fs' args' = Exit events' code ->
          exists path content' msg',
            fs' path = Some content'
            /\ build (physical_lines content') = Fatal msg').
Proof.
  apply (structural_errors_abort example4_files
           ["--lines"; "1"; "--file"; "b.c"]%string "b.c" [1] example4
           initial_builder (1 + 1) ["#endif"; "#if A"]%string);
    [reflexivity | reflexivity | discriminate | reflexivity | |].
  - apply (reach_next _ initial_builder 1 "int x;"%string
             ["#endif"; "#if A"]%string "int x;"%string 1
             ["#endif"; "#if A"]%string initial_builder);
      [apply reach_start | reflexivity | reflexivity].
  - left. exists "#endif"%string, ["#if A"%string], "endif"%string.
    repeat split. now right.
Defined.

(** ** The directive classifier *)

(** [find_first_not_of], [operator[]] and the [string_view] of the source in
    terms of skipping blanks and taking the alphabetic prefix. *)
Lemma first_not_of_skip s :
  match first_not_of whitespace s with
  | Some i => string_drop i s = skip_whitespace s /\ skip_whitespace s <> EmptyString
  | None => skip_whitespace s = EmptyString
  end.
Proof.
  induction s as [|c s IH]; cbn [first_not_of skip_whitespace]; [reflexivity|].
  destruct (string_mem c whitespace) eqn:E.
  - destruct (first_not_of whitespace s); cbn [string_drop]; assumption.
  - split; [reflexivity | discriminate].
Qed.

Lemma string_drop_add n m s : string_drop (n + m) s = string_drop m (string_drop n s).
Proof.
  revert s. induction n as [|n IH]; intros s; [reflexivity|].
  destruct s as [|c s]; simpl; [now destruct m | apply IH].
Qed.

Lemma get_string_drop n s :
  String.get n s = match string_drop n s with String c _ => Some c | EmptyString => None end.
Proof.
  revert s. induction n as [|n IH]; intros [|c s]; simpl; try reflexivity. apply IH.
Qed.

Lemma substring_string_drop n m s :
  substring n m s = substring 0 m (string_drop n s).
Proof.
  revert s. induction n as [|n IH]; intros [|c s]; simpl; try reflexivity.
  - now destruct m.
  - apply IH.
Qed.

Lemma substring_alpha_run s : substring 0 (alpha_run s) s = alpha_prefix s.
Proof.
  induction s as [|c s IH]; simpl; [reflexivity|].
  destruct (isalpha c); simpl; [now rewrite IH | reflexivity].
Qed.

(** The directive the source extracts, in the words of the specification. *)
Lemma directive_of_spec line :
  directive_of line =
  match skip_whitespace line with
  | String c rest =>
      if Ascii.eqb c hash then
        match skip_whitespace rest with
        | EmptyString => None
        | String _ _ as word => Some (alpha_prefix word)
        end
      else None
  | EmptyString => None
  end.
Proof.
  unfold directive_of, find_first_not_of. simpl string_drop.
  pose proof (first_not_of_skip line) as H1.
  destruct (first_not_of whitespace line) as [pos|]; [|now rewrite H1].
  destruct H1 as [H1 _]. simpl Nat.add.
  rewrite get_string_drop, H1.
  destruct (skip_whitespace line) as [|c rest]; [reflexivity|].
  destruct (Ascii.eqb c hash); [|reflexivity].
  rewrite string_drop_add, H1. simpl string_drop.
  pose proof (first_not_of_skip rest) as H2.
  destruct (first_not_of whitespace rest) as [i|]; [|now rewrite H2].
  destruct H2 as [H2 Hne].
  rewrite substring_string_drop.
  replace (string_drop (pos + 1 + i) line) with (skip_whitespace rest).
  2:{ rewrite !string_drop_add, H1. simpl. now rewrite H2. }
  replace (pos + 1 + i + alpha_run (skip_whitespace rest) - (pos + 1 + i))%nat
    with (alpha_run (skip_whitespace rest)) by lia.
  rewrite substring_alpha_run.
  destruct (skip_whitespace rest); [congruence | reflexivity].
Qed.

Lemma keyword_of_text kw : keyword_of (keyword_text kw) = Some kw.
Proof. now destruct kw. Qed.

Lemma keyword_of_Some word kw : keyword_of word = Some kw -> word = keyword_text kw.
Proof.
  unfold keyword_of. intros H. apply find_some in H as [_ H].
  now apply String.eqb_eq in H.
Qed.

Lemma keyword_of_None word :
  keyword_of word = None ->
  is_if word = false /\ is_else word = false /\ is_endif word = false.
Proof.
  unfold keyword_of. intros H.
  assert (Hk : forall kw, String.eqb word (keyword_text kw) = false).
  { intros kw. apply (find_none _ _ H). destruct kw; simpl; tauto. }
  pose proof (Hk KwIf) as H1. pose proof (Hk KwIfdef) as H2.
  pose proof (Hk KwIfndef) as H3. pose proof (Hk KwElif) as H4.
  pose proof (Hk KwElse) as H5. pose proof (Hk KwEndif) as H6.
  cbn [keyword_text] in *. unfold is_if, is_else, is_endif.
  now rewrite H1, H2, H3, H4, H5, H6.
Qed.

(** C6: the classifier of the source is the classifier of the
    specification: leading blanks, tabs and vertical tabs are skipped, a
    blank line or one that does not start with ['#'] is not a directive, the
    keyword is the longest alphabetic run after the ['#'] and the blanks
    that follow it, compared literally with the six keywords, and a line that
    carries none of them (or nothing after the ['#']) leaves the builder as
    it was. *)
Theorem classifier_matches_spec (st : builder) (n : Z) (line : string) :
  process_directive st n line = spec_step st n line (classify_spec line)
  /\ (classify_spec line = None -> process_directive st n line = Continue st)
  /\ (forall word kw, keyword_of word = Some kw <-> word = keyword_text kw)
  /\ (forall word,
        is_if word || is_else word || is_endif word = true <->
        exists kw, word = keyword_text kw).
Proof.
  assert (Hstep : process_directive st n line = spec_step st n line (classify_spec line)).
  { unfold process_directive, classify_spec. rewrite directive_of_spec.
    destruct (skip_whitespace line) as [|c rest]; [reflexivity|].
    destruct (Ascii.eqb c hash); [|reflexivity].
    destruct (skip_whitespace rest) as [|c' word]; [reflexivity|].
    destruct (keyword_of (alpha_prefix (String c' word))) as [kw|] eqn:E;
      cbn [spec_step].
    - now rewrite (keyword_of_Some _ _ E).
    - destruct (keyword_of_None _ E) as (H1 & H2 & H3).
      unfold dispatch. now rewrite H1, H2, H3. }
  split; [assumption|]. split; [|split].
  - intros Hnone. now rewrite Hstep, Hnone.
  - intros word kw. split; [apply keyword_of_Some | intros ->; apply keyword_of_text].
  - intros word. split.
    + intros H. destruct (keyword_of word) as [kw|] eqn:E.
      * exists kw. now apply keyword_of_Some.
      * destruct (keyword_of_None _ E) as (H1 & H2 & H3).
        rewrite H1, H2, H3 in H. discriminate.
    + intros [kw ->]. now destruct kw.
Qed.

(** The classifier on a few lines. *)
Example classify_examples :
  classify_spec "#if A" = Some KwIf
  /\ classify_spec "  #  ifdef X" = Some KwIfdef
  /\ classify_spec "#if(A)" = Some KwIf
  /\ classify_spec "#elif1" = Some KwElif
  /\ classify_spec "#IF A" = None
  /\ classify_spec "#ifx" = None
  /\ classify_spec "#endif_" = Some KwEndif
  /\ classify_spec "#" = None
  /\ classify_spec "# 1 if" = None
  /\ classify_spec "x; #if A" = None
  /\ classify_spec "#define if" = None.
Proof. repeat split. Qed.

(** ** Logical lines and line numbers *)

(** At the head of the loop the invariant holds, and the counter is the
    number of the next physical line. *)
Lemma loop_reaches_invariant stream st n s :
  loop_reaches stream st n s ->
  open_forest n 0 (conditionals st) (stateStack st).
Proof.
  induction 1 as [|st n first stream0 line k rest st' _ IH Hm Hp].
  - constructor; [constructor | lia].
  - apply merge_continuations_inv in Hm as (taken & _ & -> & _).
    destruct (process_directive_preserves n 0 st line IH) as [Hpres _].
    rewrite Hp in Hpres. apply Hpres. lia.
Qed.

Lemma loop_reaches_position stream st n s :
  loop_reaches stream st n s ->
  exists pre, stream = pre ++ s /\ n = 1 + Z.of_nat (length pre).
Proof.
  induction 1 as [|st n first stream0 line k rest st' _ IH Hm Hp].
  - exists []. split; [reflexivity | simpl; lia].
  - destruct IH as (pre & -> & ->).
    apply merge_continuations_inv in Hm as (taken & -> & -> & _).
    exists (pre ++ first :: taken). split.
    + now rewrite <- app_assoc.
    + rewrite length_app. simpl length. lia.
Qed.

(** The merged text ends with a backslash when its last physical line does. *)
Lemma ends_with_backslash_append a c s :
  ends_with_backslash (String.append a (String c s)) = ends_with_backslash (String c s).
Proof.
  induction a as [|x a IH]; [reflexivity|].
  cbn [String.append]. rewrite <- IH.
  destruct (String.append a (String c s)) eqn:E; [|reflexivity].
  destruct a; discriminate.
Qed.

Lemma ends_with_backslash_joined a next :
  ends_with_backslash
    (String.append (String.append a (String newline EmptyString)) next)
  = ends_with_backslash next.
Proof.
  rewrite string_append_assoc. simpl String.append.
  rewrite ends_with_backslash_append. now destruct next.
Qed.

Lemma merge_continuations_group (conts rest : list string) :
  forall acc l k,
    ends_with_backslash acc = ends_with_backslash l ->
    continued (l :: conts) = true -> complete (l :: conts) rest = true ->
    merge_continuations acc k (conts ++ rest)
    = (join_lines (acc :: conts), k + Z.of_nat (length conts), rest).
Proof.
  induction conts as [|c conts IH]; intros acc l k Hacc Hcont Hcomp.
  - simpl app. destruct rest as [|r rest]; simpl.
    + now rewrite Z.add_0_r.
    + simpl in Hcomp. rewrite Hacc.
      destruct (ends_with_backslash l); [discriminate|]. now rewrite Z.add_0_r.
  - cbn [continued] in Hcont. apply andb_true_iff in Hcont as [Hl Hcont].
    simpl. rewrite Hacc, Hl.
    rewrite (IH _ c); try assumption.
    + rewrite join_lines_merge. f_equal. f_equal. lia.
    + apply ends_with_backslash_joined.
Qed.

Lemma top_block_lift v b e bs bb be txt inner blk :
  top_block inner blk -> top_block (lift_builder v b e bs bb be txt inner) blk.
Proof.
  intros (p & c & Hp & Hc & Hb).
  exists (under (length v) (length bs) p), c. unfold lift_builder; simpl.
  rewrite last_lift_stack, Hp, deref_under. auto.
Qed.

Lemma top_block_intro v c blk bs :
  blocks c = bs ++ [blk] ->
  top_block (mk_builder (v ++ [c]) [mk_ptr [] (length v)]) blk.
Proof.
  intros E. exists (mk_ptr [] (length v)), c. simpl.
  rewrite deref_top, E, last_snoc. auto.
Qed.

(** An [#if] or [#else] records the current line number and the text of the
    logical line in the block it opens. *)
Lemma dispatch_records n lo v stack :
  open_forest n lo v stack ->
  forall text d st',
    is_if d || is_else d = true ->
    dispatch (mk_builder v stack) n text d = Continue st' ->
    top_block st' (mk_block n 0 text []).
Proof.
  induction 1 as [lo v Hv Hlo | lo v b e bs bb be txt ns stack Hv Hlo Hbs Hbb Hin IH];
    intros text d st' Hd.
  - unfold dispatch, push_conditional, start_conditional; simpl.
    destruct (is_if d).
    + rewrite deref_top; simpl. rewrite store_top. intros [= <-].
      now apply (top_block_intro v _ _ []).
    + simpl in Hd. rewrite Hd. discriminate.
  - destruct stack as [|p stack].
    + unfold dispatch, push_conditional, start_conditional; simpl.
      rewrite deref_top; simpl.
      destruct (is_if d).
      { rewrite last_snoc; simpl. rewrite alter_back_snoc, store_top; simpl.
        rewrite length_app; simpl. replace (pred (length bs + 1)) with (length bs) by lia.
        change (mk_ptr [(length v, length bs)] (length ns))
          with (under (length v) (length bs) (mk_ptr [] (length ns))).
        unfold with_blocks, with_nested; simpl.
        rewrite deref_under; simpl. rewrite deref_top; simpl.
        rewrite store_under; simpl. rewrite store_top. intros [= <-].
        apply (top_block_lift v b e bs bb be txt
                 (mk_builder (ns ++ [mk_conditional n 0 [mk_block n 0 text []]])
                    [mk_ptr [] (length ns)])).
        now apply (top_block_intro ns _ _ []). }
      simpl in Hd. rewrite Hd. unfold next_block; simpl.
      snoc_branch.
      rewrite alter_back_snoc, store_top; simpl. intros [= <-].
      now apply (top_block_intro v _ _ (bs ++ [set_block_end_line n (mk_block bb be txt ns)])).
    + change (mk_builder _ _)
        with (lift_builder v b e bs bb be txt (mk_builder ns (p :: stack))).
      rewrite dispatch_lift by (simpl; congruence).
      destruct (dispatch (mk_builder ns (p :: stack)) n text d) as [st1| |] eqn:E;
        simpl; try discriminate.
      intros [= <-]. apply top_block_lift. eapply IH; eauto.
Qed.

(** The continued [#if] of [example7] is one block from line 1 to the
    [#endif] on physical line 4. *)
Example example7_built :
  build example7
  = Continue
      (mk_builder
         [mk_conditional 1 4
            [mk_block 1 4 (join_lines (example7_first :: example7_conts)) []]]
         []).
Proof. reflexivity. Qed.

(** ** Branch order *)

(** The top of the stack points at a conditional with at least one block,
    and reads back what is written through it. *)
Lemma open_top_valid n lo v stack :
  open_forest n lo v stack ->
  forall p, last stack = Some p ->
    exists cond,
      deref v p = Some cond /\ blocks cond <> []
      /\ forall c', deref (store v p c') p = Some c'.
Proof.
  induction 1 as [lo v Hv Hlo | lo v b e bs bb be txt ns stack Hv Hlo Hbs Hbb Hin IH];
    intros p; [discriminate|].
  rewrite last_lift_stack. destruct (last stack) as [q|] eqn:E; intros [= <-].
  - destruct (IH q eq_refl) as (cond & Hd & Hne & Hs).
    exists cond. rewrite deref_under. repeat split; try assumption.
    intros c'. rewrite store_under. unfold with_nested; simpl.
    rewrite deref_under. apply Hs.
  - eexists. rewrite deref_top. repeat split.
    + simpl. intros H. now apply app_nil in H as [_ [=]].
    + intros c'. now rewrite store_top, deref_top.
Qed.

(** C10: while a conditional is open, an [#else] or [#elif] is accepted
    whatever the branches before it are: the directive never fails, prints
    nothing, and turns the blocks of the innermost open conditional into the
    same blocks with the last one ended at the current line, followed by a
    new block that begins there. *)
Theorem branch_order_unchecked
  (stream : istream) (st : builder) (n : Z) (s : istream) (text d : string) :
  loop_reaches stream st n s ->
  stateStack st <> [] ->
  directive_of text = Some d ->
  is_else d = true ->
  exists p cond,
    last (stateStack st) = Some p
    /\ deref (conditionals st) p = Some cond
    /\ blocks cond <> []
    /\ process_directive st n text
       = Continue
           (mk_builder
              (store (conditionals st) p
                 (with_blocks cond
                    (alter_back (set_block_end_line n) (blocks cond)
                     ++ [mk_block n 0 text []])))
              (stateStack st))
    /\ deref
         (store (conditionals st) p
            (with_blocks cond
               (alter_back (set_block_end_line n) (blocks cond)
                ++ [mk_block n 0 text []])))
         p
       = Some (with_blocks cond
                 (alter_back (set_block_end_line n) (blocks cond)
                  ++ [mk_block n 0 text []])).
Proof.
  intros Hreach Hstack Hd Helse.
  apply loop_reaches_invariant in Hreach.
  destruct (last_is_Some _ Hstack) as [p Hp].
  destruct (open_top_valid _ _ _ _ Hreach p Hp) as (cond & Hderef & Hne & Hstore).
  exists p, cond. repeat split; try assumption; [|apply Hstore].
  unfold process_directive, dispatch.
  rewrite Hd, (is_else_not_if _ Helse), Helse, Hp, Hderef.
  unfold next_block. destruct (blocks cond); [congruence | reflexivity].
Qed.

(** [#elif] after [#else], and a second [#else]: four blocks, no error. *)
Lemma example10_reaches :
  loop_reaches example10 example10_state (1 + 1 + 1) ["#elif B"; "#else"; "#endif"]%string.
Proof.
  apply (reach_next example10
           (mk_builder [mk_conditional 1 0 [mk_block 1 0 "#if A" []]] [mk_ptr [] 0])
           (1 + 1) "#else"%string ["#elif B"; "#else"; "#endif"]%string "#else"%string 1);
    [|reflexivity|reflexivity].
  apply (reach_next example10 initial_builder 1 "#if A"%string
           ["#else"; "#elif B"; "#else"; "#endif"]%string "#if A"%string 1);
    [apply reach_start | reflexivity | reflexivity].
Qed.

Lemma example10_built :
  build example10
  = Continue
      (mk_builder
         [mk_conditional 1 5
            [mk_block 1 2 "#if A" []; mk_block 2 3 "#else" [];
             mk_block 3 4 "#elif B" []; mk_block 4 5 "#else" []]]
         []).
Proof. reflexivity. Qed.

Lemma branch_order_unchecked_witness :
  exists p cond,
    last (stateStack example10_state) = Some p
    /\ deref (conditionals example10_state) p = Some cond
    /\ blocks cond <> []
    /\ process_directive example10_state 3 "#elif B"
       = Continue
           (mk_builder
              (store (conditionals example10_state) p
                 (with_blocks cond
                    (alter_back (set_block_end_line 3) (blocks cond)
                     ++ [mk_block 3 0 "#elif B" []])))
              (stateStack example10_state))
    /\ deref
         (store (conditionals example10_state) p
            (with_blocks cond
               (alter_back (set_block_end_line 3) (blocks cond)
                ++ [mk_block 3 0 "#elif B" []])))
         p
       = Some (with_blocks cond
                 (alter_back (set_block_end_line 3) (blocks cond)
                  ++ [mk_block 3 0 "#elif B" []])).
Proof.
  apply (branch_order_unchecked example10 example10_state 3
           ["#elif B"; "#else"; "#endif"]%string "#elif B" "elif").
  - exact example10_reaches.
  - discriminate.
  - reflexivity.
  - reflexivity.
Defined.

(** ** The file as logical lines *)

Lemma logical_lines_merge n (stream : istream) : forall cur k,
  (fix merge (currentLine : string) (linesRead : Z) (stream : istream)
     {struct stream} : list (Z * string) :=
     match stream with
     | next :: stream' =>
         if ends_with_backslash currentLine then
           merge
             (String.append (String.append currentLine (String newline EmptyString)) next)
             (linesRead + 1) stream'
         else
           (n, currentLine) :: logical_lines (n + linesRead) stream
     | [] => (n, currentLine) :: logical_lines (n + linesRead) stream
     end) cur k stream =
  let '(line, k', rest) := merge_continuations cur k stream in
  (n, line) :: logical_lines (n + k') rest.
Proof.
  induction stream as [|next stream IH]; intros cur k; simpl; [reflexivity|].
  destruct (ends_with_backslash cur); [apply IH | reflexivity].
Qed.

Lemma logical_lines_cons n first stream0 :
  logical_lines n (first :: stream0) =
  let '(line, k, rest) := merge_continuations first 1 stream0 in
  (n, line) :: logical_lines (n + k) rest.
Proof. simpl. apply logical_lines_merge. Qed.

(** The build loop is the directive processing run over the logical lines. *)
Lemma build_loop_run (m : nat) : forall stream st n,
  (length stream <= m)%nat ->
  build_loop st n stream = run_lines st (logical_lines n stream).
Proof.
  induction m as [|m IH]; intros stream st n Hlen.
  - destruct stream; [reflexivity | simpl in Hlen; lia].
  - destruct stream as [|first stream0]; [reflexivity|].
    rewrite build_loop_cons, logical_lines_cons.
    destruct (merge_continuations first 1 stream0) as [[line k] rest] eqn:Em.
    apply merge_continuations_inv in Em as (taken & -> & _ & _).
    cbn [run_lines]. destruct (process_directive st n line); simpl; try reflexivity.
    apply IH. simpl in Hlen. rewrite length_app in Hlen. lia.
Qed.

Lemma physical_lines_no_newline content :
  Forall (fun l => no_newline l = true) (physical_lines content).
Proof.
  induction content as [|c rest IH]; simpl; [repeat constructor|].
  destruct (Ascii.eqb c newline) eqn:Ec; [constructor; [reflexivity | assumption]|].
  destruct (physical_lines rest) as [|l ls]; [repeat constructor; simpl; now rewrite Ec|].
  apply Forall_cons in IH as [Hl Hls]. constructor; [|assumption].
  simpl. now rewrite Ec, Hl.
Qed.

Lemma merge_continuations_shape (stream : istream) :
  forall acc l k line k' rest,
    merge_continuations acc k stream = (line, k', rest) ->
    ends_with_backslash acc = ends_with_backslash l ->
    exists taken,
      stream = taken ++ rest
      /\ continued (l :: taken) = true
      /\ complete (l :: taken) rest = true.
Proof.
  induction stream as [|next stream IH]; intros acc l k line k' rest; simpl.
  - intros [= <- <- <-] _. exists []. auto.
  - destruct (ends_with_backslash acc) eqn:Eacc.
    + intros Hm Hl.
      destruct (IH _ next _ _ _ _ Hm (ends_with_backslash_joined acc next))
        as (taken & -> & Hc & Hcomp).
      exists (next :: taken). split; [reflexivity|]. split.
      * change (continued (l :: next :: taken))
          with (ends_with_backslash l && continued (next :: taken)).
        now rewrite <- Hl, Hc.
      * exact Hcomp.
    + intros [= <- <- <-] Hl. exists []. split; [reflexivity|]. split; [reflexivity|].
      simpl. now rewrite <- Hl.
Qed.

Lemma logical_lines_groups (m : nat) : forall stream n,
  (length stream <= m)%nat ->
  Forall (fun l => no_newline l = true) stream ->
  concat (line_groups (logical_lines n stream)) = stream
  /\ logical_lines n stream = numbered n (line_groups (logical_lines n stream))
  /\ well_grouped (line_groups (logical_lines n stream)) = true.
Proof.
  induction m as [|m IH]; intros stream n Hlen Hnl.
  { destruct stream; [now repeat split | simpl in Hlen; lia]. }
  destruct stream as [|first stream0]; [now repeat split|].
  rewrite logical_lines_cons.
  destruct (merge_continuations first 1 stream0) as [[line k] rest] eqn:Em.
  destruct (merge_continuations_shape _ first first _ _ _ _ Em eq_refl)
    as (taken & E & Hcont & Hcomp).
  apply merge_continuations_inv in Em as (taken' & E' & -> & ->).
  assert (taken' = taken) as -> by (rewrite E in E'; now apply app_inv_tail in E').
  subst stream0.
  change (first :: taken ++ rest) with ((first :: taken) ++ rest) in *.
  apply Forall_app in Hnl as [Hg Hrest].
  destruct (IH rest (n + (1 + Z.of_nat (length taken)))) as (Hcat & Hnum & Hwg);
    [rewrite length_app in Hlen; simpl in Hlen; lia | assumption |].
  unfold line_groups in *. rewrite fmap_cons. cbn [snd concat numbered well_grouped].
  rewrite (physical_lines_join (first :: taken)) by (discriminate || assumption).
  rewrite Hcat, Hcont, Hcomp, Hwg. repeat split.
  f_equal. rewrite Hnum at 1. f_equal. simpl length. lia.
Qed.

(** X3: the logical lines partition the file.  Cutting their texts at the
    newlines gives back the physical lines, in order; each logical line is
    numbered with the physical line it begins at; and each is a maximal run
    of lines continued by a backslash. *)
Theorem logical_lines_partition (content : string) :
  concat (line_groups (logical_lines 1 (physical_lines content)))
  = physical_lines content
  /\ logical_lines 1 (physical_lines content)
     = numbered 1 (line_groups (logical_lines 1 (physical_lines content)))
  /\ well_grouped (line_groups (logical_lines 1 (physical_lines content))) = true.
Proof.
  apply (logical_lines_groups (length (physical_lines content))); [lia|].
  apply physical_lines_no_newline.
Qed.

(** ** Bracket matching *)

(** How one directive moves the stack. *)
Lemma process_directive_depth st n text :
  match process_directive st n text with
  | Continue st' =>
      match kind_of text with
      | Opens => length (stateStack st') = S (length (stateStack st))
      | Branches => stateStack st <> [] /\ stateStack st' = stateStack st
      | Closes => S (length (stateStack st')) = length (stateStack st)
      | Neutral => st' = st
      end
  | Fatal msg =>
      stateStack st = []
      /\ ((kind_of text = Branches /\ msg = msg_unmatched_else)
          \/ (kind_of text = Closes /\ msg = msg_unmatched_endif))
  | Abort => True
  end.
Proof.
  unfold process_directive, kind_of.
  destruct (directive_of text) as [d|]; [|reflexivity].
  unfold dispatch. destruct (is_if d).
  { unfold push_conditional, start_conditional.
    destruct (last (stateStack st)) as [p|] eqn:Ep.
    - destruct (deref (conditionals st) p) as [parent|]; [|exact I].
      destruct (last (blocks parent)); [|exact I].
      cbn [stateStack conditionals]. rewrite last_snoc.
      destruct (deref _ _) as [cond|]; [|exact I].
      destruct (blocks cond); [|exact I].
      cbn [stateStack]. rewrite length_app. simpl. lia.
    - cbn [stateStack conditionals]. rewrite last_snoc.
      destruct (deref _ _) as [c|]; [|exact I].
      destruct (blocks c); [|exact I].
      cbn [stateStack]. rewrite length_app. simpl. lia. }
  destruct (is_else d).
  { destruct (last (stateStack st)) as [p|] eqn:Ep.
    - destruct (deref (conditionals st) p) as [c|]; [|exact I].
      destruct (next_block n text c); [|exact I].
      split; [|reflexivity]. intros E. now rewrite E in Ep.
    - apply last_None in Ep. auto. }
  destruct (is_endif d); [|reflexivity].
  destruct (last (stateStack st)) as [p|] eqn:Ep.
  - destruct (deref (conditionals st) p) as [c|]; [|exact I].
    destruct (close_conditional n c); [|exact I].
    cbn [stateStack]. unfold pop_back. rewrite length_take.
    destruct (stateStack st); [discriminate | simpl; lia].
  - apply last_None in Ep. auto.
Qed.

Lemma build_loop_agrees (m : nat) : forall stream st n lo,
  (length stream <= m)%nat ->
  open_forest n lo (conditionals st) (stateStack st) ->
  agrees (length (stateStack st)) (logical_lines n stream) (build_loop st n stream).
Proof.
  induction m as [|m IH]; intros stream st n lo Hlen Hinv.
  { destruct stream; [reflexivity | simpl in Hlen; lia]. }
  destruct stream as [|first stream0]; [reflexivity|].
  rewrite build_loop_cons, logical_lines_cons.
  destruct (merge_continuations first 1 stream0) as [[line k] rest] eqn:Em.
  apply merge_continuations_inv in Em as (taken & -> & -> & _).
  destruct (process_directive_preserves n lo st line Hinv) as [Hp _].
  pose proof (process_directive_depth st n line) as Hd.
  destruct (process_directive st n line) as [st1|msg|]; simpl in Hp;
    cbn [loop_body]; [| |contradiction].
  - assert (Hr : agrees (length (stateStack st1))
                   (logical_lines (n + (1 + Z.of_nat (length taken))) rest)
                   (build_loop st1 (n + (1 + Z.of_nat (length taken))) rest)).
    { apply (IH _ _ _ lo); [|apply Hp; lia].
      simpl in Hlen. rewrite length_app in Hlen. lia. }
    assert (Hk : check_nesting (length (stateStack st)) ((n, line) :: logical_lines (n + (1 + Z.of_nat (length taken))) rest)
                 = check_nesting (length (stateStack st1)) (logical_lines (n + (1 + Z.of_nat (length taken))) rest)).
    { cbn [check_nesting]. destruct (kind_of line).
      - rewrite Hd. now destruct (length (stateStack st)).
      - destruct Hd as [Hne Hd]. rewrite Hd.
        destruct (stateStack st); [congruence | reflexivity].
      - rewrite <- Hd. reflexivity.
      - subst st1. now destruct (length (stateStack st)). }
    unfold agrees in *. rewrite Hk. exact Hr.
  - simpl. destruct Hd as [Hs [[-> ->] | [-> ->]]]; now rewrite Hs.
Qed.

(** X4: whether the build succeeds, and with which message it fails, is
    decided by bracket matching on the kinds of the logical lines: the build
    fails with exactly the error of [nesting_error], and yields a forest
    exactly when there is none. *)
Theorem build_is_bracket_matching (stream : istream) :
  match nesting_error (logical_lines 1 stream) with
  | Some msg => build stream = Fatal msg
  | None => exists st, build stream = Continue st /\ stateStack st = []
  end.
Proof.
  pose proof (build_loop_agrees (length stream) stream initial_builder 1 0 (le_n _)) as H.
  unfold build, nesting_error.
  destruct (build_loop initial_builder 1 stream) as [st|msg|]; simpl in H.
  - rewrite H; [|constructor; [constructor | lia]].
    destruct (stateStack st) eqn:Es; simpl; [|reflexivity].
    exists st. now rewrite Es.
  - rewrite H; [reflexivity | constructor; [constructor | lia]].
  - destruct H. constructor; [constructor | lia].
Qed.

(** ** The blocks of the forest *)

Lemma all_blocks_snoc v c : all_blocks (v ++ [c]) = all_blocks v ++ blocks_of c.
Proof. unfold all_blocks. rewrite flat_map_app. simpl. now rewrite app_nil_r. Qed.

Lemma blocks_of_snoc b e bs blk :
  blocks_of (mk_conditional b e (bs ++ [blk]))
  = blocks_of (mk_conditional b e bs) ++ blk :: all_blocks (nested_conditionals blk).
Proof. simpl. rewrite flat_map_app. simpl. now rewrite app_nil_r. Qed.

Lemma branches_lift v b e bs bb be txt inner :
  branches (conditionals (lift_builder v b e bs bb be txt inner))
  = (branches v ++ map branch_of (blocks_of (mk_conditional b e bs)) ++ [(bb, txt)])
    ++ branches (conditionals inner).
Proof.
  unfold branches, lift_builder. cbn [conditionals].
  rewrite all_blocks_snoc, blocks_of_snoc, !map_app. cbn [map nested_conditionals].
  unfold branch_of at 3. simpl. now rewrite <- !app_assoc.
Qed.

Lemma branches_open v b e bs bb be txt ns :
  branches (v ++ [mk_conditional b e (bs ++ [mk_block bb be txt ns])])
  = (branches v ++ map branch_of (blocks_of (mk_conditional b e bs)) ++ [(bb, txt)])
    ++ branches ns.
Proof. apply (branches_lift v b e bs bb be txt (mk_builder ns [])). Qed.

#[local] Hint Rewrite all_blocks_snoc blocks_of_snoc @map_app : blocks_norm.

(** A directive that opens a block records its line and text at the end of
    the forest; any other directive records nothing. *)
Lemma dispatch_branches n lo v stack :
  open_forest n lo v stack ->
  forall text d st',
    dispatch (mk_builder v stack) n text d = Continue st' ->
    branches (conditionals st')
    = branches v ++ (if is_if d || is_else d then [(n, text)] else []).
Proof.
  induction 1 as [lo v Hv Hlo | lo v b e bs bb be txt ns stack Hv Hlo Hbs Hbb Hin IH];
    intros text d st'.
  - unfold dispatch, push_conditional, start_conditional; simpl.
    destruct (is_if d).
    + rewrite deref_top; simpl. rewrite store_top. intros [= <-]; simpl.
      now branches_norm.
    + destruct (is_else d); [discriminate|].
      destruct (is_endif d); [discriminate|]. intros [= <-]. simpl.
      now rewrite app_nil_r.
  - destruct stack as [|p stack].
    + unfold dispatch, push_conditional, start_conditional; simpl.
      rewrite deref_top; simpl.
      destruct (is_if d).
      { rewrite last_snoc; simpl. rewrite alter_back_snoc, store_top; simpl.
        rewrite length_app; simpl. replace (pred (length bs + 1)) with (length bs) by lia.
        change (mk_ptr [(length v, length bs)] (length ns))
          with (under (length v) (length bs) (mk_ptr [] (length ns))).
        unfold with_blocks, with_nested; simpl.
        rewrite deref_under; simpl. rewrite deref_top; simpl.
        rewrite store_under; simpl. rewrite store_top. intros [= <-].
        cbn [conditionals]. now branches_norm. }
      destruct (is_else d).
      { unfold next_block; simpl. snoc_branch.
        rewrite alter_back_snoc, store_top; simpl. intros [= <-].
        cbn [conditionals]. unfold with_blocks, set_block_end_line; simpl.
        now branches_norm. }
      destruct (is_endif d).
      { unfold close_conditional; simpl. snoc_branch.
        rewrite alter_back_snoc, store_top; simpl. intros [= <-].
        cbn [conditionals]. unfold set_block_end_line; simpl.
        now branches_norm. }
      simpl. intros [= <-]. now rewrite app_nil_r.
    + change (mk_builder _ _)
        with (lift_builder v b e bs bb be txt (mk_builder ns (p :: stack))).
      rewrite dispatch_lift by (simpl; congruence).
      destruct (dispatch (mk_builder ns (p :: stack)) n text d) as [st1| |] eqn:E;
        simpl; try discriminate.
      intros [= <-]. rewrite branches_lift, branches_open.
      rewrite (IH _ _ _ E). now rewrite <- !app_assoc.
Qed.

Lemma process_directive_branches n lo st text st' :
  open_forest n lo (conditionals st) (stateStack st) ->
  process_directive st n text = Continue st' ->
  branches (conditionals st')
  = branches (conditionals st) ++ (if opens_block text then [(n, text)] else []).
Proof.
  intros Hinv. unfold process_directive, opens_block, kind_of.
  destruct (directive_of text) as [d|].
  - destruct st as [v stack]. intros Hd.
    rewrite (dispatch_branches _ _ _ _ Hinv _ _ _ Hd). cbn [conditionals].
    destruct (is_if d); [reflexivity|]. destruct (is_else d); [reflexivity|].
    now destruct (is_endif d).
  - intros [= <-]. now rewrite app_nil_r.
Qed.

Lemma build_loop_branches (m : nat) : forall stream st n lo st',
  (length stream <= m)%nat ->
  open_forest n lo (conditionals st) (stateStack st) ->
  build_loop st n stream = Continue st' ->
  branches (conditionals st')
  = branches (conditionals st)
    ++ List.filter (fun nl => opens_block (snd nl)) (logical_lines n stream).
Proof.
  induction m as [|m IH]; intros stream st n lo st' Hlen Hinv.
  { destruct stream; [|simpl in Hlen; lia]. intros [= <-]. simpl. now rewrite app_nil_r. }
  destruct stream as [|first stream0].
  { intros [= <-]. simpl. now rewrite app_nil_r. }
  rewrite build_loop_cons, logical_lines_cons.
  destruct (merge_continuations first 1 stream0) as [[line k] rest] eqn:Em.
  apply merge_continuations_inv in Em as (taken & -> & -> & _).
  destruct (process_directive_preserves n lo st line Hinv) as [Hp _].
  destruct (process_directive st n line) as [st1|msg|] eqn:Ep; simpl in Hp;
    cbn [loop_body]; try discriminate.
  intros Hb.
  rewrite (IH rest st1 (n + (1 + Z.of_nat (length taken))) lo st');
    [| simpl in Hlen; rewrite length_app in Hlen; lia | apply Hp; lia | assumption].
  rewrite (process_directive_branches _ _ _ _ _ Hinv Ep).
  cbn [List.filter snd]. rewrite <- app_assoc.
  now destruct (opens_block line).
Qed.

(** X5: the forest records every block-opening directive exactly once.
    The blocks of a built forest, read in source order at every depth, carry
    the line numbers and texts of exactly the logical lines that are [#if],
    [#ifdef], [#ifndef], [#elif] or [#else] directives, in the order of the
    file. *)
Theorem blocks_record_branch_lines (stream : istream) (st : builder) :
  build stream = Continue st ->
  branches (conditionals st)
  = List.filter (fun nl => opens_block (snd nl)) (logical_lines 1 stream).
Proof.
  unfold build.
  destruct (build_loop initial_builder 1 stream) as [st'|msg|] eqn:E; try discriminate.
  destruct (stateStack st'); [|discriminate]. intros [= <-].
  apply (build_loop_branches (length stream) stream initial_builder 1 0 st' (le_n _)).
  - constructor; [constructor | lia].
  - exact E.
Qed.

Lemma blocks_record_branch_lines_witness :
  build example10 = Continue
      (mk_builder
         [mk_conditional 1 5
            [mk_block 1 2 "#if A" []; mk_block 2 3 "#else" [];
             mk_block 3 4 "#elif B" []; mk_block 4 5 "#else" []]]
         [])
  /\ [(1, "#if A"); (2, "#else"); (3, "#elif B"); (4, "#else")]%string
     = List.filter (fun nl => opens_block (snd nl)) (logical_lines 1 example10).
Proof.
  split; [reflexivity|].
  apply (blocks_record_branch_lines example10
           (mk_builder
              [mk_conditional 1 5
                 [mk_block 1 2 "#if A" []; mk_block 2 3 "#else" [];
                  mk_block 3 4 "#elif B" []; mk_block 4 5 "#else" []]]
              [])).
  reflexivity.
Defined.

(** ** Assertions and nesting *)

(** X1: no [assert] of the builder can fail and no pointer of the stack is
    ever followed out of the forest: the build of any input ends with a
    forest or a structural error, and a run of the program always ends with
    a return from [main]. *)
Theorem no_assertion_fails :
  (forall stream, build stream <> Abort)
  /\ (forall fs args events, main fs args <> Crash events)
  /\ (forall stream st n s text,
        loop_reaches stream st n s -> process_directive st n text <> Abort).
Proof.
  split; [apply build_never_aborts|]. split; [apply main_never_crashes|].
  intros stream st n s text Hreach E.
  apply loop_reaches_invariant in Hreach.
  destruct (process_directive_preserves n 0 st text Hreach) as [Hp _].
  now rewrite E in Hp.
Qed.

Lemma wf_forest_ordered lo hi v : wf_forest lo hi v -> ordered v.
Proof.
  induction 1 as [|lo hi b e bs v Hlo Hne Hbs Hhi Hv IH]; intros i j ci cj.
  - discriminate.
  - destruct i as [|i], j as [|j]; simpl; try lia.
    + intros [= <-] Hj _. simpl.
      apply list_elem_of_lookup_2, list_elem_of_In in Hj.
      destruct (proj1 wf_conditionals_range _ _ _ Hv cj (in_all_conditionals _ _ Hj))
        as (? & _). assumption.
    + intros Hi Hj Hlt. apply (IH i j); (assumption || lia).
Qed.

Lemma wf_nested lo hi v c blk :
  wf_forest lo hi v -> In c (all_conditionals v) -> In blk (blocks c) ->
  wf_forest (block_begin_line blk) (block_end_line blk) (nested_conditionals blk).
Proof.
  intros Hwf Hc Hblk.
  destruct (proj1 wf_conditionals_range _ _ _ Hwf c Hc) as (_ & _ & _ & Hbs).
  now destruct (wf_blocks_range _ _ _ Hbs blk Hblk) as (_ & _ & _ & ?).
Qed.

(** X2: the nesting of a built forest follows the line numbers.  Every
    conditional lies between line 1 and the last line of the file and ends
    after it begins; a conditional nested in a block lies strictly inside
    the block; and sibling conditionals, at the top and inside every block,
    are in source order and disjoint. *)
Theorem forest_nesting (stream : istream) (st : builder) :
  build stream = Continue st ->
  (forall c, In c (all_conditionals (conditionals st)) ->
     1 <= begin_line c /\ begin_line c < end_line c
     /\ end_line c <= last_line stream)
  /\ ordered (conditionals st)
  /\ (forall c blk, In c (all_conditionals (conditionals st)) -> In blk (blocks c) ->
        ordered (nested_conditionals blk)
        /\ forall c', In c' (nested_conditionals blk) ->
             block_begin_line blk < begin_line c'
             /\ end_line c' < block_end_line blk).
Proof.
  intros Hb. apply build_wf in Hb as [_ Hwf]. split; [|split].
  - intros c Hc.
    destruct (proj1 wf_conditionals_range _ _ _ Hwf c Hc) as (? & ? & Hne & Hbs).
    pose proof (wf_blocks_lt _ _ _ Hbs Hne). lia.
  - eapply wf_forest_ordered; eauto.
  - intros c blk Hc Hblk. pose proof (wf_nested _ _ _ _ _ Hwf Hc Hblk) as Hn.
    split; [eapply wf_forest_ordered; eauto|].
    intros c' Hc'.
    destruct (proj1 wf_conditionals_range _ _ _ Hn c' (in_all_conditionals _ _ Hc'))
      as (? & ? & _).
    lia.
Qed.

Lemma forest_nesting_witness :
  build example2 = Continue (mk_builder example2_forest [])
  /\ (forall c, In c (all_conditionals example2_forest) ->
        1 <= begin_line c /\ begin_line c < end_line c
        /\ end_line c <= last_line example2)
  /\ ordered example2_forest
  /\ (forall c blk, In c (all_conditionals example2_forest) -> In blk (blocks c) ->
        ordered (nested_conditionals blk)
        /\ forall c', In c' (nested_conditionals blk) ->
             block_begin_line blk < begin_line c'
             /\ end_line c' < block_end_line blk).
Proof.
  split; [reflexivity|].
  apply (forest_nesting example2 (mk_builder example2_forest [])). reflexivity.
Defined.

(** ** Soundness and completeness of the query *)

Lemma all_blocks_cons b e bs v :
  all_blocks (mk_conditional b e bs :: v) = blocks_under bs ++ all_blocks v.
Proof. reflexivity. Qed.

Lemma blocks_under_cons blk bs :
  blocks_under (blk :: bs)
  = blk :: all_blocks (nested_conditionals blk) ++ blocks_under bs.
Proof. reflexivity. Qed.

(** Where the blocks of a well-formed forest lie. *)
Lemma wf_all_blocks_range :
  (forall lo hi v, wf_forest lo hi v ->
     forall blk, In blk (all_blocks v) ->
       lo < block_begin_line blk /\ block_begin_line blk < block_end_line blk
       /\ block_end_line blk < hi)
  /\ (forall b e bs, wf_blocks b e bs ->
        forall blk, In blk (blocks_under bs) ->
          b <= block_begin_line blk /\ block_begin_line blk < block_end_line blk
          /\ block_end_line blk <= e).
Proof.
  apply wf_mutind.
  - intros lo hi blk [].
  - intros lo hi b e bs v Hlo Hne Hbs IHbs Hhi Hv IHv blk.
    pose proof (wf_blocks_le _ _ _ Hbs).
    rewrite all_blocks_cons, in_app_iff. intros [Hin | Hin].
    + destruct (IHbs blk Hin) as (? & ? & ?). lia.
    + destruct (IHv blk Hin) as (? & ? & ?). lia.
  - intros b blk [].
  - intros b m e txt ns bs Hlt Hns IHns Hbs IHbs blk.
    pose proof (wf_blocks_le _ _ _ Hbs).
    rewrite blocks_under_cons. intros [<- | Hin]; [simpl; lia|].
    apply in_app_iff in Hin as [Hin | Hin].
    + destruct (IHns blk Hin) as (? & ? & ?). lia.
    + destruct (IHbs blk Hin) as (? & ? & ?). lia.
Qed.

(** Every entry of a trace is the entry of a block of the forest; a FALSE
    entry names a block that ends at or before the line. *)
Lemma trace_sound :
  (forall lo hi v, wf_forest lo hi v ->
     forall line ev, In ev (process_line line v) ->
       exists blk, In blk (all_blocks v) /\ ev = entry_of line blk
                   /\ (in_block line blk = false -> block_end_line blk <= line))
  /\ (forall b e bs, wf_blocks b e bs ->
        forall line ev, b <= line -> In ev (scan_blocks line bs) ->
          exists blk, In blk (blocks_under bs) /\ ev = entry_of line blk
                      /\ (in_block line blk = false -> block_end_line blk <= line)).
Proof.
  apply wf_mutind.
  - intros lo hi line ev [].
  - intros lo hi b e bs v Hlo Hne Hbs IHbs Hhi Hv IHv line ev.
    rewrite process_line_cons, all_blocks_cons.
    destruct (in_conditional line _) eqn:E; intros Hev.
    + apply in_conditional_spec in E; simpl in E.
      destruct (IHbs line ev (proj1 E) Hev) as (blk & ? & ? & ?).
      exists blk. rewrite in_app_iff. auto.
    + destruct (IHv line ev Hev) as (blk & ? & ? & ?).
      exists blk. rewrite in_app_iff. auto.
  - intros b line ev _ [].
  - intros b m e txt ns bs Hlt Hns IHns Hbs IHbs line ev Hline.
    cbn [scan_blocks]. rewrite blocks_under_cons.
    destruct (in_block line (mk_block b m txt ns)) eqn:E.
    + intros [<- | Hev].
      * exists (mk_block b m txt ns). split; [now left|].
        unfold entry_of. rewrite E. split; [reflexivity | discriminate].
      * destruct (IHns line ev Hev) as (blk & ? & ? & ?).
        exists blk. split; [right; apply in_or_app; now left | auto].
    + apply in_block_false in E; simpl in E.
      intros [<- | Hev].
      * exists (mk_block b m txt ns). split; [now left|].
        unfold entry_of. replace (in_block line (mk_block b m txt ns)) with false
          by (symmetry; apply in_block_false; simpl; lia).
        split; [reflexivity | simpl; lia].
      * destruct (IHbs line ev ltac:(lia) Hev) as (blk & ? & ? & ?).
        exists blk. split; [right; apply in_or_app; now right | auto].
Qed.

(** Every block that contains the line is in the trace, as a TRUE entry. *)
Lemma trace_complete :
  (forall lo hi v, wf_forest lo hi v ->
     forall line blk, In blk (all_blocks v) -> in_block line blk = true ->
       In (entry_of line blk) (process_line line v))
  /\ (forall b e bs, wf_blocks b e bs ->
        forall line blk, In blk (blocks_under bs) -> in_block line blk = true ->
          In (entry_of line blk) (scan_blocks line bs)).
Proof.
  apply wf_mutind.
  - intros lo hi line blk [].
  - intros lo hi b e bs v Hlo Hne Hbs IHbs Hhi Hv IHv line blk.
    rewrite process_line_cons, all_blocks_cons, in_app_iff.
    intros [Hin | Hin] Hcont; pose proof Hcont as Hc; apply in_block_spec in Hc.
    + destruct (proj2 wf_all_blocks_range _ _ _ Hbs blk Hin) as (? & ? & ?).
      range_test true. now apply IHbs.
    + destruct (proj1 wf_all_blocks_range _ _ _ Hv blk Hin) as (? & ? & ?).
      range_test false. now apply IHv.
  - intros b line blk [].
  - intros b m e txt ns bs Hlt Hns IHns Hbs IHbs line blk.
    rewrite blocks_under_cons. cbn [scan_blocks].
    intros [<- | Hin] Hcont.
    + rewrite Hcont. left. unfold entry_of. now rewrite Hcont.
    + pose proof Hcont as Hc; apply in_block_spec in Hc.
      apply in_app_iff in Hin as [Hin | Hin].
      * destruct (proj1 wf_all_blocks_range _ _ _ Hns blk Hin) as (? & ? & ?).
        range_test true. right. now apply IHns.
      * destruct (proj2 wf_all_blocks_range _ _ _ Hbs blk Hin) as (? & ? & ?).
        range_test false. right. now apply IHbs.
Qed.

(** X6: the trace of a query on a built forest is sound and complete.
    Every entry is printed for a block of the forest, TRUE exactly when the
    block contains the line (first line included, last line excluded); a
    block with a FALSE entry ends at or before the line; and every block
    that contains the line has its TRUE entry in the trace. *)
Theorem trace_names_the_containing_blocks (stream : istream) (st : builder) (line : Z) :
  build stream = Continue st ->
  (forall ev, In ev (process_line line (conditionals st)) ->
     exists blk,
       In blk (all_blocks (conditionals st))
       /\ ev = Requires (in_block line blk) (block_begin_line blk) (condition blk)
       /\ (in_block line blk = false -> block_end_line blk <= line))
  /\ (forall blk,
        In blk (all_blocks (conditionals st)) -> in_block line blk = true ->
        In (Requires true (block_begin_line blk) (condition blk))
           (process_line line (conditionals st))).
Proof.
  intros Hb. apply build_wf in Hb as [_ Hwf]. split.
  - intros ev Hev. exact (proj1 trace_sound _ _ _ Hwf line ev Hev).
  - intros blk Hblk Hcont.
    pose proof (proj1 trace_complete _ _ _ Hwf line blk Hblk Hcont) as H.
    unfold entry_of in H. now rewrite Hcont in H.
Qed.

Lemma trace_names_the_containing_blocks_witness :
  build example2 = Continue (mk_builder example2_forest [])
  /\ (forall blk,
        In blk (all_blocks example2_forest) -> in_block 2 blk = true ->
        In (Requires true (block_begin_line blk) (condition blk))
           (process_line 2 example2_forest)).
Proof.
  split; [reflexivity|].
  apply (trace_names_the_containing_blocks example2 (mk_builder example2_forest []) 2).
  reflexivity.
Defined.

(** The lines of a trace increase, and none is after the target line. *)
Lemma trace_increasing :
  (forall lo hi v, wf_forest lo hi v ->
     forall line,
       StronglySorted Z.lt (map event_line (process_line line v))
       /\ forall ev, In ev (process_line line v) -> event_line ev <= line)
  /\ (forall b e bs, wf_blocks b e bs ->
        forall line, b <= line ->
          StronglySorted Z.lt (map event_line (scan_blocks line bs))
          /\ forall ev, In ev (scan_blocks line bs) -> event_line ev <= line).
Proof.
  apply wf_mutind.
  - intros lo hi line. split; [constructor | intros ev []].
  - intros lo hi b e bs v Hlo Hne Hbs IHbs Hhi Hv IHv line.
    rewrite process_line_cons.
    destruct (in_conditional line _) eqn:E; [|apply IHv].
    apply in_conditional_spec in E; simpl in E. apply IHbs. lia.
  - intros b line _. split; [constructor | intros ev []].
  - intros b m e txt ns bs Hlt Hns IHns Hbs IHbs line Hline.
    cbn [scan_blocks].
    destruct (in_block line (mk_block b m txt ns)) eqn:E; cbn [map event_line
      block_begin_line condition].
    + destruct (IHns line) as [Hs Hle]. split.
      * constructor; [assumption|]. apply List.Forall_forall. intros x Hx.
        apply in_map_iff in Hx as (ev & <- & Hev).
        apply (proj1 query_event_lines _ _ _ Hns) in Hev. lia.
      * intros ev [<- | Hev]; [simpl; lia | now apply Hle].
    + apply in_block_false in E; simpl in E.
      destruct (IHbs line ltac:(lia)) as [Hs Hle]. split.
      * constructor; [assumption|]. apply List.Forall_forall. intros x Hx.
        apply in_map_iff in Hx as (ev & <- & Hev).
        apply (proj2 query_event_lines _ _ _ Hbs) in Hev. lia.
      * intros ev [<- | Hev]; [simpl; lia | now apply Hle].
Qed.

(** X7: the trace of a query on a built forest is in source order: the
    line numbers of its entries increase strictly, from the outermost
    conditional inwards, and none of them is after the target line. *)
Theorem trace_in_source_order (stream : istream) (st : builder) (line : Z) :
  build stream = Continue st ->
  StronglySorted Z.lt (map event_line (process_line line (conditionals st)))
  /\ forall ev, In ev (process_line line (conditionals st)) -> event_line ev <= line.
Proof.
  intros Hb. apply build_wf in Hb as [_ Hwf].
  exact (proj1 trace_increasing _ _ _ Hwf line).
Qed.

Lemma trace_in_source_order_witness :
  build example10 = Continue
      (mk_builder
         [mk_conditional 1 5
            [mk_block 1 2 "#if A" []; mk_block 2 3 "#else" [];
             mk_block 3 4 "#elif B" []; mk_block 4 5 "#else" []]]
         [])
  /\ StronglySorted Z.lt
       (map event_line
          (process_line 4
             [mk_conditional 1 5
                [mk_block 1 2 "#if A" []; mk_block 2 3 "#else" [];
                 mk_block 3 4 "#elif B" []; mk_block 4 5 "#else" []]])).
Proof.
  split; [reflexivity|].
  apply (trace_in_source_order example10
           (mk_builder
              [mk_conditional 1 5
                 [mk_block 1 2 "#if A" []; mk_block 2 3 "#else" [];
                  mk_block 3 4 "#elif B" []; mk_block 4 5 "#else" []]]
              []) 4).
  reflexivity.
Defined.

(** ** Arguments, again *)

(** A line number the argument scan keeps: positive, within [int], and
    read by [atoi] from an argument that does not begin with a dash. *)
Lemma parse_args_lines (m : nat) :
  forall args filePath lines filePath' lines',
    (length args <= m)%nat ->
    (parse_args filePath lines args = Parsed filePath' lines' ->
     exists added,
       lines' = lines ++ added
       /\ Forall (fun n => 0 < n <= INT_MAX
                          /\ exists a, In a args /\ starts_with_dash a = false
                                       /\ atoi a = n) added)
    /\ (read_lines filePath lines args = Parsed filePath' lines' ->
        exists added,
          lines' = lines ++ added
          /\ Forall (fun n => 0 < n <= INT_MAX
                             /\ exists a, In a args /\ starts_with_dash a = false
                                          /\ atoi a = n) added).
Proof.
  induction m as [|m IH]; intros args f l f' l' Hlen.
  { destruct args; [|simpl in Hlen; lia].
    split; intros [= <- <-]; exists []; now rewrite app_nil_r. }
  destruct args as [|arg rest].
  { split; intros [= <- <-]; exists []; now rewrite app_nil_r. }
  simpl in Hlen.
  assert (Hweak : forall (rest' : list string) added,
            (forall a, In a rest' -> In a (arg :: rest)) ->
            Forall (fun n => 0 < n <= INT_MAX
                             /\ exists a, In a rest' /\ starts_with_dash a = false
                                          /\ atoi a = n) added ->
            Forall (fun n => 0 < n <= INT_MAX
                             /\ exists a, In a (arg :: rest) /\ starts_with_dash a = false
                                          /\ atoi a = n) added).
  { intros rest' added Hsub Hall. eapply Forall_impl; [exact Hall|].
    intros n [Hn (a & Ha & Hd & Hat)]. eauto 6. }
  assert (Hparse : parse_args f l (arg :: rest) = Parsed f' l' ->
                   exists added,
                     l' = l ++ added
                     /\ Forall (fun n => 0 < n <= INT_MAX
                                         /\ exists a, In a (arg :: rest)
                                                      /\ starts_with_dash a = false
                                                      /\ atoi a = n)
                          added).
  { rewrite parse_args_cons.
    destruct (String.eqb arg "--file").
    { destruct (negb (string_empty f)); [discriminate|].
      destruct rest as [|path rest']; [discriminate|]. intros H.
      destruct (proj1 (IH rest' path l f' l' ltac:(simpl in Hlen; lia)) H)
        as (added & -> & Hall).
      exists added. split; [reflexivity|].
      apply (Hweak rest'); [|assumption]. intros a Ha. right. now right. }
    destruct (String.eqb arg "--lines").
    { intros H. destruct (proj2 (IH rest f l f' l' ltac:(lia)) H) as (added & -> & Hall).
      exists added. split; [reflexivity|].
      apply (Hweak rest); [|assumption]. intros a Ha. now right. }
    destruct (String.eqb arg "--help"); discriminate. }
  split; [assumption|].
  cbn [read_lines]. destruct (starts_with_dash arg) eqn:Hdash; [assumption|].
  cbv zeta. destruct (atoi arg <=? 0) eqn:E; [discriminate|]. intros H.
  destruct (proj2 (IH rest f (l ++ [atoi arg]) f' l' ltac:(lia)) H)
    as (added & -> & Hall).
  exists (atoi arg :: added). split; [now rewrite <- app_assoc|].
  constructor.
  - pose proof (atoi_range arg). split; [lia|].
    exists arg. split; [now left | split; [assumption | reflexivity]].
  - apply (Hweak rest); [|assumption]. intros a Ha. now right.
Qed.

(** X8: every line number that the argument scan accepts is positive, fits
    an [int], and is the [atoi] value of one of the arguments that do not
    begin with a dash: an argument whose [atoi] value is zero or negative is
    never queried.  ([atoi] reads the numeral at the head of the argument,
    so [12abc] counts as 12, and an argument without a numeral as 0.) *)
Theorem accepted_lines_are_positive (args : list string) (filePath : string) (lines : list Z) :
  parse_args EmptyString [] args = Parsed filePath lines ->
  Forall (fun n => 0 < n <= INT_MAX
                   /\ exists a, In a args /\ starts_with_dash a = false /\ atoi a = n)
    lines.
Proof.
  intros H.
  destruct (proj1 (parse_args_lines (length args) args EmptyString [] filePath lines
                     (le_n _)) H) as (added & -> & Hall).
  exact Hall.
Qed.

Lemma accepted_lines_are_positive_witness :
  parse_args EmptyString []
    ["--lines"; "3"; " +7"; "12abc"; "--file"; "a.c"; "--lines"; "3"]%string
  = Parsed "a.c" [3; 7; 12; 3]
  /\ Forall (fun n => 0 < n <= INT_MAX
                      /\ exists a,
                           In a ["--lines"; "3"; " +7"; "12abc"; "--file"; "a.c";
                                 "--lines"; "3"]%string
                           /\ starts_with_dash a = false /\ atoi a = n)
       [3; 7; 12; 3].
Proof.
  split; [reflexivity|].
  apply (accepted_lines_are_positive
           ["--lines"; "3"; " +7"; "12abc"; "--file"; "a.c"; "--lines"; "3"]%string "a.c").
  reflexivity.
Defined.

Lemma parse_args_stops (m : nat) :
  forall args filePath lines events code,
    (length args <= m)%nat ->
    (parse_args filePath lines args = Stop events code ->
     (code = 0 /\ events = [Usage])
     \/ (code = 1 /\ exists msg, events = [Error msg; Usage]))
    /\ (read_lines filePath lines args = Stop events code ->
        (code = 0 /\ events = [Usage])
        \/ (code = 1 /\ exists msg, events = [Error msg; Usage])).
Proof.
  induction m as [|m IH]; intros args f l ev code Hlen.
  { destruct args; [|simpl in Hlen; lia]. split; discriminate. }
  destruct args as [|arg rest]; [split; discriminate|].
  simpl in Hlen.
  assert (Hparse : parse_args f l (arg :: rest) = Stop ev code ->
                   (code = 0 /\ ev = [Usage])
                   \/ (code = 1 /\ exists msg, ev = [Error msg; Usage])).
  { rewrite parse_args_cons.
    destruct (String.eqb arg "--file").
    { destruct (negb (string_empty f)); [intros [= <- <-]; eauto|].
      destruct rest as [|path rest']; [intros [= <- <-]; eauto|].
      apply (IH rest' path l ev code). simpl in Hlen. lia. }
    destruct (String.eqb arg "--lines").
    { apply (IH rest f l ev code). lia. }
    destruct (String.eqb arg "--help"); intros [= <- <-]; eauto. }
  split; [assumption|].
  cbn [read_lines]. destruct (starts_with_dash arg); [assumption|].
  cbv zeta. destruct (atoi arg <=? 0); [intros [= <- <-]; eauto|].
  apply (IH rest f (l ++ [atoi arg]) ev code). lia.
Qed.

Lemma report_not_open v lines :
  (forall line ev, In ev (process_line line v) -> is_open ev = false) ->
  Forall (fun ev => is_open ev = false) (report v lines).
Proof.
  intros Hv. unfold report. induction lines as [|l lines IH]; [constructor|].
  cbn [flat_map app]. constructor; [reflexivity|].
  apply Forall_app. split; [|exact IH].
  apply Forall_app. split; [|repeat constructor].
  apply List.Forall_forall. intros ev Hev. eauto.
Qed.

(** A build that fails does so with the error of the bracket matching. *)
Lemma build_fatal_nesting stream msg :
  build stream = Fatal msg -> nesting_error (logical_lines 1 stream) = Some msg.
Proof.
  pose proof (build_loop_agrees (length stream) stream initial_builder 1 0 (le_n _)) as H.
  unfold build, nesting_error.
  destruct (build_loop initial_builder 1 stream) as [st|m|]; simpl in H.
  - rewrite H; [|constructor; [constructor | lia]].
    destruct (stateStack st) eqn:Es; simpl; [discriminate|]. now intros [= <-].
  - rewrite H; [now intros [= <-] | constructor; [constructor | lia]].
  - discriminate.
Qed.

(** X9: how a run can end, and what each exit code says about the
    arguments and the file.  [main] returns 0 after printing the usage alone,
    or when the arguments name a file that opens and builds, after printing
    the report of that file's forest for the lines of the arguments.  It
    returns 1 after exactly one error message, followed by the usage for an
    argument error, and by nothing when the file of the arguments cannot be
    opened.  It returns -1 when the file of the arguments opens and its build
    fails, after the message of that failure, which is the error of the
    bracket matching on the file's logical lines.  A file is opened at most
    once, before anything is printed, and only for the path given with
    [--file]. *)
Theorem run_outcomes (fs : filesystem) (args : list string) (events : list event) (code : Z) :
  main fs args = Exit events code ->
  ((code = 0
    /\ (events = [Usage]
        \/ exists path lines content st,
             parse_args EmptyString [] args = Parsed path lines
             /\ fs path = Some content
             /\ build (physical_lines content) = Continue st
             /\ events = OpenFile path :: report (conditionals st) lines))
   \/ (code = 1
       /\ ((exists msg, events = [Error msg; Usage])
           \/ exists path lines,
                parse_args EmptyString [] args = Parsed path lines
                /\ fs path = None
                /\ events = [OpenFile path; Error (msg_open_failed path)]))
   \/ (code = -1
       /\ exists path lines content msg,
            parse_args EmptyString [] args = Parsed path lines
            /\ fs path = Some content
            /\ build (physical_lines content) = Fatal msg
            /\ nesting_error (logical_lines 1 (physical_lines content)) = Some msg
            /\ events = [OpenFile path; Error msg]))
  /\ Forall (fun ev => is_open ev = false) (tail events)
  /\ (forall path, In (OpenFile path) events ->
        exists lines, parse_args EmptyString [] args = Parsed path lines).
Proof.
  unfold main.
  destruct (parse_args EmptyString [] args) as [path lines | ev c] eqn:Hp.
  - destruct (string_empty path);
      [intros [= <- <-]; split; [right; left; eauto | split; [repeat constructor|]];
       intros p [[=] | [[=] | []]]|].
    destruct lines as [|l lines];
      [intros [= <- <-]; split; [right; left; eauto | split; [repeat constructor|]];
       intros p [[=] | [[=] | []]]|].
    destruct (fs path) as [content|] eqn:Hfs.
    + destruct (build (physical_lines content)) as [st|msg|] eqn:Hb; [| |discriminate].
      * intros [= <- <-].
        split; [left; split; [reflexivity|]; right; exists path, (l :: lines), content, st;
                auto|].
        assert (Hrep : Forall (fun ev => is_open ev = false)
                         (report (conditionals st) (l :: lines))).
        { apply report_not_open. intros line ev Hev. apply build_wf in Hb as [_ Hwf].
          destruct (proj1 trace_sound _ _ _ Hwf line ev Hev) as (blk & _ & -> & _).
          reflexivity. }
        split; [exact Hrep|].
        intros p [[= <-] | Hin]; [eauto|].
        apply (proj1 (List.Forall_forall _ _) Hrep) in Hin. discriminate.
      * intros [= <- <-].
        split; [right; right; split; [reflexivity|];
                exists path, (l :: lines), content, msg;
                pose proof (build_fatal_nesting _ _ Hb); auto|].
        split; [repeat constructor|].
        intros p [[= <-] | [[=] | []]]. eauto.
    + intros [= <- <-].
      split; [right; left; split; [reflexivity|]; right; exists path, (l :: lines); auto|].
      split; [repeat constructor|].
      intros p [[= <-] | [[=] | []]]. eauto.
  - intros [= <- <-].
    destruct (proj1 (parse_args_stops (length args) args EmptyString [] ev c (le_n _)) Hp)
      as [[-> ->] | [-> [msg ->]]].
    + split; [left; auto|]. split; [repeat constructor|].
      intros p [[=] | []].
    + split; [right; left; eauto|]. split; [repeat constructor|].
      intros p [[=] | [[=] | []]].
Qed.

Lemma run_outcomes_witness :
  main example4_files ["--file"; "b.c"; "--lines"; "1"]%string
  = Exit [OpenFile "b.c"; Error msg_unmatched_endif] (-1)
  /\ (exists path lines content msg,
        parse_args EmptyString [] ["--file"; "b.c"; "--lines"; "1"]%string
        = Parsed path lines
        /\ example4_files path = Some content
        /\ build (physical_lines content) = Fatal msg
        /\ nesting_error (logical_lines 1 (physical_lines content)) = Some msg
        /\ [OpenFile "b.c"; Error msg_unmatched_endif] = [OpenFile path; Error msg])
  /\ Forall (fun ev => is_open ev = false)
       (tail [OpenFile "b.c"; Error msg_unmatched_endif])
  /\ (forall path,
        In (OpenFile path) [OpenFile "b.c"; Error msg_unmatched_endif] ->
        exists lines,
          parse_args EmptyString [] ["--file"; "b.c"; "--lines"; "1"]%string
          = Parsed path lines).
Proof.
  split; [reflexivity|].
  destruct (run_outcomes example4_files ["--file"; "b.c"; "--lines"; "1"]%string
              [OpenFile "b.c"; Error msg_unmatched_endif] (-1) eq_refl)
    as [[[H _] | [[H _] | [_ H]]] Hrest]; [discriminate H | discriminate H |].
  split; [exact H | exact Hrest].
Defined.

(** ** The classifier, again *)

Lemma skip_whitespace_pad pad s :
  all_whitespace pad = true ->
  skip_whitespace (String.append pad s) = skip_whitespace s.
Proof.
  induction pad as [|c pad IH]; [reflexivity|].
  cbn [all_whitespace String.append skip_whitespace].
  intros H. apply andb_true_iff in H as [Hc Hpad]. rewrite Hc. now apply IH.
Qed.

Lemma skip_whitespace_split s :
  exists pad,
    s = String.append pad (skip_whitespace s)
    /\ all_whitespace pad = true
    /\ starts_with is_blank (skip_whitespace s) = false.
Proof.
  induction s as [|c s (pad & E & Hpad & Hs)]; [exists EmptyString; auto|].
  cbn [skip_whitespace]. destruct (string_mem c whitespace) eqn:Ec.
  - exists (String c pad). cbn [String.append all_whitespace].
    split; [now rewrite <- E | split; [now rewrite Ec, Hpad | assumption]].
  - exists EmptyString. repeat split. exact Ec.
Qed.

Lemma skip_whitespace_fixed s :
  starts_with is_blank s = false -> skip_whitespace s = s.
Proof.
  destruct s as [|c s]; [reflexivity|].
  cbn [starts_with skip_whitespace]. unfold is_blank. now intros ->.
Qed.

Lemma alpha_prefix_split w :
  exists tail,
    w = String.append (alpha_prefix w) tail
    /\ all_alpha (alpha_prefix w) = true
    /\ starts_with isalpha tail = false.
Proof.
  induction w as [|c w (tail & E & Ha & Ht)]; [exists EmptyString; auto|].
  cbn [alpha_prefix]. destruct (isalpha c) eqn:Ec.
  - exists tail. cbn [String.append all_alpha].
    split; [now rewrite <- E | split; [now rewrite Ec, Ha | assumption]].
  - exists (String c w). repeat split. exact Ec.
Qed.

Lemma alpha_prefix_append d tail :
  all_alpha d = true -> starts_with isalpha tail = false ->
  alpha_prefix (String.append d tail) = d.
Proof.
  induction d as [|c d IH]; intros Hd Ht.
  - destruct tail as [|c t]; [reflexivity|]. simpl in *. now rewrite Ht.
  - cbn [all_alpha] in Hd. apply andb_true_iff in Hd as [Hc Hd].
    cbn [String.append alpha_prefix]. rewrite Hc. f_equal. now apply IH.
Qed.

(** X10: what a directive line looks like.  The classifier finds the
    directive [d] in a line exactly when the line is blanks, a ['#'], blanks
    again, then [d] made of letters only and followed by something that does
    not begin with a letter, where [d] and what follows it are not both
    empty. *)
Theorem directive_shape (line d : string) :
  directive_of line = Some d <->
  exists pad1 pad2 tail,
    line = String.append pad1 (String hash (String.append pad2 (String.append d tail)))
    /\ all_whitespace pad1 = true
    /\ all_whitespace pad2 = true
    /\ all_alpha d = true
    /\ starts_with isalpha tail = false
    /\ starts_with is_blank (String.append d tail) = false
    /\ String.append d tail <> EmptyString.
Proof.
  rewrite directive_of_spec. split.
  - destruct (skip_whitespace_split line) as (pad1 & E1 & Hp1 & _).
    destruct (skip_whitespace line) as [|c rest]; [discriminate|].
    destruct (Ascii.eqb c hash) eqn:Ec; [|discriminate].
    apply Ascii.eqb_eq in Ec; subst c.
    destruct (skip_whitespace_split rest) as (pad2 & E2 & Hp2 & Hs2).
    destruct (alpha_prefix_split (skip_whitespace rest)) as (tail & E3 & Ha & Ht).
    destruct (skip_whitespace rest) as [|c' word] eqn:Ew; [discriminate|].
    intros Hd.
    assert (Hd' : d = alpha_prefix (String c' word))
      by (injection Hd as <-; reflexivity).
    clear Hd. subst d. exists pad1, pad2, tail.
    split; [|repeat split; try assumption].
    + rewrite E1 at 1. f_equal. f_equal. rewrite E2 at 1. f_equal. exact E3.
    + now rewrite <- E3.
    + rewrite <- E3. discriminate.
  - intros (pad1 & pad2 & tail & -> & Hp1 & Hp2 & Ha & Ht & Hb & Hne).
    rewrite (skip_whitespace_pad pad1) by assumption.
    cbn [skip_whitespace]. change (string_mem hash whitespace) with false.
    cbv iota. rewrite Ascii.eqb_refl.
    rewrite (skip_whitespace_pad pad2) by assumption.
    rewrite (skip_whitespace_fixed _ Hb).
    destruct (String.append d tail) as [|c w] eqn:E; [congruence|].
    rewrite <- E. now rewrite alpha_prefix_append.
Qed.

(** X11: indentation and the spacing after the ['#'] do not matter: a line
    is classified like the same line with the blanks before and after the
    ['#'] removed, so the builder treats both alike. *)
Theorem indentation_is_ignored (pad1 pad2 rest : string) :
  all_whitespace pad1 = true ->
  all_whitespace pad2 = true ->
  directive_of (String.append pad1 (String hash (String.append pad2 rest)))
  = directive_of (String hash rest)
  /\ kind_of (String.append pad1 (String hash (String.append pad2 rest)))
     = kind_of (String hash rest).
Proof.
  intros Hp1 Hp2.
  assert (E : directive_of (String.append pad1 (String hash (String.append pad2 rest)))
              = directive_of (String hash rest)).
  { rewrite !directive_of_spec.
    rewrite (skip_whitespace_pad pad1) by assumption.
    cbn [skip_whitespace]. change (string_mem hash whitespace) with false.
    cbv iota. rewrite Ascii.eqb_refl.
    now rewrite (skip_whitespace_pad pad2). }
  split; [assumption|]. unfold kind_of. now rewrite E.
Qed.

Lemma indentation_is_ignored_witness :
  directive_of (String.append "   " (String hash (String.append "  " "ifdef X")))
  = directive_of (String hash "ifdef X")
  /\ kind_of (String.append "   " (String hash (String.append "  " "ifdef X")))
     = kind_of (String hash "ifdef X").
Proof.
  apply (indentation_is_ignored "   " "  " "ifdef X"); reflexivity.
Defined.

(** ** Lines that are not directives *)

Lemma neutral_line st n text :
  structural text = false -> process_directive st n text = Continue st.
Proof.
  unfold structural, kind_of, process_directive, dispatch.
  destruct (directive_of text) as [d|]; [|reflexivity].
  destruct (is_if d); [discriminate|]. destruct (is_else d); [discriminate|].
  now destruct (is_endif d).
Qed.

Lemma run_lines_structural ls : forall st,
  run_lines st ls = run_lines st (List.filter (fun nl => structural (snd nl)) ls).
Proof.
  induction ls as [|[n text] ls IH]; intros st; [reflexivity|].
  cbn [List.filter snd]. destruct (structural text) eqn:E; cbn [run_lines].
  - destruct (process_directive st n text); simpl; auto.
  - rewrite (neutral_line st n text E). simpl. apply IH.
Qed.

(** X12: only the directive lines matter.  Two files whose [#if],
    [#ifdef], [#ifndef], [#elif], [#else] and [#endif] lines are the same, at
    the same line numbers, build the same forest or fail with the same
    error, whatever their other lines are. *)
Theorem only_directives_matter (stream1 stream2 : istream) :
  List.filter (fun nl => structural (snd nl)) (logical_lines 1 stream1)
  = List.filter (fun nl => structural (snd nl)) (logical_lines 1 stream2) ->
  build stream1 = build stream2.
Proof.
  intros H. unfold build.
  rewrite (build_loop_run (length stream1) stream1) by lia.
  rewrite (build_loop_run (length stream2) stream2) by lia.
  rewrite (run_lines_structural (logical_lines 1 stream1)).
  rewrite (run_lines_structural (logical_lines 1 stream2)).
  now rewrite H.
Qed.

Lemma only_directives_matter_witness :
  List.filter (fun nl => structural (snd nl)) (logical_lines 1 example1)
  = List.filter (fun nl => structural (snd nl)) (logical_lines 1 example12)
  /\ build example1 = build example12.
Proof.
  split; [reflexivity|].
  apply (only_directives_matter example1 example12). reflexivity.
Defined.

(** ** More on the query *)

Lemma scan_blocks_nonempty line bs : bs <> [] -> scan_blocks line bs <> [].
Proof. destruct bs as [|blk bs]; [congruence|]. simpl. now destruct (in_block line blk). Qed.

Lemma process_line_empty lo hi v line :
  wf_forest lo hi v ->
  process_line line v = [] ->
  forall c, In c v -> in_conditional line c = false.
Proof.
  induction 1 as [|lo hi b e bs v Hlo Hne Hbs Hhi Hv IH]; [intros _ c []|].
  rewrite process_line_cons. cbn [blocks].
  destruct (in_conditional line (mk_conditional b e bs)) eqn:E.
  - intros H. now apply scan_blocks_nonempty in H.
  - intros H c [<- | Hc]; [assumption | now apply IH].
Qed.

(** X13: the trace of a query on a built forest is empty exactly when no
    top-level conditional contains the line between its [#if] and its
    [#endif], both included. *)
Theorem empty_trace_iff_outside (stream : istream) (st : builder) (line : Z) :
  build stream = Continue st ->
  process_line line (conditionals st) = [] <->
  forall c, In c (conditionals st) -> in_conditional line c = false.
Proof.
  intros Hb. apply build_wf in Hb as [_ Hwf]. split.
  - now apply (process_line_empty _ _ _ _ Hwf).
  - apply process_line_outside.
Qed.

Lemma empty_trace_iff_outside_witness :
  build example2 = Continue (mk_builder example2_forest [])
  /\ (process_line 5 example2_forest = [] <->
      forall c, In c example2_forest -> in_conditional 5 c = false).
Proof.
  split; [reflexivity|].
  apply (empty_trace_iff_outside example2 (mk_builder example2_forest []) 5).
  reflexivity.
Defined.

Lemma sorted_last_is_max (l1 l2 : list event) ev line :
  StronglySorted Z.lt (map event_line (l1 ++ ev :: l2)) ->
  (forall x, In x (l1 ++ ev :: l2) -> event_line x <= line) ->
  event_line ev = line -> l2 = [].
Proof.
  intros Hs Hle Hev. destruct l2 as [|y l2]; [reflexivity|]. exfalso.
  assert (Hlt : event_line ev < event_line y).
  { clear Hle Hev. induction l1 as [|x l1 IH].
    - cbn [app map] in Hs. apply StronglySorted_inv in Hs as [_ Hall].
      now apply Forall_cons in Hall as [Hlt _].
    - cbn [app map] in Hs. apply StronglySorted_inv in Hs as [Hs _]. now apply IH. }
  assert (event_line y <= line) by (apply Hle, in_or_app; right; right; now left).
  lia.
Qed.

(** X14: a query for the line of a directive that opens a block ([#if],
    [#elif], [#else], ...) in a built forest ends with the TRUE entry of that
    very block: the directive line counts as part of the block it opens. *)
Theorem directive_line_is_in_its_block
  (stream : istream) (st : builder) (blk : conditional_block) :
  build stream = Continue st ->
  In blk (all_blocks (conditionals st)) ->
  exists prefix,
    process_line (block_begin_line blk) (conditionals st)
    = prefix ++ [Requires true (block_begin_line blk) (condition blk)].
Proof.
  intros Hb Hblk. apply build_wf in Hb as [_ Hwf].
  destruct (proj1 wf_all_blocks_range _ _ _ Hwf blk Hblk) as (_ & Hlt & _).
  assert (Hcont : in_block (block_begin_line blk) blk = true)
    by (apply in_block_spec; lia).
  pose proof (proj1 trace_complete _ _ _ Hwf _ blk Hblk Hcont) as Hin.
  unfold entry_of in Hin. rewrite Hcont in Hin.
  apply in_split in Hin as (l1 & l2 & E).
  destruct (proj1 trace_increasing _ _ _ Hwf (block_begin_line blk)) as [Hs Hle].
  rewrite E in Hs, Hle.
  rewrite (sorted_last_is_max l1 l2 _ _ Hs Hle eq_refl) in E.
  eauto.
Qed.

Lemma directive_line_is_in_its_block_witness :
  build example1 = Continue (mk_builder example1_forest [])
  /\ In (mk_block 3 5 "#else" []) (all_blocks example1_forest)
  /\ exists prefix,
       process_line 3 example1_forest = prefix ++ [Requires true 3 "#else"].
Proof.
  split; [reflexivity|]. split; [right; now left|].
  apply (directive_line_is_in_its_block example1 (mk_builder example1_forest [])
           (mk_block 3 5 "#else" [])).
  - reflexivity.
  - right. now left.
Defined.

(** ** The conditionals and their directives *)

Lemma all_conditionals_snoc v c :
  all_conditionals (v ++ [c]) = all_conditionals v ++ conds_of c.
Proof. unfold all_conditionals. rewrite flat_map_app. simpl. now rewrite app_nil_r. Qed.

Lemma conds_of_eq b e bs :
  conds_of (mk_conditional b e bs) = mk_conditional b e bs :: nested_of bs.
Proof. reflexivity. Qed.

Lemma nested_of_snoc bs blk :
  nested_of (bs ++ [blk]) = nested_of bs ++ all_conditionals (nested_conditionals blk).
Proof. unfold nested_of. rewrite flat_map_app. simpl. now rewrite app_nil_r. Qed.

Lemma nested_of_leaf b e txt : nested_of [mk_block b e txt []] = [].
Proof. reflexivity. Qed.

#[local] Hint Rewrite all_conditionals_snoc conds_of_eq nested_of_snoc nested_of_leaf
  @map_app : conds_norm.

Lemma opening_lines_lift v b e bs bb be txt inner :
  opening_lines (conditionals (lift_builder v b e bs bb be txt inner))
  = (opening_lines v ++ b :: map begin_line (nested_of bs))
    ++ opening_lines (conditionals inner).
Proof. unfold lift_builder. cbn [conditionals]. now conds_norm. Qed.

Lemma closing_lines_lift v b e bs bb be txt inner :
  closing_lines (conditionals (lift_builder v b e bs bb be txt inner))
  = (closing_lines v ++ e :: map end_line (nested_of bs))
    ++ closing_lines (conditionals inner).
Proof. unfold lift_builder. cbn [conditionals]. now conds_norm. Qed.

(** One step of the builder: an [#if] adds a conditional that begins on the
    current line; only an [#endif] writes an end line, and it writes the
    current line. *)
Lemma dispatch_conditionals n lo v stack :
  open_forest n lo v stack ->
  forall text d st',
    dispatch (mk_builder v stack) n text d = Continue st' ->
    opening_lines (conditionals st')
    = opening_lines v ++ (if is_if d then [n] else [])
    /\ forall e, In e (closing_lines (conditionals st')) ->
         e = 0 \/ In e (closing_lines v)
         \/ (e = n /\ is_if d = false /\ is_else d = false /\ is_endif d = true).
Proof.
  induction 1 as [lo v Hv Hlo | lo v b e bs bb be txt ns stack Hv Hlo Hbs Hbb Hin IH];
    intros text d st'.
  - unfold dispatch, push_conditional, start_conditional; simpl.
    destruct (is_if d).
    + rewrite deref_top; simpl. rewrite store_top. intros [= <-]; simpl.
      split; [now conds_norm|]. conds_norm. intros x Hx.
      apply in_app_iff in Hx as [Hx | [<- | []]]; auto.
    + destruct (is_else d); [discriminate|].
      destruct (is_endif d); [discriminate|]. intros [= <-]. simpl.
      rewrite app_nil_r. auto.
  - destruct stack as [|p stack].
    + unfold dispatch, push_conditional, start_conditional; simpl.
      rewrite deref_top; simpl.
      destruct (is_if d).
      { rewrite last_snoc; simpl. rewrite alter_back_snoc, store_top; simpl.
        rewrite length_app; simpl. replace (pred (length bs + 1)) with (length bs) by lia.
        change (mk_ptr [(length v, length bs)] (length ns))
          with (under (length v) (length bs) (mk_ptr [] (length ns))).
        unfold with_blocks, with_nested; simpl.
        rewrite deref_under; simpl. rewrite deref_top; simpl.
        rewrite store_under; simpl. rewrite store_top. intros [= <-].
        cbn [conditionals]. split; [now conds_norm|]. conds_norm. intros x Hx.
        rewrite !in_app_iff in Hx. cbn [In] in Hx. rewrite !in_app_iff in Hx.
        cbn [In] in Hx. rewrite !in_app_iff. cbn [In]. rewrite !in_app_iff.
        intuition auto. }
      destruct (is_else d).
      { unfold next_block; simpl. snoc_branch.
        rewrite alter_back_snoc, store_top; simpl. intros [= <-].
        cbn [conditionals]. unfold with_blocks, set_block_end_line; simpl.
        split; [now conds_norm|]. conds_norm. auto. }
      destruct (is_endif d).
      { unfold close_conditional; simpl. snoc_branch.
        rewrite alter_back_snoc, store_top; simpl. intros [= <-].
        cbn [conditionals]. unfold set_block_end_line; simpl.
        split; [now conds_norm|]. conds_norm. intros x Hx.
        rewrite !in_app_iff in Hx. cbn [In] in Hx. rewrite !in_app_iff in Hx.
        rewrite !in_app_iff. cbn [In]. rewrite !in_app_iff.
        intuition auto. }
      simpl. intros [= <-]. rewrite app_nil_r. auto.
    + change (mk_builder _ _)
        with (lift_builder v b e bs bb be txt (mk_builder ns (p :: stack))).
      rewrite dispatch_lift by (simpl; congruence).
      destruct (dispatch (mk_builder ns (p :: stack)) n text d) as [st1| |] eqn:E;
        simpl; try discriminate.
      intros [= <-]. destruct (IH _ _ _ E) as [IHo IHc].
      change (v ++ [mk_conditional b e (bs ++ [mk_block bb be txt ns])])
        with (conditionals (lift_builder v b e bs bb be txt (mk_builder ns []))).
      rewrite !opening_lines_lift, !closing_lines_lift. cbn [conditionals].
      split; [rewrite IHo; now repeat (rewrite <- app_assoc; cbn [app])|].
      intros x Hx. apply in_app_iff in Hx as [Hx | Hx].
      * right. left. apply in_app_iff. now left.
      * destruct (IHc x Hx) as [H0 | [H1 | H2]]; auto.
        right. left. apply in_app_iff. now right.
Qed.

Lemma process_directive_conditionals n lo st text st' :
  open_forest n lo (conditionals st) (stateStack st) ->
  process_directive st n text = Continue st' ->
  opening_lines (conditionals st')
  = opening_lines (conditionals st) ++ (if is_opening text then [n] else [])
  /\ forall e, In e (closing_lines (conditionals st')) ->
       e = 0 \/ In e (closing_lines (conditionals st))
       \/ (e = n /\ is_closing text = true).
Proof.
  intros Hinv. unfold process_directive, is_opening, is_closing, kind_of.
  destruct (directive_of text) as [d|].
  - destruct st as [v stack]. intros Hd.
    destruct (dispatch_conditionals _ _ _ _ Hinv _ _ _ Hd) as [Ho Hc].
    cbn [conditionals]. split.
    + rewrite Ho. destruct (is_if d); [reflexivity|].
      destruct (is_else d); [reflexivity|]. now destruct (is_endif d).
    + intros x Hx. destruct (Hc x Hx) as [H0 | [H1 | (-> & E1 & E2 & E3)]]; auto.
      rewrite E1, E2, E3. auto.
  - intros [= <-]. rewrite app_nil_r. auto.
Qed.

Lemma build_loop_conditionals (m : nat) : forall stream st n lo st',
  (length stream <= m)%nat ->
  open_forest n lo (conditionals st) (stateStack st) ->
  build_loop st n stream = Continue st' ->
  opening_lines (conditionals st')
  = opening_lines (conditionals st) ++ lines_where is_opening (logical_lines n stream)
  /\ forall e, In e (closing_lines (conditionals st')) ->
       e = 0 \/ In e (closing_lines (conditionals st))
       \/ In e (lines_where is_closing (logical_lines n stream)).
Proof.
  induction m as [|m IH]; intros stream st n lo st' Hlen Hinv.
  { destruct stream; [|simpl in Hlen; lia]. intros [= <-]. simpl.
    rewrite app_nil_r. auto. }
  destruct stream as [|first stream0].
  { intros [= <-]. simpl. rewrite app_nil_r. auto. }
  rewrite build_loop_cons, logical_lines_cons.
  destruct (merge_continuations first 1 stream0) as [[line k] rest] eqn:Em.
  apply merge_continuations_inv in Em as (taken & -> & -> & _).
  destruct (process_directive_preserves n lo st line Hinv) as [Hp _].
  destruct (process_directive st n line) as [st1|msg|] eqn:Ep; simpl in Hp;
    cbn [loop_body]; try discriminate.
  intros Hb.
  destruct (IH rest st1 (n + (1 + Z.of_nat (length taken))) lo st') as [IHo IHc];
    [simpl in Hlen; rewrite length_app in Hlen; lia | apply Hp; lia | assumption |].
  destruct (process_directive_conditionals _ _ _ _ _ Hinv Ep) as [Ho Hc].
  unfold lines_where in *. cbn [List.filter snd]. split.
  - rewrite IHo, Ho, <- app_assoc. now destruct (is_opening line).
  - intros x Hx. destruct (IHc x Hx) as [H0 | [H1 | H2]]; auto.
    + destruct (Hc x H1) as [H0 | [H3 | [-> E]]]; auto.
      rewrite E. right. right. now left.
    + right. right. destruct (is_closing line); [right|]; assumption.
Qed.

(** X15: the forest has one conditional for each [#if], [#ifdef] or
    [#ifndef] line.  Listed parents first, the conditionals of a built forest
    begin exactly on the logical lines that carry such a directive, in the
    order of the file; and each of them ends on a logical line that carries an
    [#endif]. *)
Theorem conditionals_span_if_to_endif (stream : istream) (st : builder) :
  build stream = Continue st ->
  opening_lines (conditionals st) = lines_where is_opening (logical_lines 1 stream)
  /\ forall c, In c (all_conditionals (conditionals st)) ->
       In (end_line c) (lines_where is_closing (logical_lines 1 stream)).
Proof.
  intros Hb. pose proof (build_wf _ _ Hb) as [_ Hwf]. revert Hb. unfold build.
  destruct (build_loop initial_builder 1 stream) as [st'|msg|] eqn:E; try discriminate.
  destruct (stateStack st'); [|discriminate]. intros [= <-].
  destruct (build_loop_conditionals (length stream) stream initial_builder 1 0 st'
              (le_n _)) as [Ho Hc]; [constructor; [constructor | lia] | exact E |].
  split; [exact Ho|]. intros c Hc'.
  destruct (Hc (end_line c)) as [H0 | [[] | H]]; [now apply in_map | | exact H].
  destruct (proj1 wf_conditionals_range _ _ _ Hwf c Hc') as (? & ? & Hne & Hbs).
  apply wf_blocks_le in Hbs. lia.
Qed.

Lemma conditionals_span_if_to_endif_witness :
  build example2 = Continue (mk_builder example2_forest [])
  /\ opening_lines example2_forest = lines_where is_opening (logical_lines 1 example2)
  /\ forall c, In c (all_conditionals example2_forest) ->
       In (end_line c) (lines_where is_closing (logical_lines 1 example2)).
Proof.
  split; [reflexivity|].
  apply (conditionals_span_if_to_endif example2 (mk_builder example2_forest [])).
  reflexivity.
Defined.

(** ** What a continued line records *)

Lemma top_conditional_lift v b e bs bb be txt inner c :
  top_conditional inner c -> top_conditional (lift_builder v b e bs bb be txt inner) c.
Proof.
  intros (p & Hp & Hc).
  exists (under (length v) (length bs) p). unfold lift_builder; simpl.
  rewrite last_lift_stack, Hp, deref_under. auto.
Qed.

Lemma top_conditional_intro v c :
  top_conditional (mk_builder (v ++ [c]) [mk_ptr [] (length v)]) c.
Proof. exists (mk_ptr [] (length v)). simpl. now rewrite deref_top. Qed.

(** An [#if] leaves a new innermost conditional that begins at the current
    line, with one block that begins there and has the text of the line. *)
Lemma dispatch_opens n lo v stack :
  open_forest n lo v stack ->
  forall text d st',
    is_if d = true ->
    dispatch (mk_builder v stack) n text d = Continue st' ->
    top_conditional st' (mk_conditional n 0 [mk_block n 0 text []]).
Proof.
  induction 1 as [lo v Hv Hlo | lo v b e bs bb be txt ns stack Hv Hlo Hbs Hbb Hin IH];
    intros text d st' Hd.
  - unfold dispatch, push_conditional, start_conditional; simpl. rewrite Hd.
    rewrite deref_top; simpl. rewrite store_top. intros [= <-].
    apply top_conditional_intro.
  - destruct stack as [|p stack].
    + unfold dispatch, push_conditional, start_conditional; simpl.
      rewrite deref_top; simpl. rewrite Hd.
      rewrite last_snoc; simpl. rewrite alter_back_snoc, store_top; simpl.
      rewrite length_app; simpl. replace (pred (length bs + 1)) with (length bs) by lia.
      change (mk_ptr [(length v, length bs)] (length ns))
        with (under (length v) (length bs) (mk_ptr [] (length ns))).
      unfold with_blocks, with_nested; simpl.
      rewrite deref_under; simpl. rewrite deref_top; simpl.
      rewrite store_under; simpl. rewrite store_top. intros [= <-].
      apply (top_conditional_lift v b e bs bb be txt
               (mk_builder (ns ++ [mk_conditional n 0 [mk_block n 0 text []]])
                  [mk_ptr [] (length ns)])).
      apply top_conditional_intro.
    + change (mk_builder _ _)
        with (lift_builder v b e bs bb be txt (mk_builder ns (p :: stack))).
      rewrite dispatch_lift by (simpl; congruence).
      destruct (dispatch (mk_builder ns (p :: stack)) n text d) as [st1| |] eqn:E;
        simpl; try discriminate.
      intros [= <-]. apply top_conditional_lift. eapply IH; eauto.
Qed.

(** An [#if] is always taken; an [#else] or [#elif] is taken while a
    conditional is open. *)
Lemma process_directive_continues n lo st text d :
  open_forest n lo (conditionals st) (stateStack st) ->
  directive_of text = Some d ->
  is_if d = true \/ stateStack st <> [] ->
  exists st', process_directive st n text = Continue st'.
Proof.
  intros Hinv Hd Hcase.
  destruct (process_directive_preserves n lo st text Hinv) as [Hp _].
  destruct (process_directive st n text) as [st'|msg|] eqn:E; [eauto| |contradiction].
  simpl in Hp. destruct Hcase as [Hif | Hne]; [|contradiction].
  unfold process_directive in E. rewrite Hd in E. unfold dispatch in E. rewrite Hif in E.
  destruct (push_conditional st) as [st1|]; [|discriminate].
  destruct (start_conditional n text st1); discriminate.
Qed.

(** The counter and the rest of the file at the head of the loop give the
    logical lines that are still to come. *)
Lemma logical_lines_group n first conts rest :
  continued (first :: conts) = true ->
  complete (first :: conts) rest = true ->
  logical_lines n ((first :: conts) ++ rest)
  = (n, join_lines (first :: conts))
    :: logical_lines (n + Z.of_nat (length (first :: conts))) rest.
Proof.
  intros Hcont Hcomp. simpl app. rewrite logical_lines_cons.
  rewrite (merge_continuations_group conts rest first first 1 eq_refl Hcont Hcomp).
  f_equal. f_equal. simpl length. lia.
Qed.

(** C7: a logical line made of physical lines that end with a backslash is
    read as one text, the physical lines joined by newlines.  The loop
    reaches it with the counter at the number of its first physical line,
    hands that number and the joined text to the directive classifier, and
    advances the counter by the number of physical lines read.  What the
    directive records is that number and that text: an [#if] is taken and
    leaves an open conditional that begins at that number, with one block
    that begins there and has the joined text as its condition; an [#elif] or
    [#else] in an open conditional is taken and appends such a block; an
    [#endif] in an open conditional is taken and writes that number as the
    end line of the conditional and of its last block; and the block of an
    [#if], [#elif] or [#else] is in the forest of the finished build with
    that number and that text. *)
Theorem continuation_lines
  (stream : istream) (st : builder) (n : Z) (first : string) (conts rest : list string) :
  loop_reaches stream st n ((first :: conts) ++ rest) ->
  continued (first :: conts) = true ->
  complete (first :: conts) rest = true ->
  (exists pre,
     stream = pre ++ (first :: conts) ++ rest /\ n = 1 + Z.of_nat (length pre))
  /\ merge_continuations first 1 (conts ++ rest)
     = (join_lines (first :: conts), Z.of_nat (length (first :: conts)), rest)
  /\ build_loop st n ((first :: conts) ++ rest)
     = loop_body
         (fun st' => build_loop st' (n + Z.of_nat (length (first :: conts))) rest)
         (process_directive st n (join_lines (first :: conts)))
  /\ (forall st',
        process_directive st n (join_lines (first :: conts)) = Continue st' ->
        loop_reaches stream st' (n + Z.of_nat (length (first :: conts))) rest)
  /\ (forall d,
        directive_of (join_lines (first :: conts)) = Some d ->
        is_if d = true ->
        exists st',
          process_directive st n (join_lines (first :: conts)) = Continue st'
          /\ top_conditional st'
               (mk_conditional n 0 [mk_block n 0 (join_lines (first :: conts)) []]))
  /\ (forall d,
        directive_of (join_lines (first :: conts)) = Some d ->
        is_else d = true -> stateStack st <> [] ->
        exists st',
          process_directive st n (join_lines (first :: conts)) = Continue st'
          /\ top_block st' (mk_block n 0 (join_lines (first :: conts)) []))
  /\ (forall d,
        directive_of (join_lines (first :: conts)) = Some d ->
        is_endif d = true -> stateStack st <> [] ->
        exists p cond,
          last (stateStack st) = Some p
          /\ deref (conditionals st) p = Some cond
          /\ process_directive st n (join_lines (first :: conts))
             = Continue
                 (mk_builder (store (conditionals st) p (closed_at n cond))
                    (pop_back (stateStack st)))
          /\ deref (store (conditionals st) p (closed_at n cond)) p
             = Some (closed_at n cond))
  /\ (forall d final,
        directive_of (join_lines (first :: conts)) = Some d ->
        is_if d || is_else d = true ->
        build stream = Continue final ->
        In (n, join_lines (first :: conts)) (branches (conditionals final))).
Proof.
  intros Hreach Hcont Hcomp.
  assert (Hm : merge_continuations first 1 (conts ++ rest)
               = (join_lines (first :: conts), Z.of_nat (length (first :: conts)), rest)).
  { rewrite (merge_continuations_group conts rest first first 1 eq_refl Hcont Hcomp).
    f_equal. f_equal. simpl length. lia. }
  pose proof (loop_reaches_invariant _ _ _ _ Hreach) as Hinv.
  split; [now apply loop_reaches_position in Hreach|].
  split; [assumption|].
  split; [simpl app; now rewrite build_loop_cons, Hm|].
  split; [intros st' Hp; eapply reach_next; eauto|].
  split; [|split; [|split]].
  - intros d Hd Hif.
    destruct (process_directive_continues n 0 st _ d Hinv Hd (or_introl Hif))
      as [st' Hp].
    exists st'. split; [assumption|].
    unfold process_directive in Hp. rewrite Hd in Hp. destruct st as [v stack].
    eapply dispatch_opens; eauto.
  - intros d Hd Helse Hstack.
    destruct (process_directive_continues n 0 st _ d Hinv Hd (or_intror Hstack))
      as [st' Hp].
    exists st'. split; [assumption|].
    unfold process_directive in Hp. rewrite Hd in Hp. destruct st as [v stack].
    eapply dispatch_records; eauto. rewrite Helse. apply orb_true_r.
  - intros d Hd Hendif Hstack.
    destruct (last_is_Some _ Hstack) as [p Hp].
    destruct (open_top_valid _ _ _ _ Hinv p Hp) as (cond & Hderef & Hne & Hstore).
    exists p, cond. repeat split; try assumption; [|apply Hstore].
    unfold process_directive, dispatch.
    rewrite Hd, (is_endif_not_if _ Hendif), (is_endif_not_else _ Hendif), Hendif,
      Hp, Hderef.
    unfold close_conditional, closed_at. destruct (blocks cond); [congruence | reflexivity].
  - intros d final Hd Hkind Hb.
    unfold build in Hb. rewrite (loop_reaches_build _ _ _ _ Hreach) in Hb.
    destruct (build_loop st n ((first :: conts) ++ rest)) as [st'|msg|] eqn:E;
      try discriminate.
    destruct (stateStack st'); [|discriminate]. injection Hb as <-.
    rewrite (build_loop_branches (length ((first :: conts) ++ rest)) _ st n 0 st'
               (le_n _) Hinv E).
    rewrite (logical_lines_group n first conts rest Hcont Hcomp).
    apply in_or_app. right. cbn [List.filter snd].
    replace (opens_block (join_lines (first :: conts))) with true; [now left|].
    unfold opens_block, kind_of. rewrite Hd.
    destruct (is_if d); [reflexivity|]. simpl in Hkind. now rewrite Hkind.
Qed.

Lemma continuation_lines_witness :
  loop_reaches example7 initial_builder 1 ((example7_first :: example7_conts) ++ example7_rest)
  /\ continued (example7_first :: example7_conts) = true
  /\ complete (example7_first :: example7_conts) example7_rest = true
  /\ merge_continuations example7_first 1 (example7_conts ++ example7_rest)
     = (join_lines (example7_first :: example7_conts), 2, example7_rest)
  /\ (forall st',
        process_directive initial_builder 1
          (join_lines (example7_first :: example7_conts))
        = Continue st' ->
        loop_reaches example7 st' (1 + 2) example7_rest)
  /\ (exists st',
        process_directive initial_builder 1
          (join_lines (example7_first :: example7_conts))
        = Continue st'
        /\ top_conditional st'
             (mk_conditional 1 0
                [mk_block 1 0 (join_lines (example7_first :: example7_conts)) []]))
  /\ (forall final,
        build example7 = Continue final ->
        In (1, join_lines (example7_first :: example7_conts))
           (branches (conditionals final))).
Proof.
  split; [apply reach_start|]. split; [reflexivity|]. split; [reflexivity|].
  destruct (continuation_lines example7 initial_builder 1
              example7_first example7_conts example7_rest)
    as (_ & Hm & _ & Hnext & Hif & _ & _ & Hfinal);
    [apply reach_start | reflexivity | reflexivity |].
  split; [exact Hm|]. split; [exact Hnext|].
  split; [exact (Hif "if"%string eq_refl eq_refl)|].
  intros final. exact (Hfinal "if"%string final eq_refl eq_refl).
Defined.
